(** * Audio to Guitar Tab converter: the tablature front end and the
      string-fret assignment core

    The development follows the repository's layout:

    - [TabPreview]   embeds [frontend/src/components/TabPreview.js]
                     (tuning table, rendered fret labels, statistics);
    - [FileUploader] embeds [frontend/src/components/FileUploader.js]
                     (file validation and the batch drop handler);
    - [MidiPreview]  embeds [frontend/src/components/MidiPreview.js]
                     (the data loaded by the preview's effect);
    - [Core]         is the string-fret assignment pipeline
                     (backend/midi_to_tab.py), whose source is not part of
                     the tree; it is modelled from the specification.

    JavaScript numbers that only ever hold integers (frets, sizes, pitches)
    are [Z]; times in seconds and cost values are exact rationals [Q]. *)

From Stdlib Require Import ZArith QArith Qabs List Lia Bool Ascii String Sorted Permutation.
From stdpp Require Import base decidable list gmap.

Import ListNotations.
Local Open Scope Z_scope.

(** ** Array iteration with an index, as [Array.prototype.forEach] and
       [Array.prototype.map] pass it to their callback. *)

Fixpoint forEachFrom {A St : Type} (f : St -> A -> nat -> St)
         (l : list A) (i : nat) (s : St) : St :=
  match l with
  | [] => s
  | x :: l' => forEachFrom f l' (S i) (f s x i)
  end.

Definition forEach {A St : Type} (f : St -> A -> nat -> St) (l : list A) (s : St) : St :=
  forEachFrom f l 0%nat s.

Fixpoint mapFrom {A B : Type} (f : A -> nat -> B) (l : list A) (i : nat) : list B :=
  match l with
  | [] => []
  | x :: l' => f x i :: mapFrom f l' (S i)
  end.

Definition mapi {A B : Type} (f : A -> nat -> B) (l : list A) : list B :=
  mapFrom f l 0%nat.

(** ** JavaScript numbers that may be [Infinity] or [-Infinity] *)

Inductive jsnum : Type :=
| NegInfinity
| Num (z : Z)
| Infinity.

(** [Math.min] and [Math.max] on such numbers. *)
Definition Math_min (a b : jsnum) : jsnum :=
  match a, b with
  | NegInfinity, _ | _, NegInfinity => NegInfinity
  | Infinity, x | x, Infinity => x
  | Num x, Num y => Num (Z.min x y)
  end.

Definition Math_max (a b : jsnum) : jsnum :=
  match a, b with
  | Infinity, _ | _, Infinity => Infinity
  | NegInfinity, x | x, NegInfinity => x
  | Num x, Num y => Num (Z.max x y)
  end.

(** [a === Infinity] *)
Definition isInfinity (a : jsnum) : bool :=
  match a with Infinity => true | _ => false end.

(** * TabPreview.js *)

Module TabPreview.

(** A tablature entry as the component receives it: [chord.time] and
    [chord.strings]. *)
Record TabEntry : Type := mkTabEntry {
  time : Q;
  strings : list Z
}.

Definition stringNames : list string :=
  ["E"; "B"; "G"; "D"; "A"; "E"]%string.

(** MIDI note numbers for standard tuning. *)
Definition stringTuning : list Z := [64; 59; 55; 50; 45; 40].

(** The mutable [fretRange] object of [getTabStats]. *)
Record FretRangeObj : Type := mkFretRange {
  min : jsnum;
  max : jsnum
}.

Record TabStats : Type := mkTabStats {
  totalChords : nat;
  totalNotes : nat;
  usedStrings : nat;
  fretRange : option FretRangeObj
}.

(** [fret >= 0] *)
Definition played (fret : Z) : bool := 0 <=? fret.

(** [tabData.reduce((acc, chord) => acc + chord.strings.filter(fret => fret >= 0).length, 0)] *)
Definition countNotes (tabData : list TabEntry) : nat :=
  fold_left (fun acc chord => (acc + length (List.filter played (strings chord)))%nat)
            tabData 0%nat.

(** The state the two nested [forEach] loops mutate. *)
Definition ScanState : Type := (gset nat * FretRangeObj)%type.

(** [fretRange.min = Math.min(fretRange.min, fret);
     fretRange.max = Math.max(fretRange.max, fret);] *)
Definition rangeStep (r : FretRangeObj) (fret : Z) : FretRangeObj :=
  {| min := Math_min (min r) (Num fret);
     max := Math_max (max r) (Num fret) |}.

(** Body of the inner [forEach((fret, stringIndex) => ...)]. *)
Definition scanSlot (st : ScanState) (fret : Z) (stringIndex : nat) : ScanState :=
  if played fret then ({[ stringIndex ]} ∪ st.1, rangeStep st.2 fret) else st.

(** Body of the outer [tabData.forEach(chord => ...)]. *)
Definition scanChord (st : ScanState) (chord : TabEntry) : ScanState :=
  forEach scanSlot (strings chord) st.

Definition scanAll (tabData : list TabEntry) : ScanState :=
  fold_left scanChord tabData (∅, {| min := Infinity; max := NegInfinity |}).

(** [getTabStats]; [None] as argument stands for a [tabData] that is
    missing or not an array, [None] as result for [null]. *)
Definition getTabStats (tabData : option (list TabEntry)) : option TabStats :=
  match tabData with
  | None => None
  | Some tabData =>
      let totalNotes := countNotes tabData in
      let '(usedStrings, fretRange) := scanAll tabData in
      Some {| totalChords := length tabData;
              totalNotes := totalNotes;
              usedStrings := size usedStrings;
              fretRange := if isInfinity (min fretRange) then None else Some fretRange |}
  end.

(** What [TablatureDisplay] draws for one chord: for each string slot
    either a fret label at (chordIndex, stringIndex) or [null]. *)
Record FretLabel : Type := mkFretLabel {
  labelChord : nat;
  labelString : nat;
  labelFret : Z
}.

Definition chordLabels (chordIndex : nat) (chord : TabEntry) : list (option FretLabel) :=
  mapi (fun fret stringIndex =>
          if played fret
          then Some (mkFretLabel chordIndex stringIndex fret)
          else None)
       (strings chord).

(** All labels of a rendered tablature, [None] when "No tablature data
    available" is shown instead. *)
Definition TablatureDisplay (tabData : option (list TabEntry)) : option (list (option FretLabel)) :=
  match tabData with
  | None => None
  | Some tabData => Some (concat (mapi (fun chord chordIndex => chordLabels chordIndex chord) tabData))
  end.

(** The fret values a renderer makes visible. *)
Definition visibleFrets (tabData : list TabEntry) : list Z :=
  match TablatureDisplay (Some tabData) with
  | None => []
  | Some labels => omap (fun o => labelFret <$> o) labels
  end.

(** All fret values that count as played, in reading order. *)
Definition playedFrets (tabData : list TabEntry) : list Z :=
  List.filter played (concat (map strings tabData)).

End TabPreview.

(** ** JavaScript strings: sequences of UTF-16 code units *)

Definition jsString : Type := list N.

(** The code units of a literal written with 8-bit characters. *)
Definition js (s : string) : jsString :=
map N_of_ascii (list_ascii_of_string s).

(** * FileUploader.js *)

Module FileUploader.

(** The fields of a browser [File] the component reads. *)
Record File : Type := mkFile {
  name : jsString;
  type : jsString;
  size : Z
}.

Definition supportedTypes : list jsString :=
  [js "audio/mpeg"; js "audio/wav"; js "audio/flac"; js "audio/x-flac"].

Definition maxSize : Z := 50 * 1024 * 1024.

(** Case folding of a regular expression with the [i] flag and without
    the [u] flag: a code unit is compared through its upper-case form.
    The lower-case Latin letters are the only code units below 128 that
    change; a code unit from 128 on never folds to one below 128, so it
    never equals the folded form of a pattern character, and the identity
    stands in for its folding. *)
Definition canonicalize (ch : N) : N :=
  if ((97 <=? ch) && (ch <=? 122))%N then (ch - 32)%N else ch.

(** Match the literal [pat] at the start of [s], ignoring case; the
    result is the rest of the input. *)
Fixpoint matchLiteral (pat s : jsString) : option jsString :=
  match pat with
  | [] => Some s
  | p :: pat' =>
      match s with
      | [] => None
      | c :: s' =>
          if (canonicalize c =? canonicalize p)%N then matchLiteral pat' s' else None
      end
  end.

(** [\.(mp3|wav|flac)$] tried at the start of [s]: the dot, one of the
    alternatives, then the end of the input. *)
Definition matchExtensionAt (s : jsString) : bool :=
  match matchLiteral (js ".") s with
  | None => false
  | Some r =>
      existsb (fun alt =>
                 match matchLiteral alt r with
                 | Some [] => true
                 | _ => false
                 end)
              [js "mp3"; js "wav"; js "flac"]
  end.

(** [name.match(/\.(mp3|wav|flac)$/i)] is truthy: the pattern matches at
    some start position of the name. *)
Fixpoint matchesExtension (s : jsString) : bool :=
  matchExtensionAt s ||
  match s with
  | [] => false
  | _ :: s' => matchesExtension s'
  end.

(** [supportedTypes.includes(file.type)] *)
Definition includes (l : list jsString) (x : jsString) : bool :=
  existsb (fun y => bool_decide (y = x)) l.

Record Validation : Type := mkValidation {
  valid : bool;
  error : option string
}.

Definition validateFile (file : File) : Validation :=
  if negb (includes supportedTypes (type file)) && negb (matchesExtension (name file)) then
    {| valid := false; error := Some "Unsupported file type. Please use MP3, WAV, or FLAC."%string |}
  else if maxSize <? size file then
    {| valid := false; error := Some "File too large. Maximum size is 50MB."%string |}
  else
    {| valid := true; error := None |}.

Inductive StatusKind : Type := uploading | success | failed.

(** An element of the [uploadStatus] state; [failed] is the status the
    source spells 'error'. *)
Record UploadStatus : Type := mkUploadStatus {
  statusName : jsString;
  status : StatusKind;
  statusError : option string;
  progress : Z
}.

(** What [onDrop] does up to and including the request it sends:
    the value passed to [setUploadStatus(initialStatus)] and the files
    appended to the form data POSTed to /upload ([None] when no request
    is sent because no file is valid). *)
Record DropOutcome : Type := mkDropOutcome {
  initialStatus : list UploadStatus;
  posted : option (list File)
}.

(** [onDrop]; the result is [None] when the handler returns at once
    because an upload is in progress. *)
Definition onDrop (isUploading : bool) (acceptedFiles : list File) : option DropOutcome :=
  if isUploading then None
  else
    let fileValidations := map (fun file => (file, validateFile file)) acceptedFiles in
    let initialStatus :=
      map (fun fv : File * Validation =>
             {| statusName := name fv.1;
                status := if valid fv.2 then uploading else failed;
                statusError := error fv.2;
                progress := 0 |})
          fileValidations in
    let validFiles := map fst (List.filter (fun fv : File * Validation => valid fv.2) fileValidations) in
    Some {| initialStatus := initialStatus;
            posted := if (length validFiles =? 0)%nat then None else Some validFiles |}.

(** The lower-case form of a code unit, for the statement below. *)
Definition lowerUnit (ch : N) : N :=
  if ((65 <=? ch) && (ch <=? 90))%N then (ch + 32)%N else ch.

(** The extension test in the specification's words: the name ends in one
    of the three extensions, letters compared without regard to case. *)
Definition endsWithExtension (s : jsString) : Prop :=
  exists stem ext : jsString,
    s = stem ++ ext /\
    (map lowerUnit ext = js ".mp3" \/ map lowerUnit ext = js ".wav" \/ map lowerUnit ext = js ".flac").

End FileUploader.

(** * MidiPreview.js *)

Module MidiPreview.

Record Note : Type := mkNote {
  pitch : Z;
  start : Q;
  end_ : Q;
  velocity : Z
}.

Record Instrument : Type := mkInstrument {
  name : string;
  program : Z;
  noteCount : Z
}.

Record MidiData : Type := mkMidiData {
  notes : list Note;
  instruments : list Instrument
}.

(** The component's [useState] cells. *)
Record State : Type := mkState {
  midiData : option MidiData;
  isPlaying : bool;
  currentTime : Q;
  duration : Q;
  loading : bool
}.

Definition initialState : State :=
  {| midiData := None; isPlaying := false; currentTime := 0%Q; duration := 0%Q; loading := true |}.

(** The callback the effect for [fileId] hands to [setTimeout]:
    [setMidiData], [setDuration] and [setLoading]. *)
Definition loadEffect (fileId : jsString) (st : State) : State :=
  {| midiData :=
       Some {| notes :=
                 [ {| pitch := 60; start := 0%Q; end_ := (1 # 2)%Q; velocity := 80 |};
                   {| pitch := 64; start := (1 # 2)%Q; end_ := 1%Q; velocity := 75 |};
                   {| pitch := 67; start := 1%Q; end_ := (3 # 2)%Q; velocity := 85 |};
                   {| pitch := 72; start := (3 # 2)%Q; end_ := 2%Q; velocity := 90 |} ];
               instruments := [ {| name := "Piano"; program := 0; noteCount := 4 |} ] |};
     isPlaying := isPlaying st;
     currentTime := currentTime st;
     duration := 2%Q;
     loading := false |}.

(** The rectangles [PianoRoll] draws, one per note: pitch, start, end. *)
Definition PianoRoll (st : State) : option (list (Z * Q * Q)) :=
  match midiData st with
  | None => None
  | Some d => Some (map (fun note => (pitch note, start note, end_ note)) (notes d))
  end.

End MidiPreview.

(** * The string-fret assignment core

  The pipeline Tuning Model -> Chord Grouper -> Fret-Assignment Solver ->
  Tab Sequence Builder lives in the backend (midi_to_tab.py), which is
  not in the source tree.  Every definition of this module is therefore
  modelled from the specification; the tuning table and the tablature
  entry type are the ones of TabPreview.js, which consumes the output. *)

Module Core.

(** Modelled from the spec: the backend's pitch type is missing; section
    3, Pitch, a semitone number. *)
Definition Pitch : Type := Z.

(** Modelled from the spec: the backend's note record is missing;
    section 3, NoteEvent. *)
Record NoteEvent : Type := mkNoteEvent {
  pitch : Pitch;
  onset : Q;
  offset : Q;
  velocity : Z
}.

(** Modelled from the spec: the backend's tuning types are missing;
    section 3, Tuning and FretRange. *)
Record StringSpec : Type := mkStringSpec {
  index : nat;
  openPitch : Pitch
}.

(** Modelled from the spec: section 3, Tuning, the strings in order (the
    type is missing with the backend). *)
Definition Tuning : Type := list StringSpec.

(** Modelled from the spec: section 3, FretRange (the type is missing with
    the backend). *)
Record FretRange : Type := mkFretRange {
  fretMin : Z;
  fretMax : Z
}.

(** Modelled from the spec: the backend's configuration is missing;
    section 6, configuration surface. *)
Record Config : Type := mkConfig {
  tuningName : string;
  window : Q;
  maxStretch : Z;
  alpha : Q;
  beta : Q;
  gamma : Q;
  fretRange : FretRange
}.

(** Modelled from the spec: section 7, the configuration errors of the
    missing core. *)
Inductive ConfigError : Type :=
| UnknownTuning
| InvalidValue.

(** Modelled from the spec: what a call of the missing core returns, an
    output or a configuration error. *)
Inductive Result (A : Type) : Type :=
| Ok (a : A)
| Err (e : ConfigError).
Arguments Ok {A} a.
Arguments Err {A} e.

(** ** Tuning Model (section 4.1) *)

(** Modelled from the spec: the backend's Standard preset is missing;
    its open pitches are the table of TabPreview.js. *)
Definition standardTuning : Tuning :=
  mapi (fun p i => {| index := i; openPitch := p |}) TabPreview.stringTuning.

(** Modelled from the spec: the backend's tuning lookup is missing;
    only "Standard" is known. *)
Definition tuningFor (name : string) : option Tuning :=
  if String.eqb name "Standard" then Some standardTuning else None.

(** Modelled from the spec: pitchFor(string, fret) of the missing
    backend. *)
Definition pitchFor (t : Tuning) (str : nat) (fret : Z) : option Pitch :=
  (fun s => openPitch s + fret) <$> t !! str.

(** Modelled from the spec: fretsFor(pitch, string) of the missing
    backend; unreachable when the pitch is below the open pitch or more
    than the range's maximum above it. *)
Definition fretsFor (r : FretRange) (p : Pitch) (s : StringSpec) : option Z :=
  if (p <? openPitch s) || (fretMax r <? p - openPitch s) then None
  else Some (p - openPitch s).

(** Modelled from the spec: the backend's configuration check is
    missing.  A weight, window or stretch is invalid when negative, a
    fret range when it leaves the FretRange invariant 0..24. *)
Definition validValues (cfg : Config) : bool :=
  Qle_bool 0 (window cfg) && (0 <=? maxStretch cfg) &&
  Qle_bool 0 (alpha cfg) && Qle_bool 0 (beta cfg) && Qle_bool 0 (gamma cfg) &&
  (0 <=? fretMin (fretRange cfg)) &&
  (fretMin (fretRange cfg) <=? fretMax (fretRange cfg)) &&
  (fretMax (fretRange cfg) <=? 24).

(** ** Chord Grouper (section 4.2) *)

(** Modelled from the spec: the grouper's sort order is by onset, ties
    by pitch ascending. *)
Definition eventLeb (a b : NoteEvent) : bool :=
  match (onset a ?= onset b)%Q with
  | Lt => true
  | Eq => pitch a <=? pitch b
  | Gt => false
  end.

(** Modelled from the spec: the missing grouper's sort order as a
    proposition: earlier onset, or equal onset and pitch not higher. *)
Definition eventLe (a b : NoteEvent) : Prop :=
  (onset a < onset b)%Q \/ ((onset a == onset b)%Q /\ pitch a <= pitch b).

(** Modelled from the spec: two events the missing grouper's sort order
    cannot tell apart, same onset and same pitch. *)
Definition sameKey (a b : NoteEvent) : bool :=
  Qeq_bool (onset a) (onset b) && (pitch a =? pitch b).

(** Modelled from the spec: a stable sort of the events; an event is
    inserted in front of the first event that is not before it. *)
Fixpoint insertEvent (e : NoteEvent) (l : list NoteEvent) : list NoteEvent :=
  match l with
  | [] => [e]
  | x :: l' => if eventLeb e x then e :: l else x :: insertEvent e l'
  end.

(** Modelled from the spec: the missing grouper's defensive sort, by
    insertion from the end of the list. *)
Definition sortEvents (events : list NoteEvent) : list NoteEvent :=
  fold_right insertEvent [] events.

(** Modelled from the spec: the default tolerance window, 50 ms. *)
Definition defaultWindow : Q := (50 # 1000)%Q.

(** Modelled from the spec: an onset lies within [w] of the anchor. *)
Definition withinWindow (w anchor t : Q) : bool :=
  Qle_bool (Qabs (t - anchor)) w.

(** Modelled from the spec: the sweep over the sorted events; [current]
    is the group being filled and [anchor] its first onset. *)
Fixpoint sweep (w anchor : Q) (current : list NoteEvent) (events : list NoteEvent)
  : list (list NoteEvent) :=
  match events with
  | [] => [current]
  | e :: rest =>
      if withinWindow w anchor (onset e)
      then sweep w anchor (current ++ [e]) rest
      else current :: sweep w (onset e) [e] rest
  end.

(** Modelled from the spec: the groups of the missing grouper: sort, then
    sweep from the first event, which is the first anchor. *)
Definition groupEvents (w : Q) (events : list NoteEvent) : list (list NoteEvent) :=
  match sortEvents events with
  | [] => []
  | e :: rest => sweep w (onset e) [e] rest
  end.

(** Modelled from the spec: duplicate pitches of a group are collapsed,
    keeping the first event met for each pitch. *)
Fixpoint collapseDuplicates (seen : list Pitch) (events : list NoteEvent) : list NoteEvent :=
  match events with
  | [] => []
  | e :: rest =>
      if bool_decide (pitch e ∈ seen) then collapseDuplicates seen rest
      else e :: collapseDuplicates (pitch e :: seen) rest
  end.

(** Modelled from the spec: section 3, Chord.  The notes are kept as the
    events they come from, one per pitch, because the solver's drop
    policy reads their velocity. *)
Record Chord : Type := mkChord {
  chordTime : Q;
  chordNotes : list NoteEvent
}.

(** Modelled from the spec: the pitches of a chord of the missing grouper,
    in the order met. *)
Definition chordPitches (c : Chord) : list Pitch := map pitch (chordNotes c).

(** Modelled from the spec: the anchor of a group of the missing grouper,
    the onset of its first event. *)
Definition anchorOf (group : list NoteEvent) : Q :=
  match group with
  | [] => 0%Q
  | e :: _ => onset e
  end.

(** Modelled from the spec: the chord the missing grouper emits for a
    group: the anchor as time, duplicate pitches collapsed. *)
Definition makeChord (group : list NoteEvent) : Chord :=
  {| chordTime := anchorOf group; chordNotes := collapseDuplicates [] group |}.

(** Modelled from the spec: the missing Chord Grouper, from a flat event
    list to the chords in time order. *)
Definition chordGrouper (w : Q) (events : list NoteEvent) : list Chord :=
  map makeChord (groupEvents w events).

(** ** Fret-Assignment Solver (section 4.3) *)

(** Modelled from the spec: section 3, Candidate. *)
Record Candidate : Type := mkCandidate {
  candPitch : Pitch;
  candString : nat;
  candFret : Z
}.

(** Modelled from the spec: step 1, candidate generation over all
    strings through the inverse lookup, candidates outside the fret range
    discarded. *)
Definition candidateOn (r : FretRange) (p : Pitch) (s : StringSpec) : option Candidate :=
  match fretsFor r p s with
  | Some f =>
      if fretMin r <=? f
      then Some {| candPitch := p; candString := index s; candFret := f |}
      else None
  | None => None
  end.

(** Modelled from the spec: step 1 of the missing solver, the candidates
    of a pitch over the strings of the tuning, in string order. *)
Definition candidatesFor (t : Tuning) (r : FretRange) (p : Pitch) : list Candidate :=
  omap (candidateOn r p) t.

(** Modelled from the spec: step 3, the exhaustive search space: every
    way to give each pitch, in chord order, a candidate on a string that
    no earlier pitch uses ([used] holds the strings taken so far). *)
Fixpoint assignments (t : Tuning) (r : FretRange) (pitches : list Pitch) (used : list nat)
  : list (list Candidate) :=
  match pitches with
  | [] => [[]]
  | p :: ps =>
      flat_map (fun c => map (cons c) (assignments t r ps (candString c :: used)))
               (List.filter (fun c => negb (bool_decide (candString c ∈ used)))
                            (candidatesFor t r p))
  end.

(** Modelled from the spec: the penalty for a span beyond the maximum
    stretch is "heavy"; the spec gives no value, this one is the model's. *)
Definition stretchPenalty : Q := inject_Z 1000.

(** Modelled from the spec: the non-open frets of an assignment of the
    missing solver. *)
Definition frettedFrets (a : list Candidate) : list Z :=
  List.filter (fun f => negb (f =? 0)) (map candFret a).

(** Modelled from the spec: fretSpan, the difference between the maximum
    and the minimum non-open fret. *)
Definition fretSpan (a : list Candidate) : Z :=
  match frettedFrets a with
  | [] => 0
  | f :: fs => fold_right Z.max f fs - fold_right Z.min f fs
  end.

(** Modelled from the spec: section 3, HandPosition. *)
Record HandPosition : Type := mkHandPosition {
  center : Q
}.

(** Modelled from the spec: no starting hand position is given; the
    hand starts at the nut. *)
Definition initialHand : HandPosition := {| center := 0%Q |}.

(** Modelled from the spec: centerFret, the mean non-open fret; with no
    fretted note the hand stays where it was. *)
Definition centerFret (previous : HandPosition) (a : list Candidate) : Q :=
  match frettedFrets a with
  | [] => center previous
  | fs => (inject_Z (fold_right Z.add 0%Z fs) / inject_Z (Z.of_nat (length fs)))%Q
  end.

(** Modelled from the spec: stringPreferencePenalty, a fixed cost for
    each note on one of the two outermost strings. *)
Definition stringPreferencePenalty (a : list Candidate) : Z :=
  Z.of_nat (length (List.filter (fun c => (candString c =? 0)%nat || (candString c =? 5)%nat) a)).

(** Modelled from the spec: the playability cost of section 4.3. *)
Definition cost (cfg : Config) (previous : HandPosition) (a : list Candidate) : Q :=
  (alpha cfg * inject_Z (fretSpan a)
   + (if maxStretch cfg <? fretSpan a then stretchPenalty else 0)
   + beta cfg * Qabs (centerFret previous a - center previous)
   + gamma cfg * inject_Z (stringPreferencePenalty a))%Q.

(** Modelled from the spec: for the missing solver's tie-break, a string
    index put at its place in an ascending list. *)
Fixpoint insertString (n : nat) (l : list nat) : list nat :=
  match l with
  | [] => [n]
  | x :: l' => if (n <=? x)%nat then n :: l else x :: insertString n l'
  end.

(** Modelled from the spec: for the missing solver's tie-break, the
    string indices an assignment uses, in ascending order. *)
Definition stringsUsed (a : list Candidate) : list nat :=
  fold_right insertString [] (map candString a).

(** Modelled from the spec: the missing solver's tie-break compares the
    used string indices from the lowest up. *)
Fixpoint lexCompare (a b : list nat) : comparison :=
  match a, b with
  | [], [] => Eq
  | [], _ :: _ => Lt
  | _ :: _, [] => Gt
  | x :: a', y :: b' =>
      match (x ?= y)%nat with
      | Eq => lexCompare a' b'
      | c => c
      end
  end.

(** Modelled from the spec: the missing solver's tie-break between two
    assignments of equal cost.  The spec's rule compares the string
    indices used, in ascending order.  Two assignments that use the same
    strings are left tied by it; the spec names no rule for them, and the
    model then gives the earlier note of the chord the lower string. *)
Definition tieCompare (a b : list Candidate) : comparison :=
  match lexCompare (stringsUsed a) (stringsUsed b) with
  | Eq => lexCompare (map candString a) (map candString b)
  | c => c
  end.

(** Modelled from the spec: the selection order; lower cost first, a
    tie in cost goes to the tie-break. *)
Definition preferred (cfg : Config) (previous : HandPosition) (a b : list Candidate) : bool :=
  match (cost cfg previous a ?= cost cfg previous b)%Q with
  | Lt => true
  | Gt => false
  | Eq =>
      match tieCompare a b with
      | Lt => true
      | _ => false
      end
  end.


(** Modelled from the spec: the missing solver's choice, a scan of the
    search space; a later assignment replaces the best one only when it is
    strictly preferred. *)
Fixpoint selectBest (cfg : Config) (previous : HandPosition)
         (best : list Candidate) (rest : list (list Candidate)) : list Candidate :=
  match rest with
  | [] => best
  | a :: rest' =>
      selectBest cfg previous (if preferred cfg previous a best then a else best) rest'
  end.

(** Modelled from the spec: the drop priority, lowest velocity first,
    then lowest pitch. *)
Definition priorityLeb (a b : NoteEvent) : bool :=
  (velocity a <? velocity b) || ((velocity a =? velocity b) && (pitch a <=? pitch b)).


(** Modelled from the spec: for the missing solver's drop policy, a note
    put at its place in a list ordered from the lowest priority up. *)
Fixpoint insertByPriority (e : NoteEvent) (l : list NoteEvent) : list NoteEvent :=
  match l with
  | [] => [e]
  | x :: l' => if priorityLeb e x then e :: l else x :: insertByPriority e l'
  end.

(** Modelled from the spec: notes from the lowest priority up, the order
    in which the missing solver drops notes of one kind. *)
Definition sortByPriority (notes : list NoteEvent) : list NoteEvent :=
  fold_right insertByPriority [] notes.

(** Modelled from the spec: step 2 of the missing solver, a note whose
    pitch has at least one candidate. *)
Definition playable (t : Tuning) (r : FretRange) (n : NoteEvent) : bool :=
  match candidatesFor t r (pitch n) with
  | [] => false
  | _ :: _ => true
  end.

(** Modelled from the spec: step 2, feasibility.  Drop-and-continue is
    the only recovery path, so a chord counts as feasible when the search
    of step 3 has something to choose from; a pitch without a candidate
    makes it infeasible. *)
Definition feasible (t : Tuning) (r : FretRange) (notes : list NoteEvent) : bool :=
  match assignments t r (map pitch notes) [] with
  | [] => false
  | _ :: _ => true
  end.

(** Modelled from the spec: one drop of the missing solver; a chord holds
    each pitch once, so the note goes by its pitch. *)
Definition removeNote (n : NoteEvent) (notes : list NoteEvent) : list NoteEvent :=
  List.filter (fun x => negb (pitch x =? pitch n)) notes.

(** Modelled from the spec: drop one note at a time until the remainder
    is feasible, counting the drops; [order] lists the notes in the order
    in which they are to go. *)
Fixpoint dropLoop (t : Tuning) (r : FretRange) (order notes : list NoteEvent)
  : list NoteEvent * nat :=
  if feasible t r notes then (notes, 0%nat)
  else
    match order with
    | [] => (notes, 0%nat)
    | n :: order' =>
        let '(kept, k) := dropLoop t r order' (removeNote n notes) in
        (kept, S k)
    end.

(** Modelled from the spec: the order in which the missing solver drops
    the notes of a chord.  The notes whose pitch has no candidate go first:
    a single bad note is dropped and the rest of its chord is still
    processed (sections 4.3 and 7, scenario 4), the priority being the
    tie-break among notes that are unplayable together (section 9).  The
    other notes follow, for a chord that even then admits no complete
    assignment.  Each part is ordered from the lowest priority up. *)
Definition dropOrder (t : Tuning) (r : FretRange) (notes : list NoteEvent) : list NoteEvent :=
  sortByPriority (List.filter (fun n => negb (playable t r n)) notes) ++
  sortByPriority (List.filter (playable t r) notes).

(** Modelled from the spec: step 2 of the missing solver for the notes of
    one chord: the notes retained and the number dropped. *)
Definition dropUnplayable (t : Tuning) (r : FretRange) (notes : list NoteEvent)
  : list NoteEvent * nat :=
  dropLoop t r (dropOrder t r notes) notes.




(** Modelled from the spec: the notes of a chord that are left when the
    notes [gone] are dropped, used to state what the missing solver's drop
    loop computes. *)
Definition without (gone notes : list NoteEvent) : list NoteEvent :=
  List.filter (fun x => negb (existsb (fun n => pitch x =? pitch n) gone)) notes.

(** Modelled from the spec: the missing solver's result for one chord:
    the retained notes, their assignment, the drop count and the hand
    position reached. *)
Record Solved : Type := mkSolved {
  solvedTime : Q;
  retained : list NoteEvent;
  assignment : list Candidate;
  dropped : nat;
  hand : HandPosition
}.

(** Modelled from the spec: steps 1 to 4 for one chord. *)
Definition solveChord (cfg : Config) (t : Tuning) (previous : HandPosition) (c : Chord) : Solved :=
  let '(kept, k) := dropUnplayable t (fretRange cfg) (chordNotes c) in
  match assignments t (fretRange cfg) (map pitch kept) [] with
  | [] =>
      {| solvedTime := chordTime c; retained := kept; assignment := [];
         dropped := k; hand := previous |}
  | a :: rest =>
      let best := selectBest cfg previous a rest in
      {| solvedTime := chordTime c; retained := kept; assignment := best;
         dropped := k; hand := {| center := centerFret previous best |} |}
  end.

(** Modelled from the spec: the chords are solved in time order, the
    hand position carried from one to the next. *)
Fixpoint solvePiece (cfg : Config) (t : Tuning) (previous : HandPosition) (chords : list Chord)
  : list Solved :=
  match chords with
  | [] => []
  | c :: chords' =>
      let s := solveChord cfg t previous c in
      s :: solvePiece cfg t (hand s) chords'
  end.

(** ** Tab Sequence Builder (section 4.4) *)

(** Modelled from the spec: the slot of a string in an entry of the
    missing builder, the fret of the candidate on that string or -1. *)
Definition fretOnString (a : list Candidate) (i : nat) : Z :=
  match List.find (fun c => (candString c =? i)%nat) a with
  | Some c => candFret c
  | None => -1
  end.

(** Modelled from the spec: one entry per chord, six slots, -1 for an
    unused string. *)
Definition buildEntry (s : Solved) : TabPreview.TabEntry :=
  {| TabPreview.time := solvedTime s;
     TabPreview.strings := map (fretOnString (assignment s)) (seq 0 6) |}.

(** Modelled from the spec: the output of the missing core: the
    tablature, the drop count of each chord and the aggregate statistics. *)
Record Output : Type := mkOutput {
  tab : list TabPreview.TabEntry;
  droppedCounts : list nat;
  statistics : option TabPreview.TabStats
}.

(** Modelled from the spec: the missing Tab Sequence Builder; the
    statistics are those [getTabStats] of TabPreview.js computes. *)
Definition tabSequenceBuilder (solved : list Solved) : Output :=
  let tab := map buildEntry solved in
  {| tab := tab;
     droppedCounts := map dropped solved;
     statistics := TabPreview.getTabStats (Some tab) |}.

(** Modelled from the spec: the chords of a piece, grouped and solved by
    the missing core from the starting hand position. *)
Definition solved (cfg : Config) (t : Tuning) (events : list NoteEvent) : list Solved :=
  solvePiece cfg t initialHand (chordGrouper (window cfg) events).

(** Modelled from the spec: the whole missing core, a function from a
    note list to a tablature; a configuration error is the only failure. *)
Definition process (cfg : Config) (events : list NoteEvent) : Result Output :=
  match tuningFor (tuningName cfg) with
  | None => Err UnknownTuning
  | Some t =>
      if validValues cfg
      then Ok (tabSequenceBuilder (solved cfg t events))
      else Err InvalidValue
  end.

(** Modelled from the spec: a configuration with the declared defaults;
    the spec gives no values for the weights, these favour small movement
    over small span. *)
Definition exampleConfig : Config :=
  {| tuningName := "Standard";
     window := defaultWindow;
     maxStretch := 4;
     alpha := 1%Q;
     beta := 2%Q;
     gamma := (1 # 2)%Q;
     fretRange := {| fretMin := 0; fretMax := 24 |} |}.

(** Modelled from the spec: a note event of the scenarios of section 8,
    half a second long. *)
Definition note (p : Pitch) (t : Q) (v : Z) : NoteEvent :=
  {| pitch := p; onset := t; offset := (t + (1 # 2))%Q; velocity := v |}.

(** Modelled from the spec: scenario 1, middle C alone. *)
Definition scenarioSingle : list NoteEvent := [note 60 0 80].

(** Modelled from the spec: scenario 2, a C major triad at one onset. *)
Definition scenarioTriad : list NoteEvent := [note 60 0 80; note 64 0 80; note 67 0 80].

(** Modelled from the spec: scenario 4, a pitch far below any open
    string next to a playable one. *)
Definition scenarioUnplayable : list NoteEvent := [note 20 0 10; note 60 0 80].

(** Modelled from the spec: scenario 4 again, the unplayable pitch now
    louder than the playable one. *)
Definition scenarioUnplayableLoud : list NoteEvent := [note 20 0 90; note 60 0 80].

(** Modelled from the spec: scenario 4 with the unplayable pitch at full
    velocity next to five open strings. *)
Definition scenarioUnplayableFull : list NoteEvent :=
  [note 20 0 127; note 64 0 80; note 59 0 80; note 55 0 80; note 50 0 80; note 45 0 80].

(** Modelled from the spec: two pitches that only the lowest string
    reaches. *)
Definition scenarioOneString : list NoteEvent := [note 40 0 80; note 41 0 80].





End Core.

(** * JavaScript values and objects, for App.js, ProcessedFilesList.js and
      the rest of FileUploader.js *)

From stdpp Require Import strings.
Local Open Scope Z_scope.

(** A primitive value as the components meet it in server data and in
    their own object literals. *)
Inductive Prim : Type :=
| PUndefined
| PNull
| PBool (b : bool)
| PString (s : jsString).

Global Instance Prim_eq_dec : EqDecision Prim.
Proof. solve_decision. Defined.

(** A value: a primitive, an array of tablature entries ([tab_data]), or
    some other object or function (what a property inherited from
    [Object.prototype] holds). *)
Inductive JsValue : Type :=
| VPrim (p : Prim)
| VTab (tabData : list TabPreview.TabEntry)
| VObject.

(** A string literal. *)
Definition lit (s : string) : JsValue := VPrim (PString (js s)).

(** [v === 'literal'] *)
Definition isLiteral (v : JsValue) (s : string) : bool :=
  match v with
  | VPrim (PString u) => bool_decide (u = js s)
  | _ => false
  end.

(** [v === p] for a primitive [p]: an object is never strictly equal to a
    primitive. *)
Definition strictEq (v : JsValue) (p : Prim) : bool :=
  match v with
  | VPrim q => bool_decide (q = p)
  | _ => false
  end.

(** Truthiness, as [!v], [v && ...] and [disabled={v}] read it. *)
Definition truthy (v : JsValue) : bool :=
  match v with
  | VPrim PUndefined | VPrim PNull => false
  | VPrim (PBool b) => b
  | VPrim (PString s) => match s with [] => false | _ :: _ => true end
  | VTab _ | VObject => true
  end.

(** An object with the fixed property names of the source; reading a
    name it does not have gives [undefined]. *)
Abbreviation Obj := (gmap string JsValue).

Definition get (o : Obj) (k : string) : JsValue :=
  default (VPrim PUndefined) (o !! k).

(** An object used as a dictionary under computed keys ([processing],
    [activeTab]), keyed by file id. *)
Abbreviation Dict := (gmap jsString JsValue).

(** The names every object inherits from [Object.prototype]. *)
Definition objectPrototypeKeys : list jsString :=
  map js ["constructor"; "__defineGetter__"; "__defineSetter__"; "hasOwnProperty";
          "__lookupGetter__"; "__lookupSetter__"; "isPrototypeOf";
          "propertyIsEnumerable"; "toString"; "valueOf"; "__proto__";
          "toLocaleString"]%string.

(** [dict[key]]: the own property when there is one, else what the
    prototype provides under that name, else [undefined]. *)
Definition readKey (d : Dict) (key : jsString) : JsValue :=
  match d !! key with
  | Some v => v
  | None => if bool_decide (key ∈ objectPrototypeKeys) then VObject else VPrim PUndefined
  end.

(** How an awaited request ends: resolved with the reply's data, or
    rejected (the [catch] block runs). *)
Inductive Outcome (A : Type) : Type :=
| Reply (data : A)
| Failure.
Arguments Reply {A} data.
Arguments Failure {A}.

(** * App.js *)

Module App.

(** The component's [useState] cells. *)
Record State : Type := mkState {
  processedFiles : list Obj;
  darkMode : bool
}.

Definition initialState : State := {| processedFiles := []; darkMode := false |}.

(** The object [handleFilesUploaded] builds from one upload result. *)
Definition newFile (result : Obj) : Obj :=
  <["id" := get result "file_id"]>
  (<["filename" := get result "filename"]>
  (<["status" := lit "uploaded"]>
  (<["midiProcessed" := VPrim (PBool false)]>
  (<["tabGenerated" := VPrim (PBool false)]> ∅)))).

(** [handleFilesUploaded]; [results] is [uploadResults.results]. *)
Definition handleFilesUploaded (results : list Obj) (st : State) : State :=
  let newFiles :=
    map newFile (List.filter (fun result => isLiteral (get result "status") "uploaded") results) in
  {| processedFiles := processedFiles st ++ newFiles; darkMode := darkMode st |}.

(** [updateFileStatus]; [{ ...file, ...updates }] keeps the properties of
    [file] that [updates] does not have. *)
Definition updateFileStatus (fileId : Prim) (updates : Obj) (st : State) : State :=
  {| processedFiles :=
       map (fun file => if strictEq (get file "id") fileId then updates ∪ file else file)
           (processedFiles st);
     darkMode := darkMode st |}.

Definition toggleDarkMode (st : State) : State :=
  {| processedFiles := processedFiles st; darkMode := negb (darkMode st) |}.

End App.

(** * ProcessedFilesList.js *)

Module ProcessedFilesList.

(** The component's [useState] cells, two objects keyed by file id. *)
Record State : Type := mkState {
  processing : Dict;
  activeTab : Dict
}.

Definition initialState : State := {| processing := ∅; activeTab := ∅ |}.

(** [setProcessing(prev => ({ ...prev, [fileId]: value }))]; the file id
    is a string, so the computed key is the id itself. *)
Definition setProcessing (fileId : jsString) (value : JsValue) (st : State) : State :=
  {| processing := <[fileId := value]> (processing st); activeTab := activeTab st |}.

(** [setFileActiveTab] *)
Definition setFileActiveTab (fileId : jsString) (tab : string) (st : State) : State :=
  {| processing := processing st; activeTab := <[fileId := lit tab]> (activeTab st) |}.

(** [response.data] of a reply: an object, [null] or [undefined] (reading
    a property of it throws inside the [try] block), or anything else (a
    property read gives [undefined]). *)
Inductive ResponseData : Type :=
| DataObject (data : Obj)
| DataNullish
| DataOther.

(** What a handler does between its two [setProcessing] calls once the
    request has settled: the arguments of [onUpdateFileStatus], if it is
    called, and the text of the [alert], if one is raised. *)
Record Settled : Type := mkSettled {
  update : option (Prim * Obj);
  alert : option string
}.

(** The [try]/[catch] of [handleProcessToMidi]. *)
Definition processToMidiSettled (fileId : jsString) (outcome : Outcome ResponseData) : Settled :=
  match outcome with
  | Reply (DataObject data) =>
      if isLiteral (get data "status") "processed" then
        {| update := Some (PString fileId,
                           <["midiProcessed" := VPrim (PBool true)]>
                           (<["midiFile" := get data "midi_file"]> ∅));
           alert := None |}
      else {| update := None; alert := None |}
  | Reply DataOther => {| update := None; alert := None |}
  | Reply DataNullish | Failure =>
      {| update := None;
         alert := Some "Failed to process audio to MIDI. Please try again."%string |}
  end.

(** The [try]/[catch] of [handleGenerateTab]. *)
Definition generateTabSettled (fileId : jsString) (outcome : Outcome ResponseData) : Settled :=
  match outcome with
  | Reply (DataObject data) =>
      if isLiteral (get data "status") "tab_generated" then
        {| update := Some (PString fileId,
                           <["tabGenerated" := VPrim (PBool true)]>
                           (<["tabData" := get data "tab_data"]> ∅));
           alert := None |}
      else {| update := None; alert := None |}
  | Reply DataOther => {| update := None; alert := None |}
  | Reply DataNullish | Failure =>
      {| update := None;
         alert := Some "Failed to generate guitar tab. Please try again."%string |}
  end.

(** The page: the parent's state, which [onUpdateFileStatus] changes, and
    the list's own state. *)
Record Page : Type := mkPage {
  appState : App.State;
  listState : State
}.

(** A handler up to its [await]. *)
Definition handleProcessToMidi_begin (fileId : jsString) (pg : Page) : Page :=
  {| appState := appState pg; listState := setProcessing fileId (lit "midi") (listState pg) |}.

Definition handleGenerateTab_begin (fileId : jsString) (pg : Page) : Page :=
  {| appState := appState pg; listState := setProcessing fileId (lit "tab") (listState pg) |}.

(** A handler from its [await] on: the settled part, then [finally]. *)
Definition finish (fileId : jsString) (s : Settled) (pg : Page) : Page * option string :=
  ({| appState := match update s with
             | Some (id, updates) => App.updateFileStatus id updates (appState pg)
             | None => appState pg
             end;
      listState := setProcessing fileId (VPrim PNull) (listState pg) |},
   alert s).

Definition handleProcessToMidi_end (fileId : jsString) (outcome : Outcome ResponseData)
           (pg : Page) : Page * option string :=
  finish fileId (processToMidiSettled fileId outcome) pg.

Definition handleGenerateTab_end (fileId : jsString) (outcome : Outcome ResponseData)
           (pg : Page) : Page * option string :=
  finish fileId (generateTabSettled fileId outcome) pg.

(** The action buttons rendered for a file whose id is [fileId]. *)
Record Actions : Type := mkActions {
  processButton : bool;
  generateButton : bool;
  midiDownload : bool;
  pdfDownload : bool;
  disabled : bool
}.

Definition fileActions (st : State) (fileId : jsString) (file : Obj) : Actions :=
  {| processButton := negb (truthy (get file "midiProcessed"));
     generateButton :=
       truthy (get file "midiProcessed") && negb (truthy (get file "tabGenerated"));
     midiDownload := truthy (get file "midiProcessed");
     pdfDownload := truthy (get file "tabGenerated");
     disabled := truthy (readKey (processing st) fileId) |}.

(** What the tab content area renders for a file. *)
Inductive Preview : Type :=
| MidiPreviewOf (fileId : JsValue)
| TabPreviewOf (tabData : JsValue)
| ClickOnATab.

Definition tabContent (st : State) (fileId : jsString) (file : Obj) : list Preview :=
  (if isLiteral (readKey (activeTab st) fileId) "midi" && truthy (get file "midiProcessed")
   then [MidiPreviewOf (get file "id")] else []) ++
  (if isLiteral (readKey (activeTab st) fileId) "tab" && truthy (get file "tabGenerated")
   then [TabPreviewOf (get file "tabData")] else []) ++
  (if negb (truthy (readKey (activeTab st) fileId)) && truthy (get file "midiProcessed")
   then [ClickOnATab] else []).

(** The preview block of a file: absent unless the file is processed or
    has a tab. *)
Definition previews (st : State) (fileId : jsString) (file : Obj) : list Preview :=
  if truthy (get file "midiProcessed") || truthy (get file "tabGenerated")
  then tabContent st fileId file
  else [].

(** Two pages that look the same: the same files and theme, and for
    every file the same buttons and the same preview. *)
Definition sameView (pg pg' : Page) : Prop :=
  appState pg' = appState pg /\
  forall (fileId : jsString) (file : Obj),
    fileActions (listState pg') fileId file = fileActions (listState pg) fileId file /\
    previews (listState pg') fileId file = previews (listState pg) fileId file.

(** The [tabData] prop as [TabPreview] tests it: an array, or nothing to
    show. *)
Definition asTabData (v : JsValue) : option (list TabPreview.TabEntry) :=
  match v with
  | VTab tabData => Some tabData
  | _ => None
  end.

End ProcessedFilesList.

(** * FileUploader.js, after the request is sent *)

Module FileUploaderFlow.

(** The result of [Math.round((loaded * 100) / total)]: an integer, an
    infinity or [NaN]. *)
Inductive Percent : Type :=
| PercentNaN
| PercentOf (n : jsnum).

(** An element of [uploadStatus] in any phase of the upload; the error is
    [null], a message of the component or what the server sent. *)
Record Entry : Type := mkEntry {
  name : jsString;
  status : FileUploader.StatusKind;
  error : JsValue;
  progress : Percent
}.

(** An element of [initialStatus] as an entry. *)
Definition ofInitial (s : FileUploader.UploadStatus) : Entry :=
  {| name := FileUploader.statusName s;
     status := FileUploader.status s;
     error := match FileUploader.statusError s with
              | Some message => lit message
              | None => VPrim PNull
              end;
     progress := PercentOf (Num (FileUploader.progress s)) |}.

(** The element of [initialStatus] that [onDrop] builds for a file:
    its name, 'uploading' or 'error', the validation message or [null], and
    progress 0. *)
Definition initialEntry (file : FileUploader.File) : Entry :=
  ofInitial
    {| FileUploader.statusName := FileUploader.name file;
       FileUploader.status :=
         if FileUploader.valid (FileUploader.validateFile file)
         then FileUploader.uploading else FileUploader.failed;
       FileUploader.statusError := FileUploader.error (FileUploader.validateFile file);
       FileUploader.progress := 0 |}.

(** The component's [useState] cells, and the number of pending timers:
    each successful drop sets a 3 s timer that empties [uploadStatus], and
    no timer is ever cleared. *)
Record State : Type := mkState {
  uploadStatus : list Entry;
  isUploading : bool;
  timers : nat
}.

Definition initialState : State := {| uploadStatus := []; isUploading := false; timers := 0 |}.

(** [onDrop] up to its [await]: [None] when the handler returns at once;
    otherwise the state after [setIsUploading(true)],
    [setUploadStatus(initialStatus)] and, with no valid file,
    [setIsUploading(false)]; the files posted, if any; and the
    [initialStatus] the rest of the handler keeps. *)
Definition onDrop_begin (st : State) (acceptedFiles : list FileUploader.File)
  : option (State * option (list FileUploader.File) * list Entry) :=
  match FileUploader.onDrop (isUploading st) acceptedFiles with
  | None => None
  | Some out =>
      let initialStatus := map ofInitial (FileUploader.initialStatus out) in
      Some ({| uploadStatus := initialStatus;
               isUploading := match FileUploader.posted out with
                              | Some _ => true
                              | None => false
                              end;
               timers := timers st |},
            FileUploader.posted out,
            initialStatus)
  end.

(** [status.status === 'uploading'] *)
Definition stillUploading (e : Entry) : bool :=
  match status e with
  | FileUploader.uploading => true
  | _ => false
  end.

(** [onUploadProgress]; [p] is the rounded percentage. *)
Definition onUploadProgress (p : Percent) (st : State) : State :=
  {| uploadStatus :=
       map (fun e =>
              if stillUploading e
              then {| name := name e; status := status e; error := error e; progress := p |}
              else e)
           (uploadStatus st);
     isUploading := isUploading st;
     timers := timers st |}.

(** The callback of a pending timer: [setUploadStatus([])].  With no
    timer pending there is nothing to fire. *)
Definition timerFires (st : State) : State :=
  match timers st with
  | O => st
  | S n => {| uploadStatus := []; isUploading := isUploading st; timers := n |}
  end.

(** What can happen while the request is in flight: a progress event of
    the request, or the timer of an earlier successful drop. *)
Inductive FlightEvent : Type :=
| ProgressEvent (p : Percent)
| TimerFires.

Definition flightEvent (st : State) (e : FlightEvent) : State :=
  match e with
  | ProgressEvent p => onUploadProgress p st
  | TimerFires => timerFires st
  end.

(** [response.data.results.find(r => r.filename === status.name)] *)
Definition findResult (results : list Obj) (e : Entry) : option Obj :=
  List.find (fun r => strictEq (get r "filename") (PString (name e))) results.

(** The [updatedStatus] computed from [initialStatus] and the results of
    the reply. *)
Definition updatedStatus (initialStatus : list Entry) (results : list Obj) : list Entry :=
  map (fun e =>
         match findResult results e with
         | Some result =>
             {| name := name e;
                status := if isLiteral (get result "status") "uploaded"
                          then FileUploader.success else FileUploader.failed;
                error := if isLiteral (get result "status") "error"
                         then get result "message" else VPrim PNull;
                progress := PercentOf (Num 100) |}
         | None => e
         end)
      initialStatus.

(** The statuses the [catch] block sets. *)
Definition uploadFailed (e : Entry) : Entry :=
  {| name := name e; status := FileUploader.failed;
     error := lit "Upload failed. Please try again."; progress := progress e |}.

(** [onDrop] from its [await] on.  [Reply results] is a reply whose data
    holds the array [results] of result objects; [Failure] is a rejected
    request or a reply without such an array (reading it throws inside the
    [try] block).  After a reply the handler sets its 3 s timer.  The
    second component is the argument of [onFilesUploaded], when it is
    called. *)
Definition onDrop_end (initialStatus : list Entry) (outcome : Outcome (list Obj)) (st : State)
  : State * option (list Obj) :=
  match outcome with
  | Reply results =>
      ({| uploadStatus := updatedStatus initialStatus results; isUploading := false;
          timers := S (timers st) |},
       Some results)
  | Failure =>
      ({| uploadStatus := map uploadFailed (uploadStatus st); isUploading := false;
          timers := timers st |},
       None)
  end.

(** A whole drop: begin, what happens while the request is in flight, the
    end.  [None] when the handler returns at once. *)
Definition onDrop_run (st : State) (acceptedFiles : list FileUploader.File)
           (events : list FlightEvent) (outcome : Outcome (list Obj))
  : option (State * option (list Obj)) :=
  match onDrop_begin st acceptedFiles with
  | None => None
  | Some (st1, None, _) => Some (st1, None)
  | Some (st1, Some _, initialStatus) =>
      Some (onDrop_end initialStatus outcome (fold_left flightEvent events st1))
  end.

(** The percentages reported by the progress events among [events]. *)
Definition progressOf (events : list FlightEvent) : list Percent :=
  omap (fun e => match e with ProgressEvent p => Some p | TimerFires => None end) events.

(** The number of timer events among [events]. *)
Definition timerEvents (events : list FlightEvent) : nat :=
  length (List.filter (fun e => match e with TimerFires => true | _ => false end) events).

(** Whether a timer fires during [events], with [pending] timers set
    before. *)
Definition timerFired (pending : nat) (events : list FlightEvent) : bool :=
  match pending, timerEvents events with
  | S _, S _ => true
  | _, _ => false
  end.

(** A batch of two files of the same name, the first too large, and a
    reply with one result for that name, for the examples. *)
Definition sampleBatch : list FileUploader.File :=
  [{| FileUploader.name := js "a.mp3"; FileUploader.type := js "audio/mpeg";
      FileUploader.size := 60 * 1024 * 1024 |};
   {| FileUploader.name := js "a.mp3"; FileUploader.type := js "audio/mpeg";
      FileUploader.size := 1024 |}].

Definition sampleReply : list Obj :=
  [<["file_id" := lit "f1"]> (<["filename" := lit "a.mp3"]> (<["status" := lit "uploaded"]> ∅))].

(** The state in which a first drop of that batch leaves the uploader
    after that reply: both entries a success, the timer set. *)
Definition sampleAfterSuccess : State :=
  {| uploadStatus :=
       [{| name := js "a.mp3"; status := FileUploader.success;
           error := VPrim PNull; progress := PercentOf (Num 100) |};
        {| name := js "a.mp3"; status := FileUploader.success;
           error := VPrim PNull; progress := PercentOf (Num 100) |}];
     isUploading := false;
     timers := 1 |}.

End FileUploaderFlow.

(** * MidiPreview.js, the piano roll's geometry *)

Module MidiPreviewRoll.

Definition noteHeight : Z := 4.

(** [rollHeight], 128 MIDI notes. *)
Definition rollHeight : Z := 128 * noteHeight.

(** [y] of a note's rectangle. *)
Definition rectY (note : MidiPreview.Note) : Z :=
  (127 - MidiPreview.pitch note) * noteHeight.

(** [height] of a note's rectangle. *)
Definition rectHeight : Z := noteHeight - 1.

(** The hue of [fill]: [(note.pitch * 3) % 360]; the remainder takes the
    sign of the dividend. *)
Definition hue (note : MidiPreview.Note) : Z :=
  Z.rem (MidiPreview.pitch note * 3) 360.

End MidiPreviewRoll.

(** * The page as a state machine: App.js with ProcessedFilesList.js

    The handlers of [ProcessedFilesList] are asynchronous: between the
    click and the moment the request settles other events happen.  The
    machine keeps, beside the state of the two components, the requests in
    flight. *)

Module PageMachine.

Import ProcessedFilesList.

Inductive Kind : Type := MidiRequest | TabRequest.

Record Machine : Type := mkMachine {
  page : Page;
  pending : list (Kind * jsString)
}.

Definition files (m : Machine) : list Obj := App.processedFiles (appState (page m)).

Definition initial : Machine :=
  {| page := {| appState := App.initialState; listState := initialState |};
     pending := [] |}.

(** What can happen to the page. *)
Inductive Event : Type :=
| FilesUploaded (results : list Obj)
| ClickProcess (i : nat)
| ClickGenerate (i : nat)
| Settles (k : nat) (outcome : Outcome ResponseData)
| SelectMidiTab (i : nat)
| SelectGuitarTab (i : nat)
| ToggleDarkMode.

(** The id of a file, when it is a string. *)
Definition stringId (file : Obj) : option jsString :=
  match get file "id" with
  | VPrim (PString fileId) => Some fileId
  | _ => None
  end.

(** A file id the page can work with: a string, and not one of the names
    every object inherits, under which [processing[file.id]] and
    [activeTab[file.id]] would read the inherited property. *)
Definition plainId (v : JsValue) : bool :=
  match v with
  | VPrim (PString fileId) => negb (bool_decide (fileId ∈ objectPrototypeKeys))
  | _ => false
  end.

(** The server's contract on an upload reply: the [file_id] of an
    uploaded result is such an id. *)
Definition plainIds (results : list Obj) : bool :=
  forallb (fun result =>
             negb (isLiteral (get result "status") "uploaded") ||
             plainId (get result "file_id"))
          results.

(** One event: [None] when it cannot happen in this state: the upload
    reply breaks the contract on ids, the button is not rendered or is
    disabled, there is no such file or no such request. *)
Definition step (e : Event) (m : Machine) : option Machine :=
  match e with
  | FilesUploaded results =>
      if plainIds results then
        Some {| page := {| appState := App.handleFilesUploaded results (appState (page m));
                           listState := listState (page m) |};
                pending := pending m |}
      else None
  | ClickProcess i =>
      match files m !! i with
      | Some file =>
          match stringId file with
          | Some fileId =>
              let actions := fileActions (listState (page m)) fileId file in
              if processButton actions && negb (disabled actions) then
                Some {| page := handleProcessToMidi_begin fileId (page m);
                        pending := pending m ++ [(MidiRequest, fileId)] |}
              else None
          | None => None
          end
      | None => None
      end
  | ClickGenerate i =>
      match files m !! i with
      | Some file =>
          match stringId file with
          | Some fileId =>
              let actions := fileActions (listState (page m)) fileId file in
              if generateButton actions && negb (disabled actions) then
                Some {| page := handleGenerateTab_begin fileId (page m);
                        pending := pending m ++ [(TabRequest, fileId)] |}
              else None
          | None => None
          end
      | None => None
      end
  | Settles k outcome =>
      match pending m !! k with
      | Some (MidiRequest, fileId) =>
          Some {| page := (handleProcessToMidi_end fileId outcome (page m)).1;
                  pending := delete k (pending m) |}
      | Some (TabRequest, fileId) =>
          Some {| page := (handleGenerateTab_end fileId outcome (page m)).1;
                  pending := delete k (pending m) |}
      | None => None
      end
  | SelectMidiTab i =>
      match files m !! i with
      | Some file =>
          match stringId file with
          | Some fileId =>
              if truthy (get file "midiProcessed") then
                Some {| page := {| appState := appState (page m);
                                   listState := setFileActiveTab fileId "midi"
                                                                 (listState (page m)) |};
                        pending := pending m |}
              else None
          | None => None
          end
      | None => None
      end
  | SelectGuitarTab i =>
      match files m !! i with
      | Some file =>
          match stringId file with
          | Some fileId =>
              if truthy (get file "tabGenerated") then
                Some {| page := {| appState := appState (page m);
                                   listState := setFileActiveTab fileId "tab"
                                                                 (listState (page m)) |};
                        pending := pending m |}
              else None
          | None => None
          end
      | None => None
      end
  | ToggleDarkMode =>
      Some {| page := {| appState := App.toggleDarkMode (appState (page m));
                         listState := listState (page m) |};
              pending := pending m |}
  end.

(** The states the page can be in. *)
Inductive reachable : Machine -> Prop :=
| reachable_initial : reachable initial
| reachable_step (e : Event) (m m' : Machine) :
    reachable m -> step e m = Some m' -> reachable m'.

(** A run of events from a state. *)
Fixpoint run (events : list Event) (m : Machine) : option Machine :=
  match events with
  | [] => Some m
  | e :: events' =>
      match step e m with
      | Some m' => run events' m'
      | None => None
      end
  end.

(** The ids of the files on the page. *)
Definition ids (m : Machine) : list JsValue := map (fun file => get file "id") (files m).

(** What every reachable state satisfies. *)
Record Invariant (m : Machine) : Prop := mkInvariant {
  inv_shape :
    forall file, In file (files m) ->
      (exists fileId, get file "id" = VPrim (PString fileId)) /\
      (exists b, get file "midiProcessed" = VPrim (PBool b)) /\
      (exists b, get file "tabGenerated" = VPrim (PBool b));
  inv_single : NoDup (map snd (pending m));
  inv_pending :
    forall kind fileId, In (kind, fileId) (pending m) ->
      processing (listState (page m)) !! fileId
      = Some (lit (match kind with MidiRequest => "midi" | TabRequest => "tab" end)) /\
      exists file, In file (files m) /\ get file "id" = VPrim (PString fileId);
  inv_processing :
    forall fileId v, processing (listState (page m)) !! fileId = Some v ->
      ~ In fileId objectPrototypeKeys;
  inv_flagged :
    forall file fileId, In file (files m) -> get file "id" = VPrim (PString fileId) ->
      truthy (get file "midiProcessed") = true \/ truthy (get file "tabGenerated") = true ->
      is_Some (processing (listState (page m)) !! fileId);
  inv_activeTab :
    forall fileId v, activeTab (listState (page m)) !! fileId = Some v ->
      (v = lit "midi" \/ v = lit "tab") /\
      exists file, In file (files m) /\ get file "id" = VPrim (PString fileId)
}.

(** What holds besides when no two files share an id. *)
Record Ordered (m : Machine) : Prop := mkOrdered {
  ord_flags :
    forall file, In file (files m) ->
      truthy (get file "tabGenerated") = true -> truthy (get file "midiProcessed") = true;
  ord_pending :
    forall fileId file, In (TabRequest, fileId) (pending m) ->
      In file (files m) -> get file "id" = VPrim (PString fileId) ->
      truthy (get file "midiProcessed") = true;
  ord_midiTab :
    forall fileId file, activeTab (listState (page m)) !! fileId = Some (lit "midi") ->
      In file (files m) -> get file "id" = VPrim (PString fileId) ->
      truthy (get file "midiProcessed") = true;
  ord_guitarTab :
    forall fileId file, activeTab (listState (page m)) !! fileId = Some (lit "tab") ->
      In file (files m) -> get file "id" = VPrim (PString fileId) ->
      truthy (get file "tabGenerated") = true
}.

(** An upload result and the state after it arrived and 'Process to
    MIDI' was clicked, for the examples. *)
Definition sampleResult : Obj :=
  <["file_id" := lit "f1"]> (<["filename" := lit "a.mp3"]> (<["status" := lit "uploaded"]> ∅)).

Definition sampleEvents : list Event := [FilesUploaded [sampleResult]; ClickProcess 0].

Definition sampleState : Machine :=
  {| page := handleProcessToMidi_begin (js "f1")
               {| appState := App.handleFilesUploaded [sampleResult] App.initialState;
                  listState := initialState |};
     pending := [(MidiRequest, js "f1")] |}.

(** A whole workflow: upload, 'Process to MIDI' and its reply, 'Generate
    Guitar Tab' and its reply, then the 'Guitar Tab' tab. *)
Definition sampleTab : list TabPreview.TabEntry :=
  [{| TabPreview.time := 0; TabPreview.strings := [-1; -1; -1; -1; 3; -1] |}].

Definition sampleTabReply : Obj :=
  <["status" := lit "tab_generated"]> (<["tab_data" := VTab sampleTab]> ∅).

Definition sampleWorkflow : list Event :=
  [FilesUploaded [sampleResult];
   ClickProcess 0;
   Settles 0 (Reply (DataObject (<["status" := lit "processed"]>
                                 (<["midi_file" := lit "f1.mid"]> ∅))));
   ClickGenerate 0;
   Settles 0 (Reply (DataObject sampleTabReply));
   SelectGuitarTab 0].

Definition sampleFile : Obj :=
  <["tabGenerated" := VPrim (PBool true)]>
  (<["tabData" := VTab sampleTab]>
  (<["midiProcessed" := VPrim (PBool true)]>
  (<["midiFile" := lit "f1.mid"]> (App.newFile sampleResult)))).

Definition sampleFinal : Machine :=
  {| page := {| appState := {| App.processedFiles := [sampleFile]; App.darkMode := false |};
                listState := {| processing := <[js "f1" := VPrim PNull]> ∅;
                                activeTab := <[js "f1" := lit "tab"]> ∅ |} |};
     pending := [] |}.

(** The page after the upload. *)
Definition samplePage : Page :=
  {| appState := App.handleFilesUploaded [sampleResult] App.initialState;
     listState := initialState |}.

(** The state of that workflow while the tablature request is in
    flight. *)
Definition sampleMidiFile : Obj :=
  <["midiProcessed" := VPrim (PBool true)]>
  (<["midiFile" := lit "f1.mid"]> (App.newFile sampleResult)).

Definition sampleWaiting : Machine :=
  {| page := {| appState := {| App.processedFiles := [sampleMidiFile];
                               App.darkMode := false |};
                listState := {| processing := <[js "f1" := lit "tab"]> ∅;
                                activeTab := ∅ |} |};
     pending := [(TabRequest, js "f1")] |}.

(** Two uploads answered with the same id, the first file processed and
    given a tablature. *)
Definition sharedIdEvents : list Event :=
  [FilesUploaded [sampleResult];
   ClickProcess 0;
   Settles 0 (Reply (DataObject (<["status" := lit "processed"]> ∅)));
   FilesUploaded [sampleResult];
   ClickGenerate 0;
   Settles 0 (Reply (DataObject (<["status" := lit "tab_generated"]> ∅)))].

End PageMachine.

(** * TabPreview.js, the zoom controls *)

Module TabPreviewZoom.

(** The numbers the zoom level runs over, with what the handlers use of
    them: the comparison [<=], the constants 0.5, 1 and 2, and adding and
    subtracting 0.2.  The laws are those of JavaScript's numbers other
    than [NaN], which these operations never produce from them: the order
    is total, and since rounding is monotone a sum with 0.2 is never below
    the number it was added to, a difference never above. *)
Class Numbers (T : Type) : Type := {
  leb : T -> T -> bool;
  half : T;
  one : T;
  two : T;
  plusStep : T -> T;
  minusStep : T -> T;
  leb_total : forall x y, leb x y = true \/ leb y x = true;
  leb_trans : forall x y z, leb x y = true -> leb y z = true -> leb x z = true;
  half_one : leb half one = true;
  one_two : leb one two = true;
  plusStep_grows : forall x, leb x (plusStep x) = true;
  minusStep_shrinks : forall x, leb (minusStep x) x = true
}.

(** [Math.min] and [Math.max] of two such numbers. *)
Definition Math_min {T : Type} `{Numbers T} (a b : T) : T := if leb a b then a else b.

Definition Math_max {T : Type} `{Numbers T} (a b : T) : T := if leb a b then b else a.

(** The component's [zoom] and [scroll] cells. *)
Record State (T : Type) : Type := mkState {
  zoom : T;
  scroll : Z
}.
Arguments mkState {T} zoom scroll.
Arguments zoom {T} s.
Arguments scroll {T} s.

Definition initialState {T : Type} `{Numbers T} : State T := {| zoom := one; scroll := 0 |}.

Definition handleZoomIn {T : Type} `{Numbers T} (st : State T) : State T :=
  {| zoom := Math_min (plusStep (zoom st)) two; scroll := scroll st |}.

Definition handleZoomOut {T : Type} `{Numbers T} (st : State T) : State T :=
  {| zoom := Math_max (minusStep (zoom st)) half; scroll := scroll st |}.

Definition handleReset {T : Type} `{Numbers T} (st : State T) : State T :=
  {| zoom := one; scroll := 0 |}.

(** The three buttons; a disabled button does not call its handler. *)
Inductive Click : Type := ZoomOutButton | ZoomInButton | ResetView.

Definition click {T : Type} `{Numbers T} (st : State T) (c : Click) : State T :=
  match c with
  | ZoomOutButton => if leb (zoom st) half then st else handleZoomOut st
  | ZoomInButton => if leb two (zoom st) then st else handleZoomIn st
  | ResetView => handleReset st
  end.

(** What the controls keep: the zoom level between 0.5 and 2, the scroll
    position at 0. *)
Definition inRange {T : Type} `{Numbers T} (st : State T) : Prop :=
  leb half (zoom st) = true /\ leb (zoom st) two = true /\ scroll st = 0.

(** The rationals, with exact sums, are such numbers. *)
#[global] Instance Numbers_Q : Numbers Q.
Proof.
  refine {| leb := Qle_bool; half := (1 # 2)%Q; one := 1%Q; two := 2%Q;
            plusStep := fun x => (x + (1 # 5))%Q; minusStep := fun x => (x - (1 # 5))%Q |}.
  - intros x y. rewrite !Qle_bool_iff. destruct (Qlt_le_dec x y) as [Hlt|Hle]; [|by right].
    left. by apply Qlt_le_weak.
  - intros x y z. rewrite !Qle_bool_iff. apply Qle_trans.
  - reflexivity.
  - reflexivity.
  - intros x. rewrite Qle_bool_iff. rewrite <- (Qplus_0_r x) at 1.
    apply Qplus_le_r. discriminate.
  - intros x. rewrite Qle_bool_iff. unfold Qminus. rewrite <- (Qplus_0_r x) at 2.
    apply Qplus_le_r. discriminate.
Defined.

End TabPreviewZoom.

(** * Properties of TabPreview.js *)

Section TabPreviewFacts.

Import TabPreview.

Lemma countNotes_from (tabData : list TabEntry) (acc : nat) :
  fold_left (fun acc chord => (acc + length (List.filter played (strings chord)))%nat)
            tabData acc
  = (acc + length (playedFrets tabData))%nat.
Proof.
  revert acc. induction tabData as [|chord rest IH]; intros acc; simpl.
  - unfold playedFrets. simpl. lia.
  - rewrite IH. unfold playedFrets. simpl.
    rewrite List.filter_app, List.length_app. lia.
Qed.

Lemma in_playedFrets (tabData : list TabEntry) (f : Z) :
  In f (playedFrets tabData) <->
  exists chord, In chord tabData /\ In f (strings chord) /\ 0 <= f.
Proof.
  unfold playedFrets. rewrite List.filter_In, in_concat.
  unfold played. rewrite Z.leb_le. split.
  - intros [(l & Hl & Hin) Hf].
    apply in_map_iff in Hl as (chord & <- & Hchord). eauto.
  - intros (chord & Hchord & Hin & Hf). split; [|done].
    exists (strings chord). split; [|done]. apply in_map_iff. eauto.
Qed.

(** The inner loop adds the index of every played slot. *)
Lemma scanSlots_strings (l : list Z) (i : nat) (st : ScanState) (k : nat) :
  k ∈ (forEachFrom scanSlot l i st).1 <->
  k ∈ st.1 \/ exists j f, l !! j = Some f /\ 0 <= f /\ k = (i + j)%nat.
Proof.
  revert i st. induction l as [|x l IH]; intros i st; simpl.
  - split; [auto|]. intros [H|(j & f & H & _)]; [done|]. by destruct j.
  - rewrite IH. unfold scanSlot, played. destruct (Z.leb_spec 0 x) as [Hx|Hx]; simpl.
    + rewrite elem_of_union, elem_of_singleton. split.
      * intros [[->|H]|(j & f & Hj & Hf & ->)]; [right|by left|right].
        -- exists 0%nat, x. split_and!; [done|done|lia].
        -- exists (S j), f. split_and!; [done|done|lia].
      * intros [H|(j & f & Hj & Hf & ->)]; [by left; right|].
        destruct j as [|j]; simpl in Hj.
        -- left; left. lia.
        -- right. exists j, f. split_and!; [done|done|lia].
    + split.
      * intros [H|(j & f & Hj & Hf & ->)]; [by left|right].
        exists (S j), f. split_and!; [done|done|lia].
      * intros [H|(j & f & Hj & Hf & ->)]; [by left|].
        destruct j as [|j]; simpl in Hj.
        -- injection Hj as ->. lia.
        -- right. exists j, f. split_and!; [done|done|lia].
Qed.

(** The fret range after the inner loop only depends on the played
    frets, in order. *)
Lemma scanSlots_range (l : list Z) (i : nat) (st : ScanState) :
  (forEachFrom scanSlot l i st).2 = fold_left rangeStep (List.filter played l) st.2.
Proof.
  revert i st. induction l as [|x l IH]; intros i st; simpl; [done|].
  rewrite IH. unfold scanSlot. by destruct (played x).
Qed.

Lemma scanAll_strings_from (tabData : list TabEntry) (st : ScanState) (k : nat) :
  k ∈ (fold_left scanChord tabData st).1 <->
  k ∈ st.1 \/ exists chord f, In chord tabData /\ strings chord !! k = Some f /\ 0 <= f.
Proof.
  revert st. induction tabData as [|c rest IH]; intros st; simpl.
  - split; [auto|]. by intros [H|(chord & f & [] & _)].
  - rewrite IH. unfold scanChord, forEach. rewrite scanSlots_strings. split.
    + intros [[H|(j & f & Hj & Hf & ->)]|(chord & f & Hin & Hk & Hf)].
      * by left.
      * right. exists c, f. split_and!; [by left|done|done].
      * right. exists chord, f. split_and!; [by right|done|done].
    + intros [H|(chord & f & [->|Hin] & Hk & Hf)]; [by left; left| |].
      * left; right. exists k, f. split_and!; [done|done|lia].
      * right. eauto.
Qed.

Lemma scanAll_range_from (tabData : list TabEntry) (st : ScanState) :
  (fold_left scanChord tabData st).2 = fold_left rangeStep (playedFrets tabData) st.2.
Proof.
  revert st. induction tabData as [|c rest IH]; intros st; simpl; [done|].
  rewrite IH. unfold scanChord, forEach. rewrite scanSlots_range.
  unfold playedFrets. simpl. by rewrite List.filter_app, fold_left_app.
Qed.

Lemma rangeStep_numbers (l : list Z) (a b : Z) :
  fold_left rangeStep l {| min := Num a; max := Num b |}
  = {| min := Num (fold_left Z.min l a); max := Num (fold_left Z.max l b) |}.
Proof.
  revert a b. induction l as [|x l IH]; intros a b; simpl; [done|].
  unfold rangeStep at 2. simpl. by rewrite IH.
Qed.

Lemma fold_min_spec (l : list Z) (a : Z) :
  In (fold_left Z.min l a) (a :: l) /\ forall f, In f (a :: l) -> fold_left Z.min l a <= f.
Proof.
  revert a. induction l as [|x l IH]; intros a; simpl.
  - split; [by left|]. intros f [->|[]]. lia.
  - destruct (IH (Z.min a x)) as [Hin Hle]. split.
    + destruct Hin as [Heq|Hin]; [|by right; right].
      rewrite <- Heq. destruct (Z.min_spec a x) as [[_ ->]|[_ ->]]; [by left|by right; left].
    + pose proof (Hle (Z.min a x) (or_introl eq_refl)) as H0.
      intros f [->|[->|Hf]]; [lia|lia|]. apply Hle. by right.
Qed.

Lemma fold_max_spec (l : list Z) (a : Z) :
  In (fold_left Z.max l a) (a :: l) /\ forall f, In f (a :: l) -> f <= fold_left Z.max l a.
Proof.
  revert a. induction l as [|x l IH]; intros a; simpl.
  - split; [by left|]. intros f [->|[]]. lia.
  - destruct (IH (Z.max a x)) as [Hin Hle]. split.
    + destruct Hin as [Heq|Hin]; [|by right; right].
      rewrite <- Heq. destruct (Z.max_spec a x) as [[_ ->]|[_ ->]]; [by right; left|by left].
    + pose proof (Hle (Z.max a x) (or_introl eq_refl)) as H0.
      intros f [->|[->|Hf]]; [lia|lia|]. apply Hle. by right.
Qed.

(** C1. The statistics of [getTabStats] over any array of entries are:
    the chord count is the number of entries; the note count is the
    number of string slots whose fret is at least 0; the strings-used
    count is the cardinality of the set of string indices that carry a
    fret of at least 0 in some entry; the fret range is absent when no
    slot is played and otherwise holds the least and the greatest of the
    frets that are at least 0. *)
Theorem getTabStats_spec (tabData : list TabEntry) :
  exists stats,
    getTabStats (Some tabData) = Some stats /\
    totalChords stats = length tabData /\
    totalNotes stats = length (playedFrets tabData) /\
    (exists used : gset nat,
        (forall i, i ∈ used <->
                   exists chord f, In chord tabData /\ strings chord !! i = Some f /\ 0 <= f) /\
        usedStrings stats = size used) /\
    match fretRange stats with
    | None => playedFrets tabData = []
    | Some r =>
        exists lo hi,
          min r = Num lo /\ max r = Num hi /\
          In lo (playedFrets tabData) /\ In hi (playedFrets tabData) /\
          (forall f, In f (playedFrets tabData) -> lo <= f <= hi)
    end.
Proof.
  unfold getTabStats. destruct (scanAll tabData) as [used r] eqn:Hscan.
  eexists. split; [reflexivity|]. simpl. split_and!.
  - done.
  - unfold countNotes. by rewrite countNotes_from.
  - exists used. split; [|done]. intros i.
    change used with (used, r).1. rewrite <- Hscan. unfold scanAll.
    rewrite scanAll_strings_from. simpl.
    split; [intros [H|H]; [by apply not_elem_of_empty in H|done]|by right].
  - assert (r = fold_left rangeStep (playedFrets tabData)
                          {| min := Infinity; max := NegInfinity |}) as ->.
    { change r with (used, r).2. rewrite <- Hscan. unfold scanAll.
      by rewrite scanAll_range_from. }
    destruct (playedFrets tabData) as [|x l]; simpl; [done|].
    change (rangeStep {| min := Infinity; max := NegInfinity |} x)
      with {| min := Num x; max := Num x |}.
    rewrite rangeStep_numbers. simpl.
    destruct (fold_min_spec l x) as [Hmin Hle], (fold_max_spec l x) as [Hmax Hge].
    exists (fold_left Z.min l x), (fold_left Z.max l x).
    split_and!; [done|done|done|done|]. intros f Hf. split; auto.
Qed.

Example getTabStats_two_chords :
  getTabStats (Some [ {| time := 0%Q; strings := [-1; 1; 0; 2; 3; -1] |};
                      {| time := 1%Q; strings := [5; -1; -1; -1; -1; -1] |} ])
  = Some {| totalChords := 2; totalNotes := 5; usedStrings := 5;
            fretRange := Some {| min := Num 0; max := Num 5 |} |}.
Proof. vm_compute. reflexivity. Qed.

Example getTabStats_missing : getTabStats None = None.
Proof. reflexivity. Qed.

Lemma playedFrets_nil_iff (tabData : list TabEntry) :
  playedFrets tabData = [] <->
  forall chord f, In chord tabData -> In f (strings chord) -> f < 0.
Proof.
  split.
  - intros Hnil chord f Hc Hf. destruct (Z.lt_ge_cases f 0) as [|Hge]; [done|].
    assert (In f (playedFrets tabData)) as Hin by (apply in_playedFrets; eauto).
    rewrite Hnil in Hin. destruct Hin.
  - intros Hall. destruct (playedFrets tabData) as [|x l] eqn:Heq; [done|].
    assert (In x (playedFrets tabData)) as Hin by (rewrite Heq; by left).
    apply in_playedFrets in Hin as (chord & Hc & Hf & Hx).
    specialize (Hall chord x Hc Hf). lia.
Qed.

(** C3. The standard tuning table has exactly six open pitches,
    [64; 59; 55; 50; 45; 40] for string indices 0 to 5 (E B G D A E), from
    pitch 64 on the high e (index 0) down to pitch 40 on the low E (index
    5): the pitch strictly increases from index 5 to index 0.  The table is
    a closed constant: no function of the component takes it as state or
    returns a changed copy, so nothing mutates it. *)
Theorem stringTuning_standard :
  stringTuning = [64; 59; 55; 50; 45; 40] /\
  length stringTuning = 6%nat /\
  length stringNames = 6%nat /\
  stringTuning !! 0%nat = Some 64 /\
  stringTuning !! 5%nat = Some 40 /\
  (forall i j pi pj,
      (i < j)%nat ->
      stringTuning !! i = Some pi -> stringTuning !! j = Some pj -> pj < pi).
Proof.
  split_and!; try reflexivity.
  - intros i j pi pj Hij Hi Hj. unfold stringTuning in *.
    do 6 (destruct i as [|i]; [do 6 (destruct j as [|j]; [simpl in *; simplify_eq; lia|]);
                               simpl in Hj; done|]).
    simpl in Hi. done.
Qed.

End TabPreviewFacts.

(** * Properties of FileUploader.js *)

Section FileUploaderFacts.

Import FileUploader.

(** A pattern character that is not an upper-case letter is matched by
    exactly the code units whose lower-case form it is. *)
Lemma canonicalize_lower (c p : N) :
  ~ (65 <= p <= 90)%N ->
  (canonicalize c =? canonicalize p)%N = true <-> lowerUnit c = p.
Proof.
  intros Hp. rewrite N.eqb_eq. unfold canonicalize, lowerUnit.
  destruct (N.leb_spec 97 c), (N.leb_spec c 122), (N.leb_spec 97 p), (N.leb_spec p 122),
    (N.leb_spec 65 c), (N.leb_spec c 90); simpl; lia.
Qed.

Lemma matchLiteral_spec (pat s r : jsString) :
  Forall (fun p => ~ (65 <= p <= 90)%N) pat ->
  matchLiteral pat s = Some r <->
  exists pre, s = pre ++ r /\ map lowerUnit pre = pat.
Proof.
  intros Hpat. revert s. induction Hpat as [|p pat Hp Hpat IH]; intros s; simpl.
  - split.
    + intros [= ->]. by exists [].
    + intros (pre & -> & Hpre). by destruct pre.
  - destruct s as [|c s].
    + split; [done|]. intros (pre & Hs & Hpre). by destruct pre.
    + destruct (canonicalize c =? canonicalize p)%N eqn:Hc.
      * apply canonicalize_lower in Hc; [|done]. rewrite IH. split.
        -- intros (pre & -> & <-). exists (c :: pre). by rewrite <- Hc.
        -- intros (pre & Hs & Hpre). destruct pre as [|c' pre]; [done|].
           simpl in *. simplify_eq. by exists pre.
      * split; [done|]. intros (pre & Hs & Hpre). destruct pre as [|c' pre]; [done|].
        simpl in *. simplify_eq.
        assert ((canonicalize c' =? canonicalize (lowerUnit c'))%N = true) as Heq
            by (by apply canonicalize_lower).
        congruence.
Qed.

Lemma lower_pattern (pat : string) :
  forallb (fun p => negb ((65 <=? p) && (p <=? 90))%N) (js pat) = true ->
  Forall (fun p => ~ (65 <= p <= 90)%N) (js pat).
Proof.
  intros H. apply Forall_forall. intros p Hin.
  rewrite forallb_forall in H. specialize (H p (proj1 (list_elem_of_In _ _) Hin)).
  destruct (N.leb_spec 65 p), (N.leb_spec p 90); simpl in H; try done; lia.
Qed.

Lemma matchExtensionAt_spec (s : jsString) :
  matchExtensionAt s = true <->
  map lowerUnit s = js ".mp3" \/ map lowerUnit s = js ".wav" \/ map lowerUnit s = js ".flac".
Proof.
  unfold matchExtensionAt.
  assert (forall alt : string,
             forallb (fun p => negb ((65 <=? p) && (p <=? 90))%N) (js alt) = true ->
             forall r, (match matchLiteral (js alt) r with Some [] => true | _ => false end) = true
                       <-> map lowerUnit r = js alt) as Halt.
  { intros alt Hok r. destruct (matchLiteral (js alt) r) as [rest|] eqn:Hm.
    - apply matchLiteral_spec in Hm as (pre & -> & Hpre); [|by apply lower_pattern].
      destruct rest as [|x rest].
      + rewrite app_nil_r. by split.
      + split; [done|]. intros H. rewrite <- Hpre in H.
        apply (f_equal (@length N)) in H. rewrite !length_map, length_app in H.
        simpl in H. lia.
    - split; [done|]. intros H.
      assert (matchLiteral (js alt) r = Some []) as Hsome.
      { apply matchLiteral_spec; [by apply lower_pattern|].
        exists r. by rewrite app_nil_r. }
      congruence. }
  destruct (matchLiteral (js ".") s) as [r|] eqn:Hdot.
  - apply matchLiteral_spec in Hdot as (pre & -> & Hpre); [|by apply (lower_pattern ".")].
    destruct pre as [|d [|? ?]]; simpl in Hpre; try done. injection Hpre as Hd.
    cbn [existsb]. rewrite orb_false_r, !orb_true_iff.
    rewrite (Halt "mp3"%string eq_refl), (Halt "wav"%string eq_refl),
      (Halt "flac"%string eq_refl).
    change (map lowerUnit ([d] ++ r)) with (lowerUnit d :: map lowerUnit r).
    change (js ".mp3") with (46%N :: js "mp3").
    change (js ".wav") with (46%N :: js "wav").
    change (js ".flac") with (46%N :: js "flac").
    change (lowerUnit d = 46%N) in Hd. rewrite Hd. split.
    + intros [->|[->| ->]]; auto.
    + intros [H|[H|H]]; injection H as H; auto.
  - split; [done|]. intros H.
    assert (exists d r, s = d :: r /\ lowerUnit d = 46%N) as (d & r & -> & Hd).
    { destruct s as [|d r]; [by destruct H as [H|[H|H]]|].
      exists d, r. split; [done|]. by destruct H as [H|[H|H]]; injection H. }
    assert (matchLiteral (js ".") (d :: r) = Some r) as Hsome.
    { apply matchLiteral_spec; [by apply (lower_pattern ".")|].
      exists [d]. simpl. by rewrite Hd. }
    congruence.
Qed.

(** The search of the regular expression finds a match exactly when the
    name ends in one of the three extensions, whatever the case of its
    letters. *)
Lemma matchesExtension_spec (s : jsString) :
  matchesExtension s = true <-> endsWithExtension s.
Proof.
  unfold endsWithExtension. induction s as [|c s IH].
  - split; [done|].
    intros (stem & ext & Hs & H). symmetry in Hs.
    apply app_eq_nil in Hs as [-> ->]. by destruct H as [H|[H|H]].
  - cbn [matchesExtension]. rewrite orb_true_iff, IH, matchExtensionAt_spec. split.
    + intros [H|(stem & ext & -> & H)].
      * by exists [], (c :: s).
      * by exists (c :: stem), ext.
    + intros (stem & ext & Hs & H). destruct stem as [|c' stem]; simpl in Hs.
      * left. by rewrite Hs.
      * right. injection Hs as -> ->. by exists stem, ext.
Qed.

Lemma includes_spec (l : list jsString) (x : jsString) :
  includes l x = true <-> In x l.
Proof.
  unfold includes. rewrite existsb_exists. split.
  - intros (y & Hy & Heq). apply bool_decide_eq_true in Heq. by subst.
  - intros H. exists x. split; [done|]. by apply bool_decide_eq_true.
Qed.

Lemma lookup_map {A B : Type} (f : A -> B) (l : list A) (i : nat) :
  map f l !! i = f <$> (l !! i).
Proof.
  revert i. induction l as [|x l IH]; intros [|i]; simpl; auto.
Qed.

Lemma validateFile_valid (file : File) :
  valid (validateFile file) = true <->
  (In (type file) supportedTypes \/ endsWithExtension (name file)) /\ size file <= maxSize.
Proof.
  unfold validateFile.
  pose proof (includes_spec supportedTypes (type file)) as Hty.
  pose proof (matchesExtension_spec (name file)) as Hext.
  revert Hty Hext.
  generalize (In (type file) supportedTypes), (endsWithExtension (name file)).
  intros P Q Hty Hext.
  destruct (includes supportedTypes (type file)), (matchesExtension (name file));
    destruct (Z.ltb_spec maxSize (size file)); simpl; intuition (try done; try lia).
Qed.

Lemma validateFile_error (file : File) :
  valid (validateFile file) = false -> exists msg, error (validateFile file) = Some msg.
Proof.
  unfold validateFile.
  destruct (negb (includes supportedTypes (type file)) && negb (matchesExtension (name file)));
    [eauto|].
  destruct (maxSize <? size file); [eauto|done].
Qed.

Example validateFile_by_extension :
  validateFile {| name := js "Song.MP3"; type := js ""; size := 50 * 1024 * 1024 |}
  = {| valid := true; error := None |}.
Proof. vm_compute. reflexivity. Qed.

Example validateFile_by_type :
  validateFile {| name := js "take1.bin"; type := js "audio/x-flac"; size := 1 |}
  = {| valid := true; error := None |}.
Proof. vm_compute. reflexivity. Qed.

Example validateFile_too_large :
  validateFile {| name := js "song.wav"; type := js "audio/wav"; size := 50 * 1024 * 1024 + 1 |}
  = {| valid := false; error := Some "File too large. Maximum size is 50MB."%string |}.
Proof. vm_compute. reflexivity. Qed.

Example validateFile_unsupported :
  validateFile {| name := js "song.mp3.txt"; type := js "text/plain"; size := 1 |}
  = {| valid := false;
       error := Some "Unsupported file type. Please use MP3, WAV, or FLAC."%string |}.
Proof. vm_compute. reflexivity. Qed.

Example onDrop_mixed_batch :
  onDrop false [ {| name := js "a.mp3"; type := js "audio/mpeg"; size := 10 |};
                 {| name := js "b.txt"; type := js "text/plain"; size := 10 |} ]
  = Some {| initialStatus :=
              [ {| statusName := js "a.mp3"; status := uploading;
                   statusError := None; progress := 0 |};
                {| statusName := js "b.txt"; status := failed;
                   statusError :=
                     Some "Unsupported file type. Please use MP3, WAV, or FLAC."%string;
                   progress := 0 |} ];
            posted := Some [ {| name := js "a.mp3"; type := js "audio/mpeg"; size := 10 |} ] |}.
Proof. vm_compute. reflexivity. Qed.

Example onDrop_while_uploading (files : list File) : onDrop true files = None.
Proof. reflexivity. Qed.

(** C9. [validateFile] accepts a file exactly when its MIME type is one
    of audio/mpeg, audio/wav, audio/flac, audio/x-flac or its name ends in
    .mp3, .wav or .flac in any letter case, and its size is at most
    50*1024*1024 bytes; a file of exactly that size is accepted.  Whenever
    [onDrop] handles a batch (it does unless an upload is in progress),
    every rejected file gets a status entry with status 'error' and an error
    message, and every valid file of the batch is in the request that is
    posted, which holds the valid files and nothing else. *)
Theorem validateFile_onDrop_spec :
  (forall file,
      valid (validateFile file) = true <->
      (type file = js "audio/mpeg" \/ type file = js "audio/wav" \/
       type file = js "audio/flac" \/ type file = js "audio/x-flac" \/
       endsWithExtension (name file)) /\
      size file <= 50 * 1024 * 1024) /\
  (forall nm ty,
      In ty supportedTypes \/ endsWithExtension nm ->
      valid (validateFile {| name := nm; type := ty; size := 50 * 1024 * 1024 |}) = true) /\
  (forall files, exists out, onDrop false files = Some out) /\
  (forall isUploading files out,
      onDrop isUploading files = Some out ->
      isUploading = false /\
      length (initialStatus out) = length files /\
      (forall i file,
          files !! i = Some file ->
          valid (validateFile file) = false ->
          exists msg,
            initialStatus out !! i =
            Some {| statusName := name file; status := failed;
                    statusError := Some msg; progress := 0 |}) /\
      (forall file,
          In file files ->
          valid (validateFile file) = true ->
          exists sent, posted out = Some sent /\ In file sent) /\
      (forall sent,
          posted out = Some sent ->
          sent = List.filter (fun file => valid (validateFile file)) files)).
Proof.
  split_and!.
  - intros file. rewrite validateFile_valid. unfold supportedTypes, maxSize. simpl.
    intuition.
  - intros nm ty H. apply validateFile_valid. simpl. unfold maxSize. split; [done|lia].
  - intros files. by eexists.
  - intros [|] files out; [done|]. intros [= <-]. cbn [initialStatus posted].
    assert (map fst (List.filter (fun fv : File * Validation => valid fv.2)
                                 (map (fun file => (file, validateFile file)) files))
            = List.filter (fun file => valid (validateFile file)) files) as Hsent.
    { induction files as [|f fs IH]; simpl; [done|].
      destruct (valid (validateFile f)); simpl; by rewrite IH. }
    rewrite Hsent. split_and!.
    + done.
    + by rewrite !length_map.
    + intros i file Hi Hbad. destruct (validateFile_error file Hbad) as [msg Hmsg].
      exists msg. rewrite !lookup_map, Hi. simpl. by rewrite Hbad, Hmsg.
    + intros file Hin Hok.
      assert (In file (List.filter (fun file => valid (validateFile file)) files)) as Hf
          by (apply List.filter_In; done).
      destruct (List.filter _ files) as [|x l]; [done|]. simpl. eauto.
    + intros sent. destruct (List.filter _ files) as [|x l]; simpl; [done|].
      by intros [= <-].
Qed.

End FileUploaderFacts.

(** * Properties of MidiPreview.js *)

Section MidiPreviewFacts.

Import MidiPreview.

(** C10. The data the preview loads does not depend on [fileId]: for any
    two file ids, and whatever the state before, the effect stores the
    same dataset, four notes of pitches 60, 64, 67, 72, and the duration
    2.0 seconds; the piano roll drawn from it is the same too. *)
Theorem loadEffect_constant :
  forall (fileId1 fileId2 : jsString) (st1 st2 : State),
    midiData (loadEffect fileId1 st1) = midiData (loadEffect fileId2 st2) /\
    duration (loadEffect fileId1 st1) = duration (loadEffect fileId2 st2) /\
    loading (loadEffect fileId1 st1) = loading (loadEffect fileId2 st2) /\
    PianoRoll (loadEffect fileId1 st1) = PianoRoll (loadEffect fileId2 st2) /\
    (exists d,
        midiData (loadEffect fileId1 st1) = Some d /\
        length (notes d) = 4%nat /\
        map pitch (notes d) = [60; 64; 67; 72]) /\
    duration (loadEffect fileId1 st1) = 2%Q.
Proof.
  intros. split_and!; try reflexivity.
  eexists. split_and!; reflexivity.
Qed.

End MidiPreviewFacts.

(** * Properties of the core *)

(** ** Chord Grouper *)

Section GrouperFacts.

Import Core.

Lemma eventLeb_spec (a b : NoteEvent) : eventLeb a b = true <-> eventLe a b.
Proof.
  unfold eventLeb, eventLe.
  destruct (Qcompare_spec (onset a) (onset b)) as [Heq|Hlt|Hgt].
  - rewrite Z.leb_le. split; [auto|]. intros [H|[_ H]]; [|done].
    rewrite Heq in H. by apply Qlt_irrefl in H.
  - split; auto.
  - split; [done|]. intros [H|[H _]].
    + exfalso. apply (Qlt_irrefl (onset a)). by apply Qlt_trans with (onset b).
    + rewrite H in Hgt. by apply Qlt_irrefl in Hgt.
Qed.

Lemma eventLe_total (a b : NoteEvent) : eventLeb a b = false -> eventLe b a.
Proof.
  unfold eventLeb, eventLe.
  destruct (Qcompare_spec (onset a) (onset b)) as [Heq|Hlt|Hgt]; [|done|auto].
  rewrite Z.leb_gt. intros H. right. split; [by symmetry | lia].
Qed.

Lemma eventLe_trans (a b c : NoteEvent) : eventLe a b -> eventLe b c -> eventLe a c.
Proof.
  unfold eventLe. intros [Hab|[Hab Pab]] [Hbc|[Hbc Pbc]].
  - left. by apply Qlt_trans with (onset b).
  - left. by rewrite <- Hbc.
  - left. by rewrite Hab.
  - right. split; [by rewrite Hab | lia].
Qed.

Lemma sameKey_spec (a b : NoteEvent) :
  sameKey a b = true <-> (onset a == onset b)%Q /\ pitch a = pitch b.
Proof.
  unfold sameKey. by rewrite andb_true_iff, Qeq_bool_iff, Z.eqb_eq.
Qed.

Lemma insertEvent_perm (e : NoteEvent) (l : list NoteEvent) :
  Permutation (insertEvent e l) (e :: l).
Proof.
  induction l as [|x l IH]; simpl; [done|].
  destruct (eventLeb e x); [done|].
  rewrite IH. apply perm_swap.
Qed.

Lemma sortEvents_perm (events : list NoteEvent) :
  Permutation (sortEvents events) events.
Proof.
  induction events as [|e l IH]; simpl; [done|].
  rewrite insertEvent_perm. by constructor.
Qed.

Lemma insertEvent_sorted (e : NoteEvent) (l : list NoteEvent) :
  StronglySorted eventLe l -> StronglySorted eventLe (insertEvent e l).
Proof.
  induction 1 as [|x l Hl IH Hx]; simpl.
  - repeat constructor.
  - destruct (eventLeb e x) eqn:Hex.
    + apply eventLeb_spec in Hex. constructor; [by constructor|].
      constructor; [done|]. eapply Forall_impl; [exact Hx|].
      intros y Hy. by apply eventLe_trans with x.
    + apply eventLe_total in Hex. constructor; [done|].
      rewrite Forall_forall. intros y Hy. apply list_elem_of_In in Hy.
      apply (Permutation_in _ (insertEvent_perm e l)) in Hy as [<-|Hy]; [done|].
      rewrite Forall_forall in Hx. apply Hx. by apply list_elem_of_In.
Qed.

Lemma sortEvents_sorted (events : list NoteEvent) :
  StronglySorted eventLe (sortEvents events).
Proof.
  induction events as [|e l IH]; simpl; [constructor|]. by apply insertEvent_sorted.
Qed.

(** Insertion never moves an event across one with the same key. *)
Lemma insertEvent_stable (k e : NoteEvent) (l : list NoteEvent) :
  List.filter (sameKey k) (insertEvent e l)
  = if sameKey k e then e :: List.filter (sameKey k) l else List.filter (sameKey k) l.
Proof.
  induction l as [|x l IH]; simpl; [done|].
  destruct (eventLeb e x) eqn:Hex; simpl; [done|].
  rewrite IH. destruct (sameKey k e) eqn:Hke; [|done].
  destruct (sameKey k x) eqn:Hkx; [|done]. exfalso.
  apply sameKey_spec in Hke as [Hoe Hpe]. apply sameKey_spec in Hkx as [Hox Hpx].
  assert (eventLeb e x = true) as Hle; [|congruence].
  apply eventLeb_spec. right. split; [by rewrite <- Hoe, <- Hox | lia].
Qed.

Lemma sortEvents_stable (k : NoteEvent) (events : list NoteEvent) :
  List.filter (sameKey k) (sortEvents events) = List.filter (sameKey k) events.
Proof.
  induction events as [|e l IH]; simpl; [done|].
  rewrite insertEvent_stable, IH. by destruct (sameKey k e).
Qed.

Lemma withinWindow_spec (w anchor t : Q) :
  withinWindow w anchor t = true <-> (Qabs (t - anchor) <= w)%Q.
Proof. unfold withinWindow. apply Qle_bool_iff. Qed.

Lemma sweep_concat (w : Q) (events : list NoteEvent) :
  forall anchor current, concat (sweep w anchor current events) = current ++ events.
Proof.
  induction events as [|e rest IH]; intros anchor current; simpl.
  - done.
  - destruct (withinWindow w anchor (onset e)); simpl; rewrite IH; [|done].
    by rewrite <- app_assoc.
Qed.

(** The first group the sweep returns starts with the group it was
    filling. *)
Lemma sweep_head (w : Q) (events : list NoteEvent) :
  forall anchor current,
    exists more groups, sweep w anchor current events = (current ++ more) :: groups.
Proof.
  induction events as [|e rest IH]; intros anchor current; simpl.
  - exists [], []. by rewrite app_nil_r.
  - destruct (withinWindow w anchor (onset e)).
    + destruct (IH anchor (current ++ [e])) as (more & groups & ->).
      exists (e :: more), groups. by rewrite <- app_assoc.
    + exists [], (sweep w (onset e) [e] rest). by rewrite app_nil_r.
Qed.

(** Every group starts with its anchor event, and every later event of
    the group lies within the window of that anchor. *)
Lemma sweep_groups (w : Q) (events : list NoteEvent) :
  forall e0 joined,
    Forall (fun e => withinWindow w (onset e0) (onset e) = true) joined ->
    Forall (fun g => exists a rest,
                g = a :: rest /\
                Forall (fun e => withinWindow w (onset a) (onset e) = true) rest)
           (sweep w (onset e0) (e0 :: joined) events).
Proof.
  induction events as [|e rest IH]; intros e0 joined Hjoined; simpl.
  - constructor; [|constructor]. eauto.
  - destruct (withinWindow w (onset e0) (onset e)) eqn:He.
    + apply (IH e0 (joined ++ [e])). apply Forall_app. split; [done|]. by constructor.
    + constructor; [eauto|]. apply (IH e []). constructor.
Qed.

(** The anchor of a group lies outside the window of the anchor of the
    group before it. *)
Lemma sweep_boundary (w : Q) (events : list NoteEvent) :
  forall e0 joined k g g',
    sweep w (onset e0) (e0 :: joined) events !! k = Some g ->
    sweep w (onset e0) (e0 :: joined) events !! S k = Some g' ->
    withinWindow w (anchorOf g) (anchorOf g') = false.
Proof.
  induction events as [|e rest IH]; intros e0 joined k g g'; simpl.
  - by destruct k.
  - destruct (withinWindow w (onset e0) (onset e)) eqn:He.
    + apply (IH e0 (joined ++ [e])).
    + destruct k as [|k]; simpl.
      * intros [= <-]. destruct (sweep_head w rest (onset e) [e]) as (more & groups & ->).
        by intros [= <-].
      * apply (IH e []).
Qed.

Lemma groupEvents_concat (w : Q) (events : list NoteEvent) :
  concat (groupEvents w events) = sortEvents events.
Proof.
  unfold groupEvents.
  destruct (sortEvents events) as [|e rest]; [done|]. by rewrite sweep_concat.
Qed.

Lemma collapse_in (events : list NoteEvent) :
  forall seen e,
    In e (collapseDuplicates seen events) -> In e events /\ ~ In (pitch e) seen.
Proof.
  induction events as [|x rest IH]; intros seen e; simpl; [done|].
  case_bool_decide as Hseen.
  - intros H. apply IH in H as [H1 H2]. auto.
  - intros [<-|H].
    + split; [by left|]. by rewrite <- list_elem_of_In.
    + apply IH in H as [H1 H2]. split; [by right|]. intros H3. apply H2. by right.
Qed.

Lemma collapse_pitches (events : list NoteEvent) :
  forall seen p,
    In p (map pitch (collapseDuplicates seen events)) <->
    In p (map pitch events) /\ ~ In p seen.
Proof.
  induction events as [|x rest IH]; intros seen p; simpl; [tauto|].
  case_bool_decide as Hseen; simpl; rewrite IH.
  - apply list_elem_of_In in Hseen. split; [tauto|].
    intros [[<-|H] Hp]; [done|tauto].
  - rewrite list_elem_of_In in Hseen. simpl.
    destruct (decide (pitch x = p)) as [<-|Hne]; tauto.
Qed.

Lemma collapse_NoDup (events : list NoteEvent) :
  forall seen, NoDup (map pitch (collapseDuplicates seen events)).
Proof.
  induction events as [|x rest IH]; intros seen; simpl; [constructor|].
  case_bool_decide as Hseen; [done|]. simpl. constructor; [|done].
  rewrite list_elem_of_In, collapse_pitches. simpl. tauto.
Qed.

Lemma collapse_sublist (events : list NoteEvent) :
  forall seen, sublist (collapseDuplicates seen events) events.
Proof.
  induction events as [|x rest IH]; intros seen; simpl; [constructor|].
  case_bool_decide; [by apply sublist_cons | by apply sublist_skip].
Qed.

(** C7. The Chord Grouper sorts the events by onset, ties by pitch
    ascending, stably (the sorted list is a permutation of the input, in
    order, and events with the same onset and pitch keep their input
    order); the groups are consecutive runs of the sorted list, each
    starting with its anchor event and holding only events whose onset is
    within the window of the anchor's onset, while the event that starts
    the next group lies outside the window of the previous anchor; the
    default window is 50 ms; each chord has the anchor's onset as time,
    its pitches are those of its group without duplicates, and it has at
    least one pitch. *)
Theorem chordGrouper_spec (w : Q) (events : list NoteEvent) :
  let sorted := sortEvents events in
  let groups := groupEvents w events in
  let chords := chordGrouper w events in
  Permutation sorted events /\
  StronglySorted
    (fun a b => (onset a < onset b)%Q \/ ((onset a == onset b)%Q /\ pitch a <= pitch b))
    sorted /\
  (forall k, List.filter (sameKey k) sorted = List.filter (sameKey k) events) /\
  concat groups = sorted /\
  (forall g, In g groups ->
             exists a rest,
               g = a :: rest /\
               forall e, In e rest -> (Qabs (onset e - onset a) <= w)%Q) /\
  (forall k g g',
      groups !! k = Some g -> groups !! S k = Some g' ->
      exists a rest a' rest',
        g = a :: rest /\ g' = a' :: rest' /\ ~ (Qabs (onset a' - onset a) <= w)%Q) /\
  defaultWindow == (50 # 1000) /\
  length chords = length groups /\
  (forall k g,
      groups !! k = Some g ->
      exists c,
        chords !! k = Some c /\
        chordTime c = anchorOf g /\
        NoDup (chordPitches c) /\
        (forall p, In p (chordPitches c) <-> In p (map pitch g)) /\
        sublist (chordNotes c) g) /\
  (forall c, In c chords -> (1 <= length (chordPitches c))%nat).
Proof.
  intros sorted groups chords.
  assert (Forall (fun g => exists a rest,
                      g = a :: rest /\
                      Forall (fun e => withinWindow w (onset a) (onset e) = true) rest)
                 groups) as Hgroups.
  { subst groups. unfold groupEvents. destruct (sortEvents events) as [|e rest]; [constructor|].
    apply sweep_groups. constructor. }
  split_and!.
  - apply sortEvents_perm.
  - apply sortEvents_sorted.
  - intros k. apply sortEvents_stable.
  - apply groupEvents_concat.
  - intros g Hg. rewrite Forall_forall in Hgroups.
    destruct (Hgroups g (proj2 (list_elem_of_In _ _) Hg)) as (a & rest & -> & Hrest).
    exists a, rest. split; [done|]. intros e He. rewrite Forall_forall in Hrest.
    apply withinWindow_spec, Hrest. by apply list_elem_of_In.
  - intros k g g' Hk Hk'.
    assert (withinWindow w (anchorOf g) (anchorOf g') = false) as Hout.
    { subst groups. unfold groupEvents in *.
      destruct (sortEvents events) as [|e rest]; [done|]. by eapply sweep_boundary. }
    rewrite Forall_forall in Hgroups.
    destruct (Hgroups g (list_elem_of_lookup_2 _ _ _ Hk)) as (a & rest & -> & _).
    destruct (Hgroups g' (list_elem_of_lookup_2 _ _ _ Hk')) as (a' & rest' & -> & _).
    exists a, rest, a', rest'. split_and!; [done|done|]. simpl in Hout.
    rewrite <- withinWindow_spec. by rewrite Hout.
  - reflexivity.
  - subst chords. unfold chordGrouper. by rewrite length_map.
  - intros k g Hk. exists (makeChord g). subst chords groups. unfold chordGrouper.
    rewrite lookup_map, Hk. split_and!; [done|done| | |].
    + apply collapse_NoDup.
    + intros p. unfold chordPitches. simpl. rewrite collapse_pitches. simpl. tauto.
    + apply collapse_sublist.
  - intros c Hc. subst chords. unfold chordGrouper in Hc.
    apply in_map_iff in Hc as (g & <- & Hg). rewrite Forall_forall in Hgroups.
    destruct (Hgroups g (proj2 (list_elem_of_In _ _) Hg)) as (a & rest & -> & _).
    unfold chordPitches. simpl. lia.
Qed.

End GrouperFacts.

(** ** Fret-Assignment Solver *)

Section SolverFacts.

Import Core.

Lemma candidateOn_spec (r : FretRange) (p : Pitch) (s : StringSpec) (c : Candidate) :
  candidateOn r p s = Some c <->
  c = {| candPitch := p; candString := index s; candFret := p - openPitch s |} /\
  0 <= p - openPitch s /\ fretMin r <= p - openPitch s <= fretMax r.
Proof.
  unfold candidateOn, fretsFor.
  destruct (Z.ltb_spec p (openPitch s)), (Z.ltb_spec (fretMax r) (p - openPitch s)); simpl;
    try (split; [done | intros (_ & ? & ?); lia]).
  destruct (Z.leb_spec (fretMin r) (p - openPitch s)).
  - split; [intros [= <-] | intros [-> _]]; [split_and!|]; (done || lia).
  - split; [done | intros (_ & ? & ?); lia].
Qed.

Lemma in_candidatesFor (t : Tuning) (r : FretRange) (p : Pitch) (c : Candidate) :
  In c (candidatesFor t r p) <-> exists s, In s t /\ candidateOn r p s = Some c.
Proof.
  unfold candidatesFor. rewrite <- list_elem_of_In, list_elem_of_omap.
  by setoid_rewrite list_elem_of_In.
Qed.

(** The search space is exactly the set of complete assignments: one
    candidate for each pitch, in order, no string used twice. *)
Lemma in_assignments (t : Tuning) (r : FretRange) (pitches : list Pitch) :
  forall used a,
    In a (assignments t r pitches used) <->
    Forall2 (fun p c => In c (candidatesFor t r p)) pitches a /\
    NoDup (map candString a) /\
    (forall c, In c a -> ~ In (candString c) used).
Proof.
  induction pitches as [|p ps IH]; intros used a; simpl.
  - split.
    + intros [<-|[]]. split_and!; [constructor|constructor|done].
    + intros (H & _). inversion H. by left.
  - rewrite in_flat_map. split.
    + intros (c & Hc & Ha). apply List.filter_In in Hc as [Hc Hfree].
      apply negb_true_iff, bool_decide_eq_false in Hfree. rewrite list_elem_of_In in Hfree.
      apply in_map_iff in Ha as (a' & <- & Ha'). apply IH in Ha' as (Hall & Hnd & Hused).
      split_and!.
      * by constructor.
      * simpl. constructor; [|done]. rewrite list_elem_of_In. intros Hin.
        apply in_map_iff in Hin as (c' & Heq & Hc'). apply (Hused c' Hc'). left. done.
      * intros c' [<-|Hc']; [done|]. intros Hin. apply (Hused c' Hc'). by right.
    + intros (Hall & Hnd & Hused). inversion Hall as [|p' c ps' a' Hc Hall' E1 E2]; subst.
      simpl in Hnd. inversion Hnd as [|x l Hx Hnd']; subst.
      exists c. split.
      * apply List.filter_In. split; [done|].
        apply negb_true_iff, bool_decide_eq_false. rewrite list_elem_of_In.
        apply Hused. by left.
      * apply in_map. apply IH. split_and!; [done|done|].
        intros c' Hc' [Heq|Hin].
        -- apply Hx. rewrite Heq. by apply list_elem_of_In, in_map.
        -- apply (Hused c'); [by right|done].
Qed.

Lemma assignment_pitches (t : Tuning) (r : FretRange) (pitches : list Pitch)
      (used : list nat) (a : list Candidate) :
  In a (assignments t r pitches used) -> map candPitch a = pitches.
Proof.
  intros H. apply in_assignments in H as (Hall & _).
  induction Hall as [|p c ps a' Hc Hall IH]; simpl; [done|].
  rewrite IH. apply in_candidatesFor in Hc as (s & _ & Hc).
  apply candidateOn_spec in Hc as (-> & _). done.
Qed.

Lemma lexCompare_antisym (a b : list nat) :
  lexCompare b a = CompOpp (lexCompare a b).
Proof.
  revert b. induction a as [|x a IH]; intros [|y b]; simpl; try done.
  rewrite (Nat.compare_antisym x y). destruct (x ?= y)%nat; simpl; auto.
Qed.

Lemma lexCompare_trans (a b c : list nat) :
  lexCompare a b <> Gt -> lexCompare b c <> Gt -> lexCompare a c <> Gt.
Proof.
  revert b c. induction a as [|x a IH]; intros [|y b] [|z c]; simpl; try done.
  destruct (Nat.compare_spec x y), (Nat.compare_spec y z), (Nat.compare_spec x z);
    try done; try lia; eauto.
Qed.

Lemma lexCompare_refl (a : list nat) : lexCompare a a = Eq.
Proof.
  induction a as [|x a IH]; simpl; [done|]. by rewrite Nat.compare_refl.
Qed.

Lemma lexCompare_eq (a b : list nat) : lexCompare a b = Eq -> a = b.
Proof.
  revert b. induction a as [|x a IH]; intros [|y b]; simpl; try done.
  destruct (Nat.compare_spec x y) as [->| |]; try done. intros H. f_equal. by apply IH.
Qed.

Lemma lexCompare_lt_trans (a b c : list nat) :
  lexCompare a b = Lt -> lexCompare b c = Lt -> lexCompare a c = Lt.
Proof.
  revert b c. induction a as [|x a IH]; intros [|y b] [|z c]; simpl; try done.
  destruct (Nat.compare_spec x y), (Nat.compare_spec y z), (Nat.compare_spec x z);
    try done; try lia; eauto.
Qed.



Lemma tieCompare_antisym (a b : list Candidate) :
  tieCompare b a = CompOpp (tieCompare a b).
Proof.
  unfold tieCompare. rewrite (lexCompare_antisym (stringsUsed a) (stringsUsed b)).
  destruct (lexCompare (stringsUsed a) (stringsUsed b)); simpl; [|done|done].
  apply lexCompare_antisym.
Qed.

Lemma tieCompare_refl (a : list Candidate) : tieCompare a a = Eq.
Proof. unfold tieCompare. by rewrite !lexCompare_refl. Qed.

Lemma tieCompare_trans (a b c : list Candidate) :
  tieCompare a b <> Gt -> tieCompare b c <> Gt -> tieCompare a c <> Gt.
Proof.
  unfold tieCompare.
  destruct (lexCompare (stringsUsed a) (stringsUsed b)) eqn:Hab; [| |done].
  - apply lexCompare_eq in Hab as ->.
    destruct (lexCompare (stringsUsed b) (stringsUsed c)); [|done|done].
    apply lexCompare_trans.
  - intros _. destruct (lexCompare (stringsUsed b) (stringsUsed c)) eqn:Hbc; [| |done].
    + apply lexCompare_eq in Hbc as <-. by rewrite Hab.
    + by rewrite (lexCompare_lt_trans _ _ _ Hab Hbc).
Qed.

(** [a] is at least as good as [b]: cheaper, or as cheap and not behind
    in the tie-break. *)
Lemma preferred_false (cfg : Config) (previous : HandPosition) (a b : list Candidate) :
  preferred cfg previous b a = false <->
  (cost cfg previous a < cost cfg previous b)%Q \/
  ((cost cfg previous a == cost cfg previous b)%Q /\ tieCompare a b <> Gt).
Proof.
  unfold preferred. rewrite (tieCompare_antisym a b).
  destruct (Qcompare_spec (cost cfg previous b) (cost cfg previous a)) as [Heq|Hlt|Hgt].
  - destruct (tieCompare a b); simpl; split; try done.
    + intros _. right. split; [by symmetry | done].
    + intros _. right. split; [by symmetry | done].
    + intros [H|[_ H]]; [|done]. rewrite Heq in H. by apply Qlt_irrefl in H.
  - split; [done|]. intros [H|[H _]].
    + exfalso. apply (Qlt_irrefl (cost cfg previous a)). by eapply Qlt_trans.
    + rewrite H in Hlt. by apply Qlt_irrefl in Hlt.
  - split; auto.
Qed.

Lemma preferred_refl (cfg : Config) (previous : HandPosition) (a : list Candidate) :
  preferred cfg previous a a = false.
Proof.
  apply preferred_false. right. split; [reflexivity|]. by rewrite tieCompare_refl.
Qed.

Lemma preferred_asym (cfg : Config) (previous : HandPosition) (a b : list Candidate) :
  preferred cfg previous a b = true -> preferred cfg previous b a = false.
Proof.
  intros H. apply preferred_false.
  unfold preferred in H.
  destruct (Qcompare_spec (cost cfg previous a) (cost cfg previous b)) as [Heq|Hlt|Hgt];
    [|by left|done].
  right. split; [done|]. by destruct (tieCompare a b).
Qed.

Lemma preferred_trans (cfg : Config) (previous : HandPosition) (a b c : list Candidate) :
  preferred cfg previous b a = false ->
  preferred cfg previous c b = false ->
  preferred cfg previous c a = false.
Proof.
  rewrite !preferred_false. intros [Hab|[Hab Kab]] [Hbc|[Hbc Kbc]].
  - left. by eapply Qlt_trans.
  - left. by rewrite <- Hbc.
  - left. by rewrite Hab.
  - right. split; [by rewrite Hab|]. by eapply tieCompare_trans.
Qed.

Lemma selectBest_in (cfg : Config) (previous : HandPosition) (rest : list (list Candidate)) :
  forall best, In (selectBest cfg previous best rest) (best :: rest).
Proof.
  induction rest as [|a rest IH]; intros best; simpl; [by left|].
  destruct (IH (if preferred cfg previous a best then a else best)) as [H|H].
  - rewrite <- H. destruct (preferred cfg previous a best); auto.
  - auto.
Qed.

Lemma selectBest_least (cfg : Config) (previous : HandPosition) (rest : list (list Candidate)) :
  forall best b,
    In b (best :: rest) ->
    preferred cfg previous b (selectBest cfg previous best rest) = false.
Proof.
  induction rest as [|a rest IH]; intros best b; simpl.
  - intros [<-|[]]. apply preferred_refl.
  - set (nb := if preferred cfg previous a best then a else best).
    assert (preferred cfg previous best nb = false /\ preferred cfg previous a nb = false)
      as [Hbest Ha].
    { subst nb. destruct (preferred cfg previous a best) eqn:Hp.
      - split; [by apply preferred_asym | apply preferred_refl].
      - split; [apply preferred_refl | done]. }
    pose proof (IH nb nb (or_introl eq_refl)) as Hnb.
    intros [<-|[<-|Hin]].
    + by eapply preferred_trans.
    + by eapply preferred_trans.
    + apply IH. by right.
Qed.




Lemma insertByPriority_perm (e : NoteEvent) (l : list NoteEvent) :
  Permutation (insertByPriority e l) (e :: l).
Proof.
  induction l as [|x l IH]; simpl; [done|].
  destruct (priorityLeb e x); [done|]. rewrite IH. apply perm_swap.
Qed.

Lemma sortByPriority_perm (notes : list NoteEvent) :
  Permutation (sortByPriority notes) notes.
Proof.
  induction notes as [|e l IH]; simpl; [done|].
  rewrite insertByPriority_perm. by constructor.
Qed.



Lemma without_nil (notes : list NoteEvent) : without [] notes = notes.
Proof.
  unfold without. induction notes as [|x l IH]; simpl in *; [done|]. by f_equal.
Qed.

Lemma without_removeNote (n : NoteEvent) (gone notes : list NoteEvent) :
  without gone (removeNote n notes) = without (n :: gone) notes.
Proof.
  unfold without, removeNote. induction notes as [|x l IH]; simpl; [done|].
  destruct (pitch x =? pitch n); simpl; rewrite IH; done.
Qed.

Lemma in_without (gone notes : list NoteEvent) (x : NoteEvent) :
  In x (without gone notes) <->
  In x notes /\ ~ In (pitch x) (map pitch gone).
Proof.
  unfold without. rewrite List.filter_In, negb_true_iff.
  assert (existsb (fun n => pitch x =? pitch n) gone = true
          <-> In (pitch x) (map pitch gone)) as Hex.
  { rewrite existsb_exists, in_map_iff. split.
    - intros (n & Hn & Heq). apply Z.eqb_eq in Heq. eauto.
    - intros (n & Heq & Hn). exists n. split; [done|]. by apply Z.eqb_eq. }
  destruct (existsb _ gone); intuition congruence.
Qed.

Lemma feasible_nil (t : Tuning) (r : FretRange) : feasible t r [] = true.
Proof. reflexivity. Qed.

(** The drop loop removes a prefix of the priority order, the shortest
    one that leaves a feasible remainder. *)
Lemma dropLoop_spec (t : Tuning) (r : FretRange) (order : list NoteEvent) :
  forall notes kept k,
    dropLoop t r order notes = (kept, k) ->
    (k <= length order)%nat /\
    kept = without (take k order) notes /\
    (forall j, (j < k)%nat -> feasible t r (without (take j order) notes) = false) /\
    (feasible t r kept = true \/ k = length order).
Proof.
  induction order as [|n order IH]; intros notes kept k; simpl.
  - destruct (feasible t r notes) eqn:Hf; intros [= <- <-]; simpl;
      rewrite without_nil; split_and!; auto; intros; lia.
  - destruct (feasible t r notes) eqn:Hf.
    + intros [= <- <-]. simpl. rewrite without_nil. split_and!; auto; [lia|intros; lia].
    + destruct (dropLoop t r order (removeNote n notes)) as [kept' k'] eqn:Hrec.
      intros [= <- <-]. destruct (IH _ _ _ Hrec) as (Hk & Hkept & Hmin & Hfin).
      simpl. rewrite <- without_removeNote. split_and!.
      * lia.
      * done.
      * intros [|j] Hj; simpl; [by rewrite without_nil|].
        rewrite <- without_removeNote. apply Hmin. lia.
      * destruct Hfin as [?| ->]; auto.
Qed.

Lemma filter_split_perm {A : Type} (f : A -> bool) (l : list A) :
  Permutation (List.filter (fun x => negb (f x)) l ++ List.filter f l) l.
Proof.
  induction l as [|x l IH]; simpl; [done|]. destruct (f x); simpl.
  - rewrite <- Permutation_middle. by constructor.
  - by constructor.
Qed.

(** The drop order lists every note of the chord once. *)
Lemma dropOrder_perm (t : Tuning) (r : FretRange) (notes : list NoteEvent) :
  Permutation (dropOrder t r notes) notes.
Proof.
  unfold dropOrder. rewrite !sortByPriority_perm. apply filter_split_perm.
Qed.

Lemma dropUnplayable_feasible (t : Tuning) (r : FretRange) (notes kept : list NoteEvent) (k : nat) :
  dropUnplayable t r notes = (kept, k) -> feasible t r kept = true.
Proof.
  unfold dropUnplayable. intros H.
  destruct (dropLoop_spec _ _ _ _ _ _ H) as (Hk & Hkept & _ & [Hf| ->]); [done|].
  rewrite firstn_all in Hkept.
  assert (kept = []) as ->; [|apply feasible_nil].
  destruct kept as [|x l]; [done|]. exfalso.
  assert (In x (without (dropOrder t r notes) notes)) as Hx by (rewrite <- Hkept; by left).
  apply in_without in Hx as [Hin Hout]. apply Hout, in_map.
  by apply (Permutation_in _ (Permutation_sym (dropOrder_perm t r notes))).
Qed.






Lemma assignments_nonempty (t : Tuning) (r : FretRange) (notes : list NoteEvent) :
  feasible t r notes = true -> assignments t r (map pitch notes) [] <> [].
Proof. unfold feasible. by destruct (assignments t r (map pitch notes) []). Qed.


(** The Candidate invariant: on the standard tuning the string and fret
    of a candidate sound its pitch. *)
Lemma candidate_invariant (r : FretRange) (p : Pitch) (c : Candidate) :
  In c (candidatesFor standardTuning r p) ->
  candPitch c = p /\
  pitchFor standardTuning (candString c) (candFret c) = Some p /\
  fretMin r <= candFret c <= fretMax r.
Proof.
  intros Hc. apply in_candidatesFor in Hc as (s & Hs & Hc).
  apply candidateOn_spec in Hc as (-> & H0 & Hr). simpl.
  split_and!; [done| |lia|lia].
  unfold pitchFor, standardTuning in *. simpl in Hs.
  repeat (destruct Hs as [<-|Hs]; [simpl; f_equal; lia|]). done.
Qed.

(** What [solveChord] returns, in terms of the spec's steps. *)
Lemma solveChord_spec (cfg : Config) (t : Tuning) (previous : HandPosition) (c : Chord) :
  let s := solveChord cfg t previous c in
  let order := dropOrder t (fretRange cfg) (chordNotes c) in
  let space := assignments t (fretRange cfg) (map pitch (retained s)) [] in
  solvedTime s = chordTime c /\
  (dropped s <= length order)%nat /\
  retained s = without (take (dropped s) order) (chordNotes c) /\
  (forall j, (j < dropped s)%nat ->
             feasible t (fretRange cfg) (without (take j order) (chordNotes c)) = false) /\
  feasible t (fretRange cfg) (retained s) = true /\
  In (assignment s) space /\
  (forall b, In b space -> preferred cfg previous b (assignment s) = false) /\
  hand s = {| center := centerFret previous (assignment s) |}.
Proof.
  unfold solveChord.
  destruct (dropUnplayable t (fretRange cfg) (chordNotes c)) as [kept k] eqn:Hdrop.
  pose proof (dropUnplayable_feasible _ _ _ _ _ Hdrop) as Hfeas.
  pose proof (assignments_nonempty _ _ _ Hfeas) as Hne.
  unfold dropUnplayable in Hdrop. apply dropLoop_spec in Hdrop as (Hk & Hkept & Hmin & _).
  destruct (assignments t (fretRange cfg) (map pitch kept) []) as [|a rest] eqn:Hspace;
    [done|].
  simpl. rewrite Hspace. split_and!; try done.
  - apply selectBest_in.
  - apply selectBest_least.
Qed.

Lemma assignment_candidates (t : Tuning) (r : FretRange) (pitches : list Pitch)
      (used : list nat) (a : list Candidate) (c : Candidate) :
  In a (assignments t r pitches used) -> In c a ->
  In (candPitch c) pitches /\
  exists s, In s t /\ candString c = index s /\
            candFret c = candPitch c - openPitch s /\
            0 <= candFret c /\ fretMin r <= candFret c <= fretMax r.
Proof.
  intros Ha Hc. apply in_assignments in Ha as (Hall & _). revert Hc.
  induction Hall as [|p c' ps a' Hc' Hall IH]; simpl; [done|].
  intros [<-|Hc].
  - apply in_candidatesFor in Hc' as (s & Hs & Hc').
    apply candidateOn_spec in Hc' as (-> & H0 & Hr). simpl.
    split; [by left|]. exists s. split_and!; (done || lia).
  - destruct (IH Hc) as [Hin Hs]. split; [by right | done].
Qed.

Lemma fretOnString_spec (a : list Candidate) (i : nat) :
  fretOnString a i = -1 \/
  exists c, In c a /\ candString c = i /\ candFret c = fretOnString a i.
Proof.
  unfold fretOnString. destruct (List.find _ a) as [c|] eqn:Hfind; [right|by left].
  apply find_some in Hfind as [Hin Heq]. apply Nat.eqb_eq in Heq. eauto.
Qed.

Lemma buildEntry_slot (s : Solved) (i : nat) (f : Z) :
  TabPreview.strings (buildEntry s) !! i = Some f <->
  (i < 6)%nat /\ f = fretOnString (assignment s) i.
Proof.
  unfold buildEntry. cbn [TabPreview.strings]. rewrite lookup_map.
  destruct (seq 0 6 !! i) as [j|] eqn:Hi; simpl.
  - apply lookup_seq in Hi as [-> Hi]. simpl. split; [intros [= <-]; done | by intros [_ ->]].
  - split; [done|]. intros [Hlt _]. rewrite lookup_seq_lt in Hi; done.
Qed.

Lemma solvePiece_length (cfg : Config) (t : Tuning) (chords : list Chord) :
  forall previous, length (solvePiece cfg t previous chords) = length chords.
Proof.
  induction chords as [|c l IH]; intros previous; simpl; [done|]. by rewrite IH.
Qed.

(** The k-th solved chord is the solution of the k-th chord, for the
    hand position reached before it. *)
Lemma solvePiece_lookup (cfg : Config) (t : Tuning) (chords : list Chord) :
  forall previous k c,
    chords !! k = Some c ->
    exists before, solvePiece cfg t previous chords !! k = Some (solveChord cfg t before c).
Proof.
  induction chords as [|c' l IH]; intros previous k c; [done|].
  destruct k as [|k]; simpl.
  - intros [= <-]. eauto.
  - apply IH.
Qed.

Lemma solvePiece_in (cfg : Config) (t : Tuning) (chords : list Chord) :
  forall previous s,
    In s (solvePiece cfg t previous chords) ->
    exists before c, In c chords /\ s = solveChord cfg t before c.
Proof.
  induction chords as [|c l IH]; intros previous s; simpl; [done|].
  intros [<-|Hin]; [by eauto|].
  destruct (IH _ _ Hin) as (before & c' & Hc' & ->). eauto.
Qed.

Lemma standardTuning_open (s : StringSpec) :
  In s standardTuning -> TabPreview.stringTuning !! index s = Some (openPitch s).
Proof.
  unfold standardTuning. simpl. intros H.
  repeat (destruct H as [<-|H]; [reflexivity|]). done.
Qed.

End SolverFacts.

(** ** The whole pipeline *)

Section PipelineFacts.

Import Core.

Lemma process_ok (cfg : Config) (events : list NoteEvent) (out : Output) :
  process cfg events = Ok out <->
  tuningFor (tuningName cfg) = Some standardTuning /\
  validValues cfg = true /\
  out = tabSequenceBuilder (solved cfg standardTuning events).
Proof.
  unfold process, tuningFor.
  destruct (String.eqb (tuningName cfg) "Standard"), (validValues cfg);
    split; try done; try (intros [= <-]; done); try (by intros (_ & _ & ->));
    by intros (? & ? & _).
Qed.

Lemma validValues_range (cfg : Config) :
  validValues cfg = true ->
  0 <= fretMin (fretRange cfg) /\ fretMax (fretRange cfg) <= 24.
Proof.
  unfold validValues. rewrite !andb_true_iff, !Z.leb_le. tauto.
Qed.

(** The frets the display makes visible are the played frets of the
    tablature, in order. *)
Lemma chordLabels_frets (chordIndex : nat) (l : list Z) :
  forall i,
    omap (fun o => TabPreview.labelFret <$> o)
         (mapFrom (fun fret stringIndex =>
                     if TabPreview.played fret
                     then Some (TabPreview.mkFretLabel chordIndex stringIndex fret)
                     else None) l i)
    = List.filter TabPreview.played l.
Proof.
  induction l as [|x l IH]; intros i; simpl; [done|].
  rewrite IH. by destruct (TabPreview.played x).
Qed.

Lemma visibleFrets_played (tabData : list TabPreview.TabEntry) :
  TabPreview.visibleFrets tabData = TabPreview.playedFrets tabData.
Proof.
  unfold TabPreview.visibleFrets, TabPreview.TablatureDisplay, TabPreview.playedFrets, mapi.
  generalize 0%nat. induction tabData as [|c l IH]; intros i; simpl; [done|].
  rewrite omap_app, List.filter_app, IH. f_equal.
  unfold TabPreview.chordLabels, mapi. apply chordLabels_frets.
Qed.

Lemma solved_lookup (cfg : Config) (t : Tuning) (events : list NoteEvent) (k : nat) (s : Solved) :
  solved cfg t events !! k = Some s ->
  exists before c,
    chordGrouper (window cfg) events !! k = Some c /\ s = solveChord cfg t before c.
Proof.
  unfold solved. intros Hs.
  assert (k < length (chordGrouper (window cfg) events))%nat as Hk.
  { rewrite <- (solvePiece_length cfg t _ initialHand). by eapply lookup_lt_Some. }
  apply lookup_lt_is_Some in Hk as [c Hc].
  destruct (solvePiece_lookup cfg t _ initialHand k c Hc) as [before Hb].
  exists before, c. split; [done|]. congruence.
Qed.

Lemma chord_from_group (w : Q) (events : list NoteEvent) (k : nat) (c : Chord) :
  chordGrouper w events !! k = Some c ->
  exists g, groupEvents w events !! k = Some g /\ c = makeChord g.
Proof.
  unfold chordGrouper. rewrite lookup_map.
  destruct (groupEvents w events !! k) as [g|]; simpl; [|done].
  intros [= <-]. eauto.
Qed.

Lemma group_events (w : Q) (events : list NoteEvent) (k : nat) (g : list NoteEvent) (e : NoteEvent) :
  groupEvents w events !! k = Some g -> In e g -> In e events.
Proof.
  intros Hg He. apply (Permutation_in _ (sortEvents_perm events)).
  rewrite <- (groupEvents_concat w events).
  apply in_concat. exists g. split; [|done].
  apply list_elem_of_In. by eapply list_elem_of_lookup_2.
Qed.


Lemma chord_notes_events (w : Q) (events : list NoteEvent) (k : nat) (c : Chord) (e : NoteEvent) :
  chordGrouper w events !! k = Some c -> In e (chordNotes c) -> In e events.
Proof.
  intros Hc He. apply chord_from_group in Hc as (g & Hg & ->).
  apply collapse_in in He as [He _]. by eapply group_events.
Qed.

(** The slots of a solved chord's entry: six of them, each either -1 or
    the fret of a candidate of the assignment on that string. *)
Lemma entry_slots (cfg : Config) (t : Tuning) (before : HandPosition) (c : Chord)
      (i : nat) (f : Z) :
  TabPreview.strings (buildEntry (solveChord cfg t before c)) !! i = Some f ->
  f = -1 \/
  exists cand st,
    In cand (assignment (solveChord cfg t before c)) /\
    candString cand = i /\ candFret cand = f /\
    In (candPitch cand) (map pitch (retained (solveChord cfg t before c))) /\
    In st t /\ i = index st /\ openPitch st + f = candPitch cand /\
    0 <= f /\ fretMin (fretRange cfg) <= f <= fretMax (fretRange cfg).
Proof.
  intros Hf. apply buildEntry_slot in Hf as [_ ->].
  destruct (fretOnString_spec (assignment (solveChord cfg t before c)) i)
    as [H|(cand & Hin & Hi & Hfret)]; [by left|right].
  destruct (solveChord_spec cfg t before c) as (_ & _ & _ & _ & _ & Hspace & _).
  destruct (assignment_candidates _ _ _ _ _ _ Hspace Hin)
    as (Hp & st & Hst & Hidx & Hfr & H0 & Hr).
  exists cand, st. rewrite <- Hfret. split_and!; try done; (congruence || lia).
Qed.

(** C4. In every tablature the core produces, every entry has six
    slots and every slot holds -1 or a fret between 0 and 24; so every
    fret the display shows is at most 24. *)
Theorem fret_range_invariant (cfg : Config) (events : list NoteEvent) (out : Output) :
  process cfg events = Ok out ->
  (forall entry,
      In entry (tab out) ->
      length (TabPreview.strings entry) = 6%nat /\
      forall f, In f (TabPreview.strings entry) -> f = -1 \/ 0 <= f <= 24) /\
  (forall f, In f (TabPreview.visibleFrets (tab out)) -> 0 <= f <= 24).
Proof.
  intros Hout. apply process_ok in Hout as (_ & Hvalid & ->).
  apply validValues_range in Hvalid as [Hlo Hhi].
  assert (forall entry,
             In entry (tab (tabSequenceBuilder (solved cfg standardTuning events))) ->
             length (TabPreview.strings entry) = 6%nat /\
             forall f, In f (TabPreview.strings entry) -> f = -1 \/ 0 <= f <= 24) as Hentries.
  { intros entry Hentry. cbn [tabSequenceBuilder tab] in Hentry.
    apply in_map_iff in Hentry as (s & <- & Hs).
    apply solvePiece_in in Hs as (before & c & _ & ->).
    split; [reflexivity|]. intros f Hf. apply list_elem_of_In in Hf.
    apply list_elem_of_lookup in Hf as [i Hi].
    destruct (entry_slots _ _ _ _ _ _ Hi) as [?|(cand & st & _ & _ & _ & _ & _ & _ & _ & H0 & Hr)];
      [by left | right; lia]. }
  split; [done|]. intros f Hf. rewrite visibleFrets_played in Hf.
  apply in_playedFrets in Hf as (entry & Hentry & Hin & H0).
  destruct (Hentries entry Hentry) as [_ Hslots].
  destruct (Hslots f Hin); lia.
Qed.

(** C5. Pitch fidelity: for every slot of an output entry that holds a
    fret of at least 0, the open pitch of that string plus the fret is the
    pitch of a note of the input that the chord of that entry retains. *)
Theorem pitch_fidelity (cfg : Config) (events : list NoteEvent) (out : Output) :
  process cfg events = Ok out ->
  forall k entry i f,
    tab out !! k = Some entry ->
    TabPreview.strings entry !! i = Some f ->
    0 <= f ->
    exists open note chord s,
      TabPreview.stringTuning !! i = Some open /\
      chordGrouper (window cfg) events !! k = Some chord /\
      solved cfg standardTuning events !! k = Some s /\
      In note events /\ In note (chordNotes chord) /\ In note (retained s) /\
      open + f = pitch note.
Proof.
  intros Hout k entry i f Hentry Hslot Hf. apply process_ok in Hout as (_ & _ & ->).
  cbn [tabSequenceBuilder tab] in Hentry. rewrite lookup_map in Hentry.
  destruct (solved cfg standardTuning events !! k) as [s|] eqn:Hs; [|done].
  injection Hentry as <-.
  destruct (solved_lookup _ _ _ _ _ Hs) as (before & c & Hc & ->).
  destruct (entry_slots _ _ _ _ _ _ Hslot)
    as [?|(cand & st & _ & _ & _ & Hp & Hst & -> & Hsum & _)]; [lia|].
  apply in_map_iff in Hp as (note & Hnote & Hret).
  exists (openPitch st), note, c, (solveChord cfg standardTuning before c).
  assert (In note (chordNotes c)) as Hin.
  { destruct (solveChord_spec cfg standardTuning before c) as (_ & _ & Heq & _).
    rewrite Heq in Hret. by apply in_without in Hret as [? _]. }
  split_and!; try done.
  - by apply standardTuning_open.
  - by eapply chord_notes_events.
  - congruence.
Qed.
























(** C2. With a valid configuration the empty note list is not an
    error: the grouper yields no chord, the output is the empty tablature
    with no drop counts, and its statistics, those [getTabStats] computes
    for the empty tablature, are 0 chords, 0 notes, 0 strings used and no
    fret range. *)
Theorem empty_input (cfg : Config) :
  tuningFor (tuningName cfg) = Some standardTuning ->
  validValues cfg = true ->
  chordGrouper (window cfg) [] = [] /\
  process cfg [] =
    Ok {| tab := [];
          droppedCounts := [];
          statistics := TabPreview.getTabStats (Some []) |} /\
  TabPreview.getTabStats (Some []) =
    Some {| TabPreview.totalChords := 0;
            TabPreview.totalNotes := 0;
            TabPreview.usedStrings := 0;
            TabPreview.fretRange := None |}.
Proof.
  intros Htuning Hvalid. split_and!.
  - reflexivity.
  - apply process_ok. split_and!; done.
  - reflexivity.
Qed.

(** ** The scenarios of section 8, run *)

Example scenario_single :
  process exampleConfig scenarioSingle =
  Ok {| tab := [ {| TabPreview.time := 0%Q; TabPreview.strings := [-1; 1; -1; -1; -1; -1] |} ];
        droppedCounts := [0%nat];
        statistics :=
          Some {| TabPreview.totalChords := 1; TabPreview.totalNotes := 1;
                  TabPreview.usedStrings := 1;
                  TabPreview.fretRange :=
                    Some {| TabPreview.min := Num 1; TabPreview.max := Num 1 |} |} |}.
Proof. vm_compute. reflexivity. Qed.

Example scenario_triad :
  process exampleConfig scenarioTriad =
  Ok {| tab := [ {| TabPreview.time := 0%Q; TabPreview.strings := [3; 5; 5; -1; -1; -1] |} ];
        droppedCounts := [0%nat];
        statistics :=
          Some {| TabPreview.totalChords := 1; TabPreview.totalNotes := 3;
                  TabPreview.usedStrings := 3;
                  TabPreview.fretRange :=
                    Some {| TabPreview.min := Num 3; TabPreview.max := Num 5 |} |} |}.
Proof. vm_compute. reflexivity. Qed.

Example scenario_unplayable :
  process exampleConfig scenarioUnplayable =
  Ok {| tab := [ {| TabPreview.time := 0%Q; TabPreview.strings := [-1; 1; -1; -1; -1; -1] |} ];
        droppedCounts := [1%nat];
        statistics :=
          Some {| TabPreview.totalChords := 1; TabPreview.totalNotes := 1;
                  TabPreview.usedStrings := 1;
                  TabPreview.fretRange :=
                    Some {| TabPreview.min := Num 1; TabPreview.max := Num 1 |} |} |}.
Proof. vm_compute. reflexivity. Qed.

(** The same when the unplayable note is the louder one: it alone is
    dropped and the playable note is still assigned. *)
Example scenario_unplayable_loud :
  process exampleConfig scenarioUnplayableLoud =
  Ok {| tab := [ {| TabPreview.time := 0%Q; TabPreview.strings := [-1; 1; -1; -1; -1; -1] |} ];
        droppedCounts := [1%nat];
        statistics :=
          Some {| TabPreview.totalChords := 1; TabPreview.totalNotes := 1;
                  TabPreview.usedStrings := 1;
                  TabPreview.fretRange :=
                    Some {| TabPreview.min := Num 1; TabPreview.max := Num 1 |} |} |}.
Proof. vm_compute. reflexivity. Qed.

(** A loud unplayable note next to the open strings of five strings: the
    five are kept, on their strings. *)
Example scenario_unplayable_full :
  process exampleConfig scenarioUnplayableFull =
  Ok {| tab := [ {| TabPreview.time := 0%Q; TabPreview.strings := [0; 0; 0; 0; 0; -1] |} ];
        droppedCounts := [1%nat];
        statistics :=
          Some {| TabPreview.totalChords := 1; TabPreview.totalNotes := 5;
                  TabPreview.usedStrings := 5;
                  TabPreview.fretRange :=
                    Some {| TabPreview.min := Num 0; TabPreview.max := Num 0 |} |} |}.
Proof. vm_compute. reflexivity. Qed.

(** Two notes that only the lowest string reaches: each has a candidate,
    together they have no assignment, and the one of lower priority
    goes. *)
Example scenario_one_string :
  process exampleConfig scenarioOneString =
  Ok {| tab := [ {| TabPreview.time := 0%Q; TabPreview.strings := [-1; -1; -1; -1; -1; 1] |} ];
        droppedCounts := [1%nat];
        statistics :=
          Some {| TabPreview.totalChords := 1; TabPreview.totalNotes := 1;
                  TabPreview.usedStrings := 1;
                  TabPreview.fretRange :=
                    Some {| TabPreview.min := Num 1; TabPreview.max := Num 1 |} |} |}.
Proof. vm_compute. reflexivity. Qed.

(** ** Instances on the scenarios *)

Lemma empty_input_example :
  tuningFor (tuningName exampleConfig) = Some standardTuning /\
  validValues exampleConfig = true /\
  chordGrouper (window exampleConfig) [] = [] /\
  process exampleConfig [] =
    Ok {| tab := [];
          droppedCounts := [];
          statistics := TabPreview.getTabStats (Some []) |} /\
  TabPreview.getTabStats (Some []) =
    Some {| TabPreview.totalChords := 0;
            TabPreview.totalNotes := 0;
            TabPreview.usedStrings := 0;
            TabPreview.fretRange := None |}.
Proof.
  split; [reflexivity|]. split; [reflexivity|].
  apply (empty_input exampleConfig); reflexivity.
Defined.

Lemma fret_range_invariant_example :
  process exampleConfig scenarioTriad
  = Ok (tabSequenceBuilder (solved exampleConfig standardTuning scenarioTriad)) /\
  ((forall entry,
       In entry (tab (tabSequenceBuilder (solved exampleConfig standardTuning scenarioTriad))) ->
       length (TabPreview.strings entry) = 6%nat /\
       forall f, In f (TabPreview.strings entry) -> f = -1 \/ 0 <= f <= 24) /\
   (forall f,
       In f (TabPreview.visibleFrets
               (tab (tabSequenceBuilder (solved exampleConfig standardTuning scenarioTriad)))) ->
       0 <= f <= 24)).
Proof.
  split; [reflexivity|].
  apply (fret_range_invariant exampleConfig scenarioTriad). reflexivity.
Defined.

Lemma pitch_fidelity_example :
  process exampleConfig scenarioTriad
  = Ok (tabSequenceBuilder (solved exampleConfig standardTuning scenarioTriad)) /\
  tab (tabSequenceBuilder (solved exampleConfig standardTuning scenarioTriad)) !! 0%nat
  = Some {| TabPreview.time := 0%Q; TabPreview.strings := [3; 5; 5; -1; -1; -1] |} /\
  ([3; 5; 5; -1; -1; -1] : list Z) !! 1%nat = Some 5 /\
  0 <= 5 /\
  exists open note chord s,
    TabPreview.stringTuning !! 1%nat = Some open /\
    chordGrouper (window exampleConfig) scenarioTriad !! 0%nat = Some chord /\
    solved exampleConfig standardTuning scenarioTriad !! 0%nat = Some s /\
    In note scenarioTriad /\ In note (chordNotes chord) /\ In note (retained s) /\
    open + 5 = pitch note.
Proof.
  split; [reflexivity|]. split; [vm_compute; reflexivity|].
  split; [reflexivity|]. split; [lia|].
  apply (pitch_fidelity exampleConfig scenarioTriad
           (tabSequenceBuilder (solved exampleConfig standardTuning scenarioTriad))
           eq_refl 0%nat
           {| TabPreview.time := 0%Q; TabPreview.strings := [3; 5; 5; -1; -1; -1] |}
           1%nat 5).
  - vm_compute. reflexivity.
  - reflexivity.
  - lia.
Defined.


End PipelineFacts.

(** * Further properties of TabPreview.js *)

Section TabPreviewMore.

Import TabPreview.

Lemma in_mapFrom {A B : Type} (f : A -> nat -> B) (l : list A) (y : B) :
  forall i, In y (mapFrom f l i) <-> exists k x, l !! k = Some x /\ y = f x (i + k)%nat.
Proof.
  induction l as [|a l IH]; intros i; simpl.
  - split; [done|]. by intros ([|k] & x & H & _).
  - rewrite IH. split.
    + intros [<-|(k & x & Hk & ->)].
      * exists 0%nat, a. by rewrite Nat.add_0_r.
      * exists (S k), x. split; [done|]. f_equal. lia.
    + intros ([|k] & x & Hk & ->); simpl in Hk.
      * left. injection Hk as ->. by rewrite Nat.add_0_r.
      * right. exists k, x. split; [done|]. f_equal. lia.
Qed.

Lemma length_mapFrom {A B : Type} (f : A -> nat -> B) (l : list A) :
  forall i, length (mapFrom f l i) = length l.
Proof. induction l as [|a l IH]; intros i; simpl; [done|]. by rewrite IH. Qed.

Lemma length_omap_labels (labels : list (option FretLabel)) :
  length (omap (fun o => labelFret <$> o) labels) = length (omap id labels).
Proof.
  induction labels as [|[lab|] labels IH]; simpl in *; [done|by f_equal|done].
Qed.

(** The statistics in closed form. *)
Lemma getTabStats_fields (tabData : list TabEntry) :
  getTabStats (Some tabData)
  = Some {| totalChords := length tabData;
            totalNotes := length (playedFrets tabData);
            usedStrings := size (scanAll tabData).1;
            fretRange :=
              match playedFrets tabData with
              | [] => None
              | x :: l => Some {| min := Num (fold_left Z.min l x);
                                  max := Num (fold_left Z.max l x) |}
              end |}.
Proof.
  unfold getTabStats. destruct (scanAll tabData) as [used r] eqn:Hscan. simpl.
  unfold countNotes. rewrite countNotes_from. simpl. do 2 f_equal.
  assert (r = fold_left rangeStep (playedFrets tabData)
                        {| min := Infinity; max := NegInfinity |}) as ->.
  { change r with (used, r).2. rewrite <- Hscan. unfold scanAll.
    by rewrite scanAll_range_from. }
  destruct (playedFrets tabData) as [|x l]; simpl; [done|].
  change (rangeStep {| min := Infinity; max := NegInfinity |} x)
    with {| min := Num x; max := Num x |}.
  by rewrite rangeStep_numbers.
Qed.

Lemma scanAll_strings (tabData : list TabEntry) (k : nat) :
  k ∈ (scanAll tabData).1 <->
  exists chord f, In chord tabData /\ strings chord !! k = Some f /\ 0 <= f.
Proof.
  unfold scanAll. rewrite scanAll_strings_from. simpl.
  split; [intros [H|H]; [by apply not_elem_of_empty in H|done]|by right].
Qed.

(** X1. The display draws a fret label at chord [c], string [s] with
    fret [f] exactly when entry [c] of the data holds [f] in slot [s] and
    [f] is at least 0; it renders one element or [null] per slot. *)
Theorem TablatureDisplay_labels (tabData : list TabEntry) :
  exists labels,
    TablatureDisplay (Some tabData) = Some labels /\
    length labels = length (concat (map strings tabData)) /\
    forall c s f,
      In (Some {| labelChord := c; labelString := s; labelFret := f |}) labels <->
      exists chord, tabData !! c = Some chord /\ strings chord !! s = Some f /\ 0 <= f.
Proof.
  eexists. split; [reflexivity|]. unfold mapi. split.
  - generalize 0%nat. induction tabData as [|chord rest IH]; intros i; simpl; [done|].
    rewrite !length_app, IH. unfold chordLabels, mapi. by rewrite length_mapFrom.
  - intros c s f. rewrite in_concat. split.
    + intros (l & Hl & Hin). apply in_mapFrom in Hl as (k & chord & Hk & ->).
      unfold chordLabels, mapi in Hin. apply in_mapFrom in Hin as (j & x & Hj & Heq).
      unfold played in Heq. destruct (Z.leb_spec 0 x) as [Hx|Hx]; [|done].
      injection Heq as -> -> ->. simpl. eauto.
    + intros (chord & Hc & Hs & Hf). exists (chordLabels c chord). split.
      * apply in_mapFrom. exists c, chord. done.
      * unfold chordLabels, mapi. apply in_mapFrom. exists s, f. split; [done|].
        unfold played. destruct (Z.leb_spec 0 f); [done|lia].
Qed.

(** X2. What is drawn agrees with the statistics: the Notes figure is the
    number of fret labels drawn, and every label's fret lies within the
    fret range shown. *)
Theorem display_matches_statistics (tabData : list TabEntry) :
  exists labels stats,
    TablatureDisplay (Some tabData) = Some labels /\
    getTabStats (Some tabData) = Some stats /\
    length (omap id labels) = totalNotes stats /\
    forall label,
      In (Some label) labels ->
      exists r lo hi,
        fretRange stats = Some r /\ min r = Num lo /\ max r = Num hi /\
        lo <= labelFret label <= hi.
Proof.
  eexists. eexists. split; [reflexivity|]. split; [apply getTabStats_fields|].
  cbn [totalNotes fretRange]. split.
  - etrans; [symmetry; apply length_omap_labels|].
    change (omap _ _) with (visibleFrets tabData).
    by rewrite visibleFrets_played.
  - intros label Hlabel.
    assert (In (labelFret label) (visibleFrets tabData)) as Hin.
    { unfold visibleFrets, TablatureDisplay. apply list_elem_of_In, list_elem_of_omap.
      exists (Some label). split; [by apply list_elem_of_In|done]. }
    rewrite visibleFrets_played in Hin.
    destruct (playedFrets tabData) as [|x l]; [done|].
    destruct (fold_min_spec l x) as [_ Hle], (fold_max_spec l x) as [_ Hge].
    eexists _, _, _. split_and!; [reflexivity|reflexivity|reflexivity|auto|auto].
Qed.

Lemma scanSlots_size (l : list Z) :
  forall i st,
    (size (forEachFrom scanSlot l i st).1 <= size st.1 + length (List.filter played l))%nat.
Proof.
  induction l as [|x l IH]; intros i st; simpl; [lia|].
  etrans; [apply IH|]. unfold scanSlot. destruct (played x); simpl; [|lia].
  rewrite size_union_alt, size_singleton.
  assert (size (st.1 ∖ {[i]}) <= size st.1)%nat.
  { apply subseteq_size. intros k Hk. by apply elem_of_difference in Hk as [? _]. }
  lia.
Qed.

Lemma scanAll_size (tabData : list TabEntry) :
  forall st,
    (size (fold_left scanChord tabData st).1 <= size st.1 + length (playedFrets tabData))%nat.
Proof.
  induction tabData as [|c rest IH]; intros st; simpl; [lia|].
  etrans; [apply IH|]. unfold scanChord, forEach.
  pose proof (scanSlots_size (strings c) 0%nat st) as H.
  unfold playedFrets. simpl. rewrite List.filter_app, length_app.
  fold (playedFrets rest). lia.
Qed.

(** X3. The Strings Used figure never exceeds the Notes figure, nor the
    number of slots of the longest entry: with six-slot entries it is at
    most 6. *)
Theorem usedStrings_bounds (tabData : list TabEntry) :
  exists stats,
    getTabStats (Some tabData) = Some stats /\
    (usedStrings stats <= totalNotes stats)%nat /\
    forall n,
      (forall chord, In chord tabData -> (length (strings chord) <= n)%nat) ->
      (usedStrings stats <= n)%nat.
Proof.
  eexists. split; [apply getTabStats_fields|]. cbn [usedStrings totalNotes]. split.
  - pose proof (scanAll_size tabData (∅, {| min := Infinity; max := NegInfinity |})) as H.
    change (size (∅ : gset nat)) with 0%nat in H. exact H.
  - intros n Hn. rewrite <- (size_set_seq (C := gset nat) 0 n). apply subseteq_size.
    intros k Hk. apply scanAll_strings in Hk as (chord & f & Hc & Hk & _).
    apply elem_of_set_seq. split; [lia|]. apply lookup_lt_Some in Hk.
    specialize (Hn chord Hc). lia.
Qed.

(** X4. The fret range is absent exactly when the Notes figure is 0; when
    present both ends are numbers with 0 <= min <= max. *)
Theorem fretRange_presence (tabData : list TabEntry) :
  exists stats,
    getTabStats (Some tabData) = Some stats /\
    (fretRange stats = None <-> totalNotes stats = 0%nat) /\
    forall r,
      fretRange stats = Some r ->
      exists lo hi, min r = Num lo /\ max r = Num hi /\ 0 <= lo <= hi.
Proof.
  eexists. split; [apply getTabStats_fields|]. cbn [fretRange totalNotes].
  destruct (playedFrets tabData) as [|x l] eqn:Hplayed; simpl.
  - split; [done|]. by intros r.
  - split; [done|]. intros r [= <-]. eexists _, _. split_and!; try reflexivity.
    + destruct (fold_min_spec l x) as [Hin _].
      rewrite <- Hplayed in Hin. apply in_playedFrets in Hin as (_ & _ & _ & H). done.
    + destruct (fold_min_spec l x) as [_ Hle], (fold_max_spec l x) as [Hin _].
      by apply Hle.
Qed.

Lemma rangeStep_comm (r : FretRangeObj) (a b : Z) :
  rangeStep (rangeStep r a) b = rangeStep (rangeStep r b) a.
Proof.
  destruct r as [mn mx]. unfold rangeStep. simpl.
  destruct mn, mx; simpl; f_equal; f_equal; lia.
Qed.

Lemma rangeStep_permutation (l1 l2 : list Z) :
  Permutation l1 l2 -> forall r, fold_left rangeStep l1 r = fold_left rangeStep l2 r.
Proof.
  induction 1 as [|x l1 l2 _ IH|x y l|l1 l2 l3 _ IH1 _ IH2]; intros r; simpl.
  - done.
  - apply IH.
  - by rewrite rangeStep_comm.
  - by rewrite IH1.
Qed.

Lemma playedFrets_permutation (t1 t2 : list TabEntry) :
  Permutation t1 t2 -> Permutation (playedFrets t1) (playedFrets t2).
Proof.
  unfold playedFrets.
  induction 1 as [|x l1 l2 _ IH|x y l|l1 l2 l3 _ IH1 _ IH2]; simpl.
  - done.
  - rewrite !List.filter_app. by apply Permutation_app_head.
  - rewrite !List.filter_app, !app_assoc. apply Permutation_app_tail, Permutation_app_comm.
  - by etrans.
Qed.

(** X5. The statistics do not depend on the order of the entries. *)
Theorem getTabStats_permutation (tabData1 tabData2 : list TabEntry) :
  Permutation tabData1 tabData2 ->
  getTabStats (Some tabData1) = getTabStats (Some tabData2).
Proof.
  intros Hperm. unfold getTabStats.
  assert (scanAll tabData1 = scanAll tabData2) as ->.
  { apply injective_projections.
    - apply set_eq. intros k. rewrite !scanAll_strings.
      split; intros (chord & f & Hc & H); exists chord, f; split; try done.
      + by apply (Permutation_in _ Hperm).
      + by apply (Permutation_in _ (Permutation_sym Hperm)).
    - unfold scanAll. rewrite !scanAll_range_from.
      by apply rangeStep_permutation, playedFrets_permutation. }
  destruct (scanAll tabData2) as [used r].
  unfold countNotes. rewrite !countNotes_from.
  rewrite (Permutation_length Hperm),
    (Permutation_length (playedFrets_permutation _ _ Hperm)). done.
Qed.

Lemma getTabStats_permutation_example :
  Permutation [ {| time := 0%Q; strings := [-1; 1; 0; 2; 3; -1] |};
                {| time := 1%Q; strings := [5; -1; -1; -1; -1; -1] |} ]
              [ {| time := 1%Q; strings := [5; -1; -1; -1; -1; -1] |};
                {| time := 0%Q; strings := [-1; 1; 0; 2; 3; -1] |} ] /\
  getTabStats (Some [ {| time := 0%Q; strings := [-1; 1; 0; 2; 3; -1] |};
                      {| time := 1%Q; strings := [5; -1; -1; -1; -1; -1] |} ])
  = getTabStats (Some [ {| time := 1%Q; strings := [5; -1; -1; -1; -1; -1] |};
                        {| time := 0%Q; strings := [-1; 1; 0; 2; 3; -1] |} ]).
Proof.
  split; [apply perm_swap|].
  apply getTabStats_permutation. apply perm_swap.
Defined.

End TabPreviewMore.

(** * Further properties of FileUploader.js *)

Section FileUploaderMore.

Import FileUploader.

(** X6. Which message a rejected file gets: the type message exactly
    when neither the MIME type nor the extension is supported, whatever the
    size; the size message exactly when the type or extension is supported
    and the file is larger than 50*1024*1024 bytes; no message exactly when
    the file is valid. *)
Theorem validateFile_messages (file : File) :
  (error (validateFile file)
   = Some "Unsupported file type. Please use MP3, WAV, or FLAC."%string <->
   ~ In (type file) supportedTypes /\ ~ endsWithExtension (name file)) /\
  (error (validateFile file) = Some "File too large. Maximum size is 50MB."%string <->
   (In (type file) supportedTypes \/ endsWithExtension (name file)) /\
   50 * 1024 * 1024 < size file) /\
  (error (validateFile file) = None <-> valid (validateFile file) = true).
Proof.
  unfold validateFile.
  pose proof (includes_spec supportedTypes (type file)) as Hty.
  pose proof (matchesExtension_spec (name file)) as Hext.
  revert Hty Hext.
  generalize (In (type file) supportedTypes), (endsWithExtension (name file)).
  intros P Q Hty Hext. unfold maxSize.
  destruct (includes supportedTypes (type file)), (matchesExtension (name file));
    destruct (Z.ltb_spec (50 * 1024 * 1024) (size file)); simpl;
    split_and!; split; try done; try (intros [? ?]); try (intros ?);
    try lia; intuition (try done; try lia).
Qed.

End FileUploaderMore.

Section FileUploaderFlowFacts.

Import FileUploaderFlow.

Lemma onDrop_begin_spec (st : State) (files : list FileUploader.File) :
  onDrop_begin st files =
  if isUploading st then None
  else
    let sent := List.filter (fun f => FileUploader.valid (FileUploader.validateFile f)) files in
    Some ({| uploadStatus := map initialEntry files;
             isUploading := match sent with [] => false | _ :: _ => true end;
             timers := timers st |},
          match sent with [] => None | _ :: _ => Some sent end,
          map initialEntry files).
Proof.
  unfold onDrop_begin, FileUploader.onDrop. destruct (isUploading st); [done|].
  cbn [FileUploader.initialStatus FileUploader.posted].
  assert (map fst (List.filter (fun fv : FileUploader.File * FileUploader.Validation =>
                                  FileUploader.valid fv.2)
                               (map (fun file => (file, FileUploader.validateFile file)) files))
          = List.filter (fun f => FileUploader.valid (FileUploader.validateFile f)) files)
    as ->.
  { induction files as [|f fs IH]; simpl; [done|].
    destruct (FileUploader.valid (FileUploader.validateFile f)); simpl; by rewrite IH. }
  rewrite !map_map.
  assert (map (fun x => ofInitial
                 {| FileUploader.statusName := FileUploader.name (x, FileUploader.validateFile x).1;
                    FileUploader.status :=
                      if FileUploader.valid (x, FileUploader.validateFile x).2
                      then FileUploader.uploading else FileUploader.failed;
                    FileUploader.statusError :=
                      FileUploader.error (x, FileUploader.validateFile x).2;
                    FileUploader.progress := 0 |}) files
          = map initialEntry files) as -> by done.
  by destruct (List.filter _ files).
Qed.

Lemma stillUploading_initialEntry (file : FileUploader.File) :
  stillUploading (initialEntry file) = FileUploader.valid (FileUploader.validateFile file).
Proof.
  unfold stillUploading, initialEntry, ofInitial. simpl.
  by destruct (FileUploader.valid (FileUploader.validateFile file)).
Qed.

(** What is left after the events of a request in flight.  Once a
    pending timer has fired the status list is empty and stays empty;
    otherwise an entry that is uploading shows the last percentage
    reported and the other entries are as before. *)
Lemma flight_events (events : list FlightEvent) :
  forall st,
    fold_left flightEvent events st
    = {| uploadStatus :=
           if timerFired (timers st) events then []
           else map (fun e =>
                       match stillUploading e, last (progressOf events) with
                       | true, Some p =>
                           {| name := name e; status := status e; error := error e;
                              progress := p |}
                       | _, _ => e
                       end)
                    (uploadStatus st);
         isUploading := isUploading st;
         timers := timers st - timerEvents events |}.
Proof.
  induction events as [|e events IH]; intros st.
  - destruct st as [l b n]. unfold timerFired, timerEvents. simpl.
    rewrite Nat.sub_0_r. destruct n; f_equal;
      (induction l as [|x l IHl]; simpl; [done|]; rewrite <- IHl at 1;
       by destruct (stillUploading x)).
  - cbn [fold_left]. rewrite IH. destruct e as [p|].
    + cbn [flightEvent onUploadProgress timers isUploading uploadStatus].
      change (timerEvents (ProgressEvent p :: events)) with (timerEvents events).
      change (timerFired (timers st) (ProgressEvent p :: events))
        with (timerFired (timers st) events).
      change (progressOf (ProgressEvent p :: events)) with (p :: progressOf events).
      f_equal. destruct (timerFired (timers st) events); [done|].
      rewrite map_map. apply map_ext. intros x. rewrite last_cons.
      destruct (stillUploading x) eqn:Hx.
      * destruct (last (progressOf events)); unfold stillUploading in *; simpl; by rewrite Hx.
      * destruct (last (progressOf events)); by rewrite Hx.
    + change (progressOf (TimerFires :: events)) with (progressOf events).
      change (timerEvents (TimerFires :: events)) with (S (timerEvents events)).
      unfold flightEvent, timerFires, timerFired.
      destruct (timers st) as [|n] eqn:Ht.
      * rewrite Ht. done.
      * cbn [timers isUploading uploadStatus]. f_equal.
        change (timerEvents (TimerFires :: events)) with (S (timerEvents events)).
        by destruct n, (timerEvents events).
Qed.

(** X7. A drop is ignored while an upload is in progress; otherwise,
    once the request has settled (or at once when no file is valid), the
    uploader is released: [isUploading] is false again, whatever the server
    did and whatever timer fired.  There is then one status entry per file
    of the batch, in order, under the file's name, with one exception: when
    the request failed and the timer of an earlier successful drop fired
    while it was in flight, the status list is empty. *)
Theorem onDrop_releases (st : State) (files : list FileUploader.File)
        (events : list FlightEvent) (outcome : Outcome (list Obj)) :
  match onDrop_run st files events outcome with
  | None => isUploading st = true
  | Some (st', _) =>
      isUploading st = false /\
      isUploading st' = false /\
      map name (uploadStatus st') =
        match outcome with
        | Failure =>
            if existsb (fun f => FileUploader.valid (FileUploader.validateFile f)) files
               && timerFired (timers st) events
            then [] else map FileUploader.name files
        | Reply _ => map FileUploader.name files
        end
  end.
Proof.
  unfold onDrop_run. rewrite onDrop_begin_spec.
  destruct (isUploading st); [done|]. cbv zeta.
  destruct (List.filter _ files) as [|f sent] eqn:Hsent.
  - split_and!; [done|done|]. cbn [uploadStatus]. rewrite map_map.
    assert (existsb (fun f => FileUploader.valid (FileUploader.validateFile f)) files = false)
      as ->.
    { apply not_true_is_false. intros Hex. apply existsb_exists in Hex as (f & Hf & Hv).
      assert (In f []) as []. rewrite <- Hsent. by apply List.filter_In. }
    by destruct outcome.
  - rewrite flight_events. destruct outcome as [results|]; simpl.
    + split_and!; [done|done|]. unfold updatedStatus. rewrite !map_map.
      apply map_ext. intros file. by destruct (findResult results (initialEntry file)).
    + split_and!; [done|done|].
      assert (existsb (fun f => FileUploader.valid (FileUploader.validateFile f)) files = true)
        as ->.
      { apply existsb_exists. exists f.
        assert (In f (f :: sent)) as Hf by (by left).
        rewrite <- Hsent in Hf. by apply List.filter_In in Hf. }
      simpl. destruct (timerFired (timers st) events); [done|].
      rewrite !map_map. apply map_ext. intros file.
      by destruct (stillUploading (initialEntry file)), (last (progressOf events)).
Qed.

(** X8. When the request fails and no timer of an earlier successful
    drop fired while it was in flight, every entry of the batch ends as an
    error with the message 'Upload failed. Please try again.': the
    validation message of a rejected file is replaced too; a valid file
    keeps the last percentage reported (0 without a progress event), a
    rejected file stays at 0.  When such a timer did fire, the status list
    ends empty and the failure is not shown.  In both cases
    [onFilesUploaded] is not called and no timer is set. *)
Theorem onDrop_failure (st : State) (files : list FileUploader.File)
        (events : list FlightEvent) :
  isUploading st = false ->
  (exists file, In file files /\ FileUploader.valid (FileUploader.validateFile file) = true) ->
  onDrop_run st files events Failure =
  Some ({| uploadStatus :=
             if timerFired (timers st) events then []
             else map (fun file =>
                         {| name := FileUploader.name file;
                            status := FileUploader.failed;
                            error := lit "Upload failed. Please try again.";
                            progress :=
                              if FileUploader.valid (FileUploader.validateFile file)
                              then default (PercentOf (Num 0)) (last (progressOf events))
                              else PercentOf (Num 0) |})
                      files;
           isUploading := false;
           timers := timers st - timerEvents events |},
        None).
Proof.
  intros Hidle (file & Hin & Hvalid). unfold onDrop_run. rewrite onDrop_begin_spec, Hidle.
  cbv zeta.
  destruct (List.filter _ files) as [|f sent] eqn:Hsent.
  { assert (In file []) as []. rewrite <- Hsent. by apply List.filter_In. }
  rewrite flight_events. simpl. do 2 f_equal.
  destruct (timerFired (timers st) events); simpl; [done|]. f_equal.
  rewrite !map_map. apply map_ext.
  intros x. rewrite stillUploading_initialEntry.
  destruct (FileUploader.valid (FileUploader.validateFile x)) eqn:Hx.
  - destruct (last (progressOf events));
      unfold uploadFailed, initialEntry, ofInitial; simpl; by rewrite ?Hx.
  - unfold uploadFailed, initialEntry, ofInitial; simpl; by rewrite ?Hx.
Qed.

(** The first drop of the sample batch, answered: the state of the
    examples. *)
Example onDrop_first_success :
  onDrop_run initialState sampleBatch [ProgressEvent (PercentOf (Num 40))] (Reply sampleReply)
  = Some (sampleAfterSuccess, Some sampleReply).
Proof. vm_compute. reflexivity. Qed.

Lemma onDrop_failure_example :
  isUploading sampleAfterSuccess = false /\
  (exists file, In file sampleBatch /\
                FileUploader.valid (FileUploader.validateFile file) = true) /\
  onDrop_run sampleAfterSuccess sampleBatch [ProgressEvent (PercentOf (Num 40))] Failure =
  Some ({| uploadStatus :=
             [{| name := js "a.mp3"; status := FileUploader.failed;
                 error := lit "Upload failed. Please try again.";
                 progress := PercentOf (Num 0) |};
              {| name := js "a.mp3"; status := FileUploader.failed;
                 error := lit "Upload failed. Please try again.";
                 progress := PercentOf (Num 40) |}];
           isUploading := false;
           timers := 1 |},
        None) /\
  onDrop_run sampleAfterSuccess sampleBatch [ProgressEvent (PercentOf (Num 40)); TimerFires]
             Failure =
  Some ({| uploadStatus := []; isUploading := false; timers := 0 |}, None).
Proof.
  assert (exists file, In file sampleBatch /\
                       FileUploader.valid (FileUploader.validateFile file) = true) as Hvalid.
  { eexists. split; [right; left; reflexivity|]. vm_compute. reflexivity. }
  split; [reflexivity|]. split; [exact Hvalid|]. split.
  - rewrite (onDrop_failure sampleAfterSuccess sampleBatch [ProgressEvent (PercentOf (Num 40))]
               eq_refl Hvalid).
    vm_compute. reflexivity.
  - rewrite (onDrop_failure sampleAfterSuccess sampleBatch
               [ProgressEvent (PercentOf (Num 40)); TimerFires] eq_refl Hvalid).
    vm_compute. reflexivity.
Defined.

(** X9. When the server replies, what an entry shows is decided by its
    name: with a result of that file name it takes the first such result's
    outcome (success when the result's status is 'uploaded', error
    otherwise, the result's message only for status 'error') at 100
    percent, even if the file had been rejected; without one it is the
    entry made at the drop, at 0 percent whatever progress was reported.
    This holds whatever timer fired while the request was in flight.
    [onFilesUploaded] receives the results, and one more timer is set. *)
Theorem onDrop_reply (st : State) (files : list FileUploader.File)
        (events : list FlightEvent) (results : list Obj) :
  isUploading st = false ->
  (exists file, In file files /\ FileUploader.valid (FileUploader.validateFile file) = true) ->
  onDrop_run st files events (Reply results) =
  Some ({| uploadStatus :=
             map (fun file =>
                    match List.find (fun r => strictEq (get r "filename")
                                                       (PString (FileUploader.name file)))
                                    results with
                    | Some result =>
                        {| name := FileUploader.name file;
                           status := if isLiteral (get result "status") "uploaded"
                                     then FileUploader.success else FileUploader.failed;
                           error := if isLiteral (get result "status") "error"
                                    then get result "message" else VPrim PNull;
                           progress := PercentOf (Num 100) |}
                    | None => initialEntry file
                    end)
                 files;
           isUploading := false;
           timers := S (timers st - timerEvents events) |},
        Some results).
Proof.
  intros Hidle (file & Hin & Hvalid). unfold onDrop_run. rewrite onDrop_begin_spec, Hidle.
  cbv zeta.
  destruct (List.filter _ files) as [|f sent] eqn:Hsent.
  { assert (In file []) as []. rewrite <- Hsent. by apply List.filter_In. }
  rewrite flight_events. simpl. do 3 f_equal. unfold updatedStatus. rewrite map_map. done.
Qed.

Lemma onDrop_reply_example :
  isUploading sampleAfterSuccess = false /\
  (exists file, In file sampleBatch /\
                FileUploader.valid (FileUploader.validateFile file) = true) /\
  onDrop_run sampleAfterSuccess sampleBatch [ProgressEvent (PercentOf (Num 40)); TimerFires]
             (Reply sampleReply) =
  Some ({| uploadStatus :=
             [{| name := js "a.mp3"; status := FileUploader.success;
                 error := VPrim PNull; progress := PercentOf (Num 100) |};
              {| name := js "a.mp3"; status := FileUploader.success;
                 error := VPrim PNull; progress := PercentOf (Num 100) |}];
           isUploading := false;
           timers := 1 |},
        Some sampleReply).
Proof.
  assert (exists file, In file sampleBatch /\
                       FileUploader.valid (FileUploader.validateFile file) = true) as Hvalid.
  { eexists. split; [right; left; reflexivity|]. vm_compute. reflexivity. }
  split; [reflexivity|]. split; [exact Hvalid|].
  rewrite (onDrop_reply sampleAfterSuccess sampleBatch
             [ProgressEvent (PercentOf (Num 40)); TimerFires] sampleReply eq_refl Hvalid).
  vm_compute. reflexivity.
Defined.

End FileUploaderFlowFacts.

(** * Properties of App.js and ProcessedFilesList.js *)

Section AppFacts.

Import App.

Lemma strictEq_true (v : JsValue) (p : Prim) : strictEq v p = true <-> v = VPrim p.
Proof.
  unfold strictEq. destruct v as [q| |]; try (split; done).
  rewrite bool_decide_eq_true. split; [by intros -> | by intros [= ->]].
Qed.

Lemma get_insert_eq (o : Obj) (k : string) (v : JsValue) : get (<[k := v]> o) k = v.
Proof. unfold get. by rewrite lookup_insert_eq. Qed.

Lemma get_insert_ne (o : Obj) (k k' : string) (v : JsValue) :
  k <> k' -> get (<[k := v]> o) k' = get o k'.
Proof. intros H. unfold get. by rewrite lookup_insert_ne. Qed.

Lemma get_union (u o : Obj) (k : string) :
  get (u ∪ o) k = match u !! k with Some v => v | None => get o k end.
Proof.
  unfold get. rewrite lookup_union. destruct (u !! k), (o !! k); done.
Qed.

(** X10. [handleFilesUploaded] keeps the files it has, in place, and
    appends one file for each result whose status is 'uploaded', in the
    order of the results, and none for any other result.  A file it adds
    carries the result's id and file name and is neither processed nor
    tabbed: the list offers only 'Process to MIDI' for it and no preview. *)
Theorem handleFilesUploaded_spec (results : list Obj) (st : State) :
  exists added,
    processedFiles (handleFilesUploaded results st) = processedFiles st ++ added /\
    darkMode (handleFilesUploaded results st) = darkMode st /\
    Forall2 (fun result file =>
               get file "id" = get result "file_id" /\
               get file "filename" = get result "filename" /\
               get file "status" = lit "uploaded" /\
               forall lst fileId,
                 ProcessedFilesList.processButton
                   (ProcessedFilesList.fileActions lst fileId file) = true /\
                 ProcessedFilesList.generateButton
                   (ProcessedFilesList.fileActions lst fileId file) = false /\
                 ProcessedFilesList.midiDownload
                   (ProcessedFilesList.fileActions lst fileId file) = false /\
                 ProcessedFilesList.pdfDownload
                   (ProcessedFilesList.fileActions lst fileId file) = false /\
                 ProcessedFilesList.previews lst fileId file = [])
            (List.filter (fun result => isLiteral (get result "status") "uploaded") results)
            added.
Proof.
  eexists. split; [reflexivity|]. split; [reflexivity|].
  induction (List.filter _ results) as [|result l IH]; simpl; constructor; [|done].
  split_and!; try reflexivity. intros lst fileId. split_and!; reflexivity.
Qed.

(** X11. [updateFileStatus] keeps the number and the order of the files.
    A file whose id is not the given one is unchanged; in a file with that
    id every property of the update takes the update's value and every
    other property keeps its own.  An id that no file has changes nothing. *)
Theorem updateFileStatus_spec (fileId : Prim) (updates : Obj) (st : State) :
  darkMode (updateFileStatus fileId updates st) = darkMode st /\
  length (processedFiles (updateFileStatus fileId updates st)) = length (processedFiles st) /\
  (forall i file,
      processedFiles st !! i = Some file ->
      exists file',
        processedFiles (updateFileStatus fileId updates st) !! i = Some file' /\
        (get file "id" <> VPrim fileId -> file' = file) /\
        (get file "id" = VPrim fileId ->
         forall k, file' !! k = match updates !! k with
                                | Some v => Some v
                                | None => file !! k
                                end)) /\
  ((forall file, In file (processedFiles st) -> get file "id" <> VPrim fileId) ->
   updateFileStatus fileId updates st = st).
Proof.
  split_and!.
  - done.
  - unfold updateFileStatus. cbn [processedFiles]. by rewrite length_map.
  - intros i file Hi. unfold updateFileStatus. cbn [processedFiles].
    rewrite lookup_map, Hi. simpl. eexists. split; [reflexivity|].
    destruct (strictEq (get file "id") fileId) eqn:Heq.
    + apply strictEq_true in Heq. split; [done|]. intros _ k.
      rewrite lookup_union. by destruct (updates !! k), (file !! k).
    + split; [done|]. intros H. apply strictEq_true in H. congruence.
  - intros Hnone. destruct st as [files dm]. unfold updateFileStatus. simpl. f_equal.
    simpl in Hnone. induction files as [|file files IH]; simpl; [done|].
    rewrite IH; [|intros f Hf; apply Hnone; by right].
    destruct (strictEq (get file "id") fileId) eqn:Heq; [|done].
    apply strictEq_true in Heq. exfalso. by apply (Hnone file); [left|].
Qed.

(** X12. Updates compose: applying the same update twice is the same as
    applying it once, and updates for two different ids that do not touch
    the [id] property give the same files in either order, so two requests
    may settle in any order. *)
Theorem updateFileStatus_compose :
  (forall fileId updates st,
      updateFileStatus fileId updates (updateFileStatus fileId updates st)
      = updateFileStatus fileId updates st) /\
  (forall id1 id2 updates1 updates2 st,
      id1 <> id2 ->
      updates1 !! "id"%string = None ->
      updates2 !! "id"%string = None ->
      updateFileStatus id1 updates1 (updateFileStatus id2 updates2 st)
      = updateFileStatus id2 updates2 (updateFileStatus id1 updates1 st)).
Proof.
  split.
  - intros fileId updates st. unfold updateFileStatus. cbn [processedFiles darkMode].
    f_equal. rewrite map_map. apply map_ext. intros file.
    destruct (strictEq (get file "id") fileId) eqn:Heq; [|by rewrite Heq].
    assert (updates ∪ (updates ∪ file) = updates ∪ file) as Hidem.
    { rewrite (assoc_L (∪)). by rewrite (idemp_L (∪) updates). }
    destruct (strictEq (get (updates ∪ file) "id") fileId); by rewrite ?Hidem.
  - intros id1 id2 u1 u2 st Hne H1 H2. unfold updateFileStatus.
    cbn [processedFiles darkMode]. f_equal. rewrite !map_map. apply map_ext. intros file.
    assert (get (u1 ∪ file) "id" = get file "id") as E1 by (by rewrite get_union, H1).
    assert (get (u2 ∪ file) "id" = get file "id") as E2 by (by rewrite get_union, H2).
    destruct (strictEq (get file "id") id1) eqn:Ha, (strictEq (get file "id") id2) eqn:Hb.
    + apply strictEq_true in Ha, Hb. congruence.
    + by rewrite ?E1, ?Hb, ?Ha.
    + by rewrite ?E2, ?Ha, ?Hb.
    + by rewrite ?Ha, ?Hb.
Qed.

End AppFacts.

Section PageMachineFacts.

Import ProcessedFilesList PageMachine.

Lemma truthy_bool (v : JsValue) (b : bool) : v = VPrim (PBool b) -> truthy v = b.
Proof. by intros ->. Qed.

(** The update a settled request passes on, if any, sets one flag and one
    datum and nothing else. *)
Lemma settled_update (kind : Kind) (fileId : jsString) (outcome : Outcome ResponseData) :
  let s := match kind with
           | MidiRequest => processToMidiSettled fileId outcome
           | TabRequest => generateTabSettled fileId outcome
           end in
  update s = None \/
  exists v,
    update s = Some (PString fileId,
                     <[match kind with
                       | MidiRequest => "midiProcessed"
                       | TabRequest => "tabGenerated"
                       end%string := VPrim (PBool true)]>
                     (<[match kind with
                        | MidiRequest => "midiFile"
                        | TabRequest => "tabData"
                        end%string := v]> ∅)).
Proof.
  destruct kind, outcome as [[data| |]|]; simpl; auto.
  - destruct (isLiteral (get data "status") "processed"); simpl; eauto.
  - destruct (isLiteral (get data "status") "tab_generated"); simpl; eauto.
Qed.

(** How a settled request changes the files: ids stay, a flag changes
    only by becoming true in the files with the request's id. *)
Lemma finish_files (kind : Kind) (fileId : jsString) (outcome : Outcome ResponseData)
      (pg : Page) :
  let s := match kind with
           | MidiRequest => processToMidiSettled fileId outcome
           | TabRequest => generateTabSettled fileId outcome
           end in
  exists g : Obj -> Obj,
    App.processedFiles (appState (finish fileId s pg).1)
    = map g (App.processedFiles (appState pg)) /\
    forall file,
      get (g file) "id" = get file "id" /\
      (get (g file) "midiProcessed" = get file "midiProcessed" \/
       (kind = MidiRequest /\ get file "id" = VPrim (PString fileId) /\
        get (g file) "midiProcessed" = VPrim (PBool true))) /\
      (get (g file) "tabGenerated" = get file "tabGenerated" \/
       (kind = TabRequest /\ get file "id" = VPrim (PString fileId) /\
        get (g file) "tabGenerated" = VPrim (PBool true))).
Proof.
  intros s. destruct (settled_update kind fileId outcome) as [Hnone|(v & Hsome)];
    fold s in Hnone || fold s in Hsome; unfold finish; simpl.
  - rewrite Hnone. exists (fun file => file). rewrite map_id. split; [done|]. auto.
  - rewrite Hsome. eexists. split; [reflexivity|]. intros file. cbv beta.
    destruct (strictEq (get file "id") (PString fileId)) eqn:Heq; [|auto].
    apply strictEq_true in Heq. rewrite !get_union.
    destruct kind; rewrite ?lookup_insert_eq, ?lookup_insert_ne, ?lookup_empty by done;
      split_and!; auto.
Qed.

Lemma step_files (e : Event) (m m' : Machine) :
  step e m = Some m' ->
  (exists results,
      e = FilesUploaded results /\ plainIds results = true /\
      files m' = files m ++ map App.newFile
                   (List.filter (fun r => isLiteral (get r "status") "uploaded") results)) \/
  (exists g : Obj -> Obj,
      files m' = map g (files m) /\
      forall file,
        get (g file) "id" = get file "id" /\
        (get (g file) "midiProcessed" = get file "midiProcessed" \/
         (exists fileId, In (MidiRequest, fileId) (pending m) /\
                         get file "id" = VPrim (PString fileId) /\
                         get (g file) "midiProcessed" = VPrim (PBool true))) /\
        (get (g file) "tabGenerated" = get file "tabGenerated" \/
         (exists fileId, In (TabRequest, fileId) (pending m) /\
                         get file "id" = VPrim (PString fileId) /\
                         get (g file) "tabGenerated" = VPrim (PBool true)))).
Proof.
  assert (forall l : list Obj,
             exists g : Obj -> Obj, l = map g l /\
               forall file,
                 get (g file) "id" = get file "id" /\
                 (get (g file) "midiProcessed" = get file "midiProcessed" \/
                  (exists fileId, In (MidiRequest, fileId) (pending m) /\
                                  get file "id" = VPrim (PString fileId) /\
                                  get (g file) "midiProcessed" = VPrim (PBool true))) /\
                 (get (g file) "tabGenerated" = get file "tabGenerated" \/
                  (exists fileId, In (TabRequest, fileId) (pending m) /\
                                  get file "id" = VPrim (PString fileId) /\
                                  get (g file) "tabGenerated" = VPrim (PBool true)))) as Hsame.
  { intros l. exists (fun file => file). rewrite map_id. auto. }
  destruct e as [results|i|i|k outcome|i|i|]; simpl; unfold files.
  - destruct (plainIds results) eqn:Hids; [|done]. intros [= <-]. left. eauto.
  - destruct (App.processedFiles (appState (page m)) !! i) as [file|]; [|done].
    destruct (stringId file) as [fileId|]; [|done].
    destruct (_ && _); [|done]. intros [= <-]. right. apply Hsame.
  - destruct (App.processedFiles (appState (page m)) !! i) as [file|]; [|done].
    destruct (stringId file) as [fileId|]; [|done].
    destruct (_ && _); [|done]. intros [= <-]. right. apply Hsame.
  - destruct (pending m !! k) as [[kind fileId]|] eqn:Hk; [|done].
    assert (In (kind, fileId) (pending m)) as Hin
        by (apply list_elem_of_In; by eapply list_elem_of_lookup_2).
    destruct (finish_files kind fileId outcome (page m)) as (g & Hg & Hprops).
    assert (forall P : Prop, kind = MidiRequest /\ P ->
                             In (MidiRequest, fileId) (pending m) /\ P) as HM
        by (intros P [-> ?]; done).
    assert (forall P : Prop, kind = TabRequest /\ P ->
                             In (TabRequest, fileId) (pending m) /\ P) as HT
        by (intros P [-> ?]; done).
    destruct kind; intros [= <-]; right; exists g; (split; [exact Hg|]);
      intros file; destruct (Hprops file) as (H1 & H2 & H3);
      (split; [done|]); split.
    + destruct H2 as [?|H2]; [by left|right]. exists fileId. by apply HM.
    + destruct H3 as [?|H3]; [by left|right]. exists fileId. by apply HT.
    + destruct H2 as [?|H2]; [by left|right]. exists fileId. by apply HM.
    + destruct H3 as [?|H3]; [by left|right]. exists fileId. by apply HT.
  - destruct (App.processedFiles (appState (page m)) !! i) as [file|]; [|done].
    destruct (stringId file) as [fileId|]; [|done].
    destruct (truthy _); [|done]. intros [= <-]. right. apply Hsame.
  - destruct (App.processedFiles (appState (page m)) !! i) as [file|]; [|done].
    destruct (stringId file) as [fileId|]; [|done].
    destruct (truthy _); [|done]. intros [= <-]. right. apply Hsame.
  - intros [= <-]. right. apply Hsame.
Qed.

Lemma stringId_spec (file : Obj) (fileId : jsString) :
  stringId file = Some fileId <-> get file "id" = VPrim (PString fileId).
Proof.
  unfold stringId. destruct (get file "id") as [[| | |s]| |]; split; try done.
  - by intros [= ->].
  - by intros [= ->].
Qed.

Lemma readKey_own (d : Dict) (key : jsString) (v : JsValue) :
  d !! key = Some v -> readKey d key = v.
Proof. unfold readKey. by intros ->. Qed.

Lemma plainIds_newFile (results : list Obj) (file : Obj) :
  plainIds results = true ->
  In file (map App.newFile
             (List.filter (fun r => isLiteral (get r "status") "uploaded") results)) ->
  (exists fileId, get file "id" = VPrim (PString fileId)) /\
  get file "midiProcessed" = VPrim (PBool false) /\
  get file "tabGenerated" = VPrim (PBool false).
Proof.
  intros Hids Hin. apply in_map_iff in Hin as (r & <- & Hr).
  apply List.filter_In in Hr as [Hr Hup]. split; [|done].
  unfold plainIds in Hids. rewrite forallb_forall in Hids. specialize (Hids r Hr).
  rewrite Hup in Hids. simpl in Hids.
  change (get (App.newFile r) "id") with (get r "file_id").
  destruct (get r "file_id") as [[| | |s]| |]; try done. eauto.
Qed.

Lemma inv_initial : Invariant initial.
Proof. split; simpl; try done. constructor. Qed.

Lemma inv_upload (m : Machine) (results : list Obj) :
  Invariant m -> plainIds results = true ->
  Invariant {| page := {| appState := App.handleFilesUploaded results (appState (page m));
                          listState := listState (page m) |};
               pending := pending m |}.
Proof.
  intros [Hshape Hsingle Hpending Hproc Hflag Htab] Hids.
  split; unfold files in *; cbn [page pending appState listState App.handleFilesUploaded
                                App.processedFiles] in *.
  - intros file Hin. apply in_app_or in Hin as [Hin|Hin]; [by apply Hshape|].
    destruct (plainIds_newFile _ _ Hids Hin) as (Hid & Hm & Ht). eauto.
  - done.
  - intros kind fileId Hin. destruct (Hpending kind fileId Hin) as [Hp (file & Hf & Hid)].
    split; [done|]. exists file. split; [apply in_or_app; by left|done].
  - done.
  - intros file fileId Hin Hid Hflags. apply in_app_or in Hin as [Hin|Hin]; [by eapply Hflag|].
    destruct (plainIds_newFile _ _ Hids Hin) as (_ & Hm & Ht).
    rewrite Hm, Ht in Hflags. by destruct Hflags.
  - intros fileId v Hv. destruct (Htab fileId v Hv) as [Hlit (file & Hf & Hid)].
    split; [done|]. exists file. split; [apply in_or_app; by left|done].
Qed.

Lemma inv_click (m : Machine) (kind : Kind) (i : nat) (file : Obj) (fileId : jsString) :
  Invariant m ->
  files m !! i = Some file ->
  get file "id" = VPrim (PString fileId) ->
  truthy (readKey (processing (listState (page m))) fileId) = false ->
  Invariant {| page := {| appState := appState (page m);
                          listState :=
                            setProcessing fileId
                              (lit (match kind with
                                    | MidiRequest => "midi"
                                    | TabRequest => "tab"
                                    end))
                              (listState (page m)) |};
               pending := pending m ++ [(kind, fileId)] |}.
Proof.
  intros [Hshape Hsingle Hpending Hproc Hflag Htab] Hi Hid Hidle.
  assert (forall k, ~ In (k, fileId) (pending m)) as Hfresh.
  { intros k Hin. destruct (Hpending k fileId Hin) as [Hp _].
    rewrite (readKey_own _ _ _ Hp) in Hidle. by destruct k. }
  split; unfold files in *; cbn [page pending appState listState setProcessing
                                processing activeTab] in *.
  - done.
  - rewrite map_app. simpl. apply NoDup_app. split_and!; [done| |apply NoDup_singleton].
    intros x Hx Hx'. apply list_elem_of_singleton in Hx' as ->.
    apply list_elem_of_In, in_map_iff in Hx as ([k y] & Hy & Hin). simpl in Hy. subst y.
    by apply (Hfresh k).
  - intros k fid Hin. apply in_app_or in Hin as [Hin|[[= <- <-]|[]]].
    + destruct (Hpending k fid Hin) as [Hp Hf]. split; [|done].
      rewrite lookup_insert_ne; [done|]. intros <-. by apply (Hfresh k).
    + split; [by rewrite lookup_insert_eq|]. exists file.
      split; [|done]. apply list_elem_of_In. by eapply list_elem_of_lookup_2.
  - intros fid v. destruct (decide (fileId = fid)) as [<-|Hne].
    + intros _. destruct (processing (listState (page m)) !! fileId) as [w|] eqn:Hw.
      * by eapply Hproc.
      * unfold readKey in Hidle. rewrite Hw in Hidle. case_bool_decide as Hin; [done|].
        by rewrite list_elem_of_In in Hin.
    + rewrite lookup_insert_ne by done. apply Hproc.
  - intros f fid Hin Hfid Hflags. destruct (decide (fileId = fid)) as [<-|Hne].
    + by rewrite lookup_insert_eq.
    + rewrite lookup_insert_ne by done. by eapply Hflag.
  - done.
Qed.

Lemma inv_settle (m : Machine) (k : nat) (kind : Kind) (fileId : jsString)
      (outcome : Outcome ResponseData) :
  Invariant m ->
  pending m !! k = Some (kind, fileId) ->
  Invariant {| page := (finish fileId
                               (match kind with
                                | MidiRequest => processToMidiSettled fileId outcome
                                | TabRequest => generateTabSettled fileId outcome
                                end) (page m)).1;
               pending := delete k (pending m) |}.
Proof.
  intros [Hshape Hsingle Hpending Hproc Hflag Htab] Hk.
  destruct (finish_files kind fileId outcome (page m)) as (g & Hg & Hprops).
  assert (In (kind, fileId) (pending m)) as Hin
      by (apply list_elem_of_In; by eapply list_elem_of_lookup_2).
  pose proof (delete_Permutation _ _ _ Hk) as Hperm.
  assert (NoDup (fileId :: map snd (delete k (pending m)))) as Hnd.
  { change (NoDup (map snd ((kind, fileId) :: delete k (pending m)))).
    by rewrite <- (Permutation_map snd Hperm). }
  apply NoDup_cons in Hnd as [Hnotin Hnd]. rewrite list_elem_of_In in Hnotin.
  assert (forall x, In x (delete k (pending m)) -> In x (pending m)) as Hsub.
  { intros x Hx. apply list_elem_of_In. apply (list_elem_of_delete_inv _ k).
    by apply list_elem_of_In. }
  split; unfold files in *; cbn [page pending] in *; rewrite ?Hg;
    cbn [finish fst listState appState setProcessing processing activeTab] in *.
  - intros file' Hf'. apply in_map_iff in Hf' as (file & <- & Hf).
    destruct (Hshape file Hf) as ((fid & Hid) & (b1 & Hm) & (b2 & Ht)).
    destruct (Hprops file) as (E1 & E2 & E3). split_and!.
    + exists fid. congruence.
    + destruct E2 as [->|(_ & _ & ->)]; eauto.
    + destruct E3 as [->|(_ & _ & ->)]; eauto.
  - done.
  - intros kd fid Hkd. destruct (Hpending kd fid (Hsub _ Hkd)) as [Hp (file & Hf & Hid)].
    split.
    + rewrite lookup_insert_ne; [done|]. intros <-. apply Hnotin.
      apply in_map_iff. by exists (kd, fileId).
    + exists (g file). split; [by apply in_map|]. destruct (Hprops file) as (E1 & _).
      congruence.
  - intros fid v. destruct (decide (fileId = fid)) as [<-|Hne].
    + intros _. destruct (Hpending kind fileId Hin) as [Hp _]. by eapply Hproc.
    + rewrite lookup_insert_ne by done. apply Hproc.
  - intros file' fid Hf' Hid' Hflags. apply in_map_iff in Hf' as (file & <- & Hf).
    destruct (Hprops file) as (E1 & E2 & E3). rewrite E1 in Hid'.
    destruct (decide (fileId = fid)) as [<-|Hne]; [by rewrite lookup_insert_eq|].
    rewrite lookup_insert_ne by done. apply (Hflag file fid Hf Hid').
    destruct E2 as [E2|(_ & Hid2 & _)], E3 as [E3|(_ & Hid3 & _)];
      rewrite ?E2, ?E3 in Hflags; try done; congruence.
  - intros fid v Hv. destruct (Htab fid v Hv) as [Hlit (file & Hf & Hid)].
    split; [done|]. exists (g file). split; [by apply in_map|].
    destruct (Hprops file) as (E1 & _). congruence.
Qed.

Lemma inv_select (m : Machine) (i : nat) (file : Obj) (fileId : jsString) (tab : string) :
  Invariant m ->
  files m !! i = Some file ->
  get file "id" = VPrim (PString fileId) ->
  tab = "midi"%string \/ tab = "tab"%string ->
  Invariant {| page := {| appState := appState (page m);
                          listState := setFileActiveTab fileId tab (listState (page m)) |};
               pending := pending m |}.
Proof.
  intros [Hshape Hsingle Hpending Hproc Hflag Htab] Hi Hid Hlabel.
  split; unfold files in *; cbn [page pending appState listState setFileActiveTab
                                processing activeTab] in *; try done.
  intros fid v. destruct (decide (fileId = fid)) as [<-|Hne].
  - rewrite lookup_insert_eq. intros [= <-]. split; [by destruct Hlabel as [-> | ->]; auto|].
    exists file. split; [|done]. apply list_elem_of_In. by eapply list_elem_of_lookup_2.
  - rewrite lookup_insert_ne by done. apply Htab.
Qed.

Lemma step_invariant (e : Event) (m m' : Machine) :
  Invariant m -> step e m = Some m' -> Invariant m'.
Proof.
  intros Hinv. destruct e as [results|i|i|k outcome|i|i|]; simpl.
  - destruct (plainIds results) eqn:Hids; [|done]. intros [= <-]. by apply inv_upload.
  - destruct (files m !! i) as [file|] eqn:Hi; [|done].
    destruct (stringId file) as [fileId|] eqn:Hid; [|done]. apply stringId_spec in Hid.
    destruct (_ && _) eqn:Hguard; [|done]. intros [= <-].
    apply andb_true_iff in Hguard as [_ Hidle]. apply negb_true_iff in Hidle.
    by apply (inv_click m MidiRequest i file fileId).
  - destruct (files m !! i) as [file|] eqn:Hi; [|done].
    destruct (stringId file) as [fileId|] eqn:Hid; [|done]. apply stringId_spec in Hid.
    destruct (_ && _) eqn:Hguard; [|done]. intros [= <-].
    apply andb_true_iff in Hguard as [_ Hidle]. apply negb_true_iff in Hidle.
    by apply (inv_click m TabRequest i file fileId).
  - destruct (pending m !! k) as [[[|] fileId]|] eqn:Hk; [| |done]; intros [= <-].
    + by apply (inv_settle m k MidiRequest fileId outcome).
    + by apply (inv_settle m k TabRequest fileId outcome).
  - destruct (files m !! i) as [file|] eqn:Hi; [|done].
    destruct (stringId file) as [fileId|] eqn:Hid; [|done]. apply stringId_spec in Hid.
    destruct (truthy _); [|done]. intros [= <-].
    apply (inv_select m i file fileId "midi"); auto.
  - destruct (files m !! i) as [file|] eqn:Hi; [|done].
    destruct (stringId file) as [fileId|] eqn:Hid; [|done]. apply stringId_spec in Hid.
    destruct (truthy _); [|done]. intros [= <-].
    apply (inv_select m i file fileId "tab"); auto.
  - intros [= <-]. destruct Hinv. by split.
Qed.

Lemma reachable_invariant (m : Machine) : reachable m -> Invariant m.
Proof.
  induction 1 as [|e m m' _ IH Hstep]; [apply inv_initial|]. by eapply step_invariant.
Qed.

Lemma run_reachable (events : list Event) :
  forall m m', reachable m -> run events m = Some m' -> reachable m'.
Proof.
  induction events as [|e events IH]; intros m m' Hm; simpl.
  - by intros [= <-].
  - destruct (step e m) as [m1|] eqn:Hstep; [|done]. apply IH. by eapply reachable_step.
Qed.

Lemma step_ids (e : Event) (m m' : Machine) :
  step e m = Some m' -> exists more, ids m' = ids m ++ more.
Proof.
  intros Hstep. unfold ids.
  destruct (step_files e m m' Hstep) as [(results & _ & _ & ->)|(g & -> & Hg)].
  - rewrite map_app. eauto.
  - exists []. rewrite app_nil_r, map_map. apply map_ext. intros file. by destruct (Hg file).
Qed.

Lemma same_id_same_file (l : list Obj) (file1 file2 : Obj) :
  NoDup (map (fun file => get file "id") l) ->
  In file1 l -> In file2 l -> get file1 "id" = get file2 "id" -> file1 = file2.
Proof.
  induction l as [|x l IH]; simpl; [done|]. intros Hnd H1 H2 Heq.
  apply NoDup_cons in Hnd as [Hx Hnd]. rewrite list_elem_of_In in Hx.
  destruct H1 as [->|H1], H2 as [->|H2]; auto.
  - exfalso. apply Hx. rewrite Heq. by apply (in_map (fun file => get file "id")).
  - exfalso. apply Hx. rewrite <- Heq. by apply (in_map (fun file => get file "id")).
Qed.

Lemma flag_kept (g : Obj -> Obj) (file : Obj) (k : string) (P : jsString -> Prop) :
  get (g file) k = get file k \/
  (exists fileId, P fileId /\ get file "id" = VPrim (PString fileId) /\
                  get (g file) k = VPrim (PBool true)) ->
  truthy (get file k) = true -> truthy (get (g file) k) = true.
Proof. intros [->|(? & _ & _ & ->)]; done. Qed.

Lemma step_ordered (e : Event) (m m' : Machine) :
  Invariant m -> Ordered m -> NoDup (ids m') -> step e m = Some m' -> Ordered m'.
Proof.
  intros Hinv [Hflags Hpend Hmidi Htab] Hnd Hstep.
  pose proof (step_invariant e m m' Hinv Hstep) as Hinv'.
  destruct e as [results|i|i|k outcome|i|i|]; simpl in Hstep.
  - destruct (plainIds results) eqn:Hids; [|done]. injection Hstep as <-.
    unfold ids, files in *.
    cbn [page pending appState listState App.handleFilesUploaded App.processedFiles] in *.
    set (old := App.processedFiles (appState (page m))) in *.
    set (new := map App.newFile _) in *.
    assert (forall file file0 : Obj,
               In file (old ++ new) -> In file0 old ->
               get file "id" = get file0 "id" -> In file old) as Hold.
    { intros file file0 Hf H0 Heq.
      rewrite (same_id_same_file _ file file0 Hnd Hf); [done| |done].
      apply in_or_app. by left. }
    split; cbn [page pending appState listState App.processedFiles files] in *.
    + intros file Hf Ht. apply in_app_or in Hf as [Hf|Hf]; [by apply Hflags|].
      destruct (plainIds_newFile _ _ Hids Hf) as (_ & _ & E). by rewrite E in Ht.
    + intros fileId file Hp Hf Hid.
      destruct (inv_pending m Hinv _ _ Hp) as [_ (file0 & H0 & Hid0)].
      apply (Hpend fileId file Hp); [|done]. apply (Hold file file0); [done|done|congruence].
    + intros fileId file Ha Hf Hid.
      destruct (inv_activeTab m Hinv _ _ Ha) as [_ (file0 & H0 & Hid0)].
      apply (Hmidi fileId file Ha); [|done]. apply (Hold file file0); [done|done|congruence].
    + intros fileId file Ha Hf Hid.
      destruct (inv_activeTab m Hinv _ _ Ha) as [_ (file0 & H0 & Hid0)].
      apply (Htab fileId file Ha); [|done]. apply (Hold file file0); [done|done|congruence].
  - destruct (files m !! i) as [file|] eqn:Hi; [|done].
    destruct (stringId file) as [fileId|] eqn:Hid; [|done].
    destruct (_ && _) eqn:Hguard; [|done]. injection Hstep as <-.
    split; unfold files in *; cbn [page pending appState listState handleProcessToMidi_begin
                                  setProcessing processing activeTab] in *; try done.
    intros fid f Hp. apply in_app_or in Hp as [Hp|[[=]|[]]]. by apply Hpend.
  - destruct (files m !! i) as [file|] eqn:Hi; [|done].
    destruct (stringId file) as [fileId|] eqn:Hid; [|done]. apply stringId_spec in Hid.
    destruct (_ && _) eqn:Hguard; [|done]. injection Hstep as <-.
    apply andb_true_iff in Hguard as [Hgen _]. cbn [fileActions generateButton] in Hgen.
    apply andb_true_iff in Hgen as [Hm _].
    unfold ids in Hnd.
    split; unfold files in *; cbn [page pending appState listState handleGenerateTab_begin
                                  setProcessing processing activeTab] in *; try done.
    intros fid f Hp Hf Hfid. apply in_app_or in Hp as [Hp|[[= <-]|[]]]; [by eapply Hpend|].
    rewrite (same_id_same_file _ f file Hnd Hf); [done| |congruence].
    apply list_elem_of_In. by eapply list_elem_of_lookup_2.
  - destruct (step_files (Settles k outcome) m m') as [(r & [=] & _)|(g & Hg & Hprops)].
    { exact Hstep. }
    assert (activeTab (listState (page m')) = activeTab (listState (page m)) /\
            forall x, In x (pending m') -> In x (pending m)) as [Hact Hsub].
    { destruct (pending m !! k) as [[[|] fileId]|] eqn:Hk; [| |done]; injection Hstep as <-;
        (split; [done|]); intros x Hx; apply list_elem_of_In;
        apply (list_elem_of_delete_inv _ k); by apply list_elem_of_In. }
    split; rewrite ?Hact; rewrite ?Hg.
    + intros f' Hf' Ht. apply in_map_iff in Hf' as (f & <- & Hf).
      destruct (Hprops f) as (E1 & E2 & E3).
      apply (flag_kept g f "midiProcessed" _ E2).
      destruct E3 as [E3|(fid & Hp & Hid & _)].
      * apply Hflags; [done|]. by rewrite <- E3.
      * by apply (Hpend fid f).
    + intros fid f' Hp Hf' Hid. apply in_map_iff in Hf' as (f & <- & Hf).
      destruct (Hprops f) as (E1 & E2 & E3). rewrite E1 in Hid.
      apply (flag_kept g f "midiProcessed" _ E2). by apply (Hpend fid f); [apply Hsub| |].
    + intros fid f' Ha Hf' Hid. apply in_map_iff in Hf' as (f & <- & Hf).
      destruct (Hprops f) as (E1 & E2 & E3). rewrite E1 in Hid.
      apply (flag_kept g f "midiProcessed" _ E2). by apply (Hmidi fid f).
    + intros fid f' Ha Hf' Hid. apply in_map_iff in Hf' as (f & <- & Hf).
      destruct (Hprops f) as (E1 & E2 & E3). rewrite E1 in Hid.
      apply (flag_kept g f "tabGenerated" _ E3). by apply (Htab fid f).
  - destruct (files m !! i) as [file|] eqn:Hi; [|done].
    destruct (stringId file) as [fileId|] eqn:Hid; [|done]. apply stringId_spec in Hid.
    destruct (truthy _) eqn:Hguard; [|done]. injection Hstep as <-. unfold ids in Hnd.
    split; unfold files in *; cbn [page pending appState listState setFileActiveTab
                                  processing activeTab] in *; try done.
    + intros fid f Ha Hf Hfid. destruct (decide (fileId = fid)) as [<-|Hne].
      * rewrite (same_id_same_file _ f file Hnd Hf); [done| |congruence].
        apply list_elem_of_In. by eapply list_elem_of_lookup_2.
      * rewrite lookup_insert_ne in Ha by done. by eapply Hmidi.
    + intros fid f Ha Hf Hfid. destruct (decide (fileId = fid)) as [<-|Hne].
      * rewrite lookup_insert_eq in Ha. injection Ha as Ha. vm_compute in Ha. discriminate.
      * rewrite lookup_insert_ne in Ha by done. by eapply Htab.
  - destruct (files m !! i) as [file|] eqn:Hi; [|done].
    destruct (stringId file) as [fileId|] eqn:Hid; [|done]. apply stringId_spec in Hid.
    destruct (truthy _) eqn:Hguard; [|done]. injection Hstep as <-. unfold ids in Hnd.
    split; unfold files in *; cbn [page pending appState listState setFileActiveTab
                                  processing activeTab] in *; try done.
    + intros fid f Ha Hf Hfid. destruct (decide (fileId = fid)) as [<-|Hne].
      * rewrite lookup_insert_eq in Ha. injection Ha as Ha. vm_compute in Ha. discriminate.
      * rewrite lookup_insert_ne in Ha by done. by eapply Hmidi.
    + intros fid f Ha Hf Hfid. destruct (decide (fileId = fid)) as [<-|Hne].
      * rewrite (same_id_same_file _ f file Hnd Hf); [done| |congruence].
        apply list_elem_of_In. by eapply list_elem_of_lookup_2.
      * rewrite lookup_insert_ne in Ha by done. by eapply Htab.
  - injection Hstep as <-. by split.
Qed.

Lemma reachable_ordered (m : Machine) : reachable m -> NoDup (ids m) -> Ordered m.
Proof.
  induction 1 as [|e m m' Hm IH Hstep]; intros Hnd.
  - by split.
  - eapply step_ordered; [by apply reachable_invariant| |done|done].
    apply IH. destruct (step_ids _ _ _ Hstep) as [more Hids]. rewrite Hids in Hnd.
    by apply NoDup_app in Hnd as [? _].
Qed.

(** X13. While a request for a file is in flight, no second one can be
    started for it: whatever the user and the server did since the page
    loaded (the uploaded files' ids being strings other than the names every
    object inherits), the requests in flight are for different file ids, and
    for each of them [processing[file.id]] is the request's own mark
    (['midi'] or ['tab']), so the action buttons of every file with that id
    are disabled. *)
Theorem one_request_per_file (events : list Event) (m : Machine) :
  run events initial = Some m ->
  NoDup (map snd (pending m)) /\
  forall kind fileId, In (kind, fileId) (pending m) ->
    readKey (processing (listState (page m))) fileId
    = lit (match kind with MidiRequest => "midi" | TabRequest => "tab" end) /\
    forall file, disabled (fileActions (listState (page m)) fileId file) = true.
Proof.
  intros Hrun.
  assert (Invariant m) as Hinv.
  { apply reachable_invariant. eapply run_reachable; [apply reachable_initial|done]. }
  split; [by apply inv_single|]. intros kind fileId Hp.
  destruct (inv_pending m Hinv kind fileId Hp) as [Hproc _].
  apply readKey_own in Hproc. split; [done|]. intros file.
  cbn [fileActions disabled]. rewrite Hproc. by destruct kind.
Qed.

Lemma one_request_per_file_example :
  run sampleEvents initial = Some sampleState /\
  NoDup (map snd (pending sampleState)) /\
  forall kind fileId, In (kind, fileId) (pending sampleState) ->
    readKey (processing (listState (page sampleState))) fileId
    = lit (match kind with MidiRequest => "midi" | TabRequest => "tab" end) /\
    forall file, disabled (fileActions (listState (page sampleState)) fileId file) = true.
Proof.
  split; [reflexivity|]. apply (one_request_per_file sampleEvents sampleState). reflexivity.
Defined.

(** X14. The workflow keeps its order when no two files on the page share
    an id (ids being strings other than the names every object inherits):
    a file has a tablature only if it has its MIDI (so wherever the PDF
    download is offered the MIDI download is offered too), and a tablature
    request is in flight only for a file that has its MIDI. *)
Theorem workflow_order (events : list Event) (m : Machine) :
  run events initial = Some m ->
  NoDup (ids m) ->
  forall file, In file (files m) ->
    (truthy (get file "tabGenerated") = true -> truthy (get file "midiProcessed") = true) /\
    (forall fileId, pdfDownload (fileActions (listState (page m)) fileId file) = true ->
                    midiDownload (fileActions (listState (page m)) fileId file) = true) /\
    (forall fileId, In (TabRequest, fileId) (pending m) ->
                    get file "id" = VPrim (PString fileId) ->
                    truthy (get file "midiProcessed") = true).
Proof.
  intros Hrun Hnd file Hf.
  assert (Ordered m) as Hord.
  { apply reachable_ordered; [|done]. eapply run_reachable; [apply reachable_initial|done]. }
  split; [by apply (ord_flags m Hord)|]. split.
  - intros fileId. cbn [fileActions pdfDownload midiDownload]. by apply (ord_flags m Hord).
  - intros fileId Hp Hid. by apply (ord_pending m Hord fileId).
Qed.

Lemma workflow_order_example :
  run sampleWorkflow initial = Some sampleFinal /\
  NoDup (ids sampleFinal) /\
  forall file, In file (files sampleFinal) ->
    (truthy (get file "tabGenerated") = true -> truthy (get file "midiProcessed") = true) /\
    (forall fileId, pdfDownload (fileActions (listState (page sampleFinal)) fileId file) = true ->
                    midiDownload (fileActions (listState (page sampleFinal)) fileId file) = true) /\
    (forall fileId, In (TabRequest, fileId) (pending sampleFinal) ->
                    get file "id" = VPrim (PString fileId) ->
                    truthy (get file "midiProcessed") = true).
Proof.
  split; [vm_compute; reflexivity|]. split; [apply NoDup_singleton|].
  apply (workflow_order sampleWorkflow sampleFinal);
    [vm_compute; reflexivity|apply NoDup_singleton].
Defined.

(** Without the hypothesis on ids the order is lost: a reply for one file
    updates every file with its id, also one that was uploaded later and
    has no MIDI. *)
Example shared_id_breaks_order :
  exists m file,
    run sharedIdEvents initial = Some m /\ In file (files m) /\
    truthy (get file "tabGenerated") = true /\ truthy (get file "midiProcessed") = false.
Proof.
  destruct (run sharedIdEvents initial) as [m|] eqn:Hrun; [|by vm_compute in Hrun].
  vm_compute in Hrun. injection Hrun as <-.
  eexists _, _. split; [reflexivity|]. split; [right; left; reflexivity|]. by vm_compute.
Qed.

(** X15. With no two files sharing an id (ids being strings other than
    the names every object inherits), the preview block of a file shows
    exactly one thing once the file has its MIDI, and is absent before:
    the hint to click on a tab while no tab was selected for the file, the
    MIDI preview of the file after 'MIDI Preview' was selected, the
    tablature of the file's [tabData] after 'Guitar Tab' was selected. *)
Theorem one_preview (events : list Event) (m : Machine) :
  run events initial = Some m ->
  NoDup (ids m) ->
  forall file fileId, In file (files m) -> get file "id" = VPrim (PString fileId) ->
    previews (listState (page m)) fileId file
    = if truthy (get file "midiProcessed") then
        match activeTab (listState (page m)) !! fileId with
        | None => [ClickOnATab]
        | Some v => if isLiteral v "midi"
                    then [MidiPreviewOf (VPrim (PString fileId))]
                    else [TabPreviewOf (get file "tabData")]
        end
      else [].
Proof.
  intros Hrun Hnd file fileId Hf Hid.
  assert (reachable m) as Hm by (eapply run_reachable; [apply reachable_initial|done]).
  pose proof (reachable_invariant m Hm) as Hinv.
  pose proof (reachable_ordered m Hm Hnd) as Hord.
  unfold previews, tabContent.
  destruct (truthy (get file "midiProcessed")) eqn:Hmidi.
  - cbn [orb]. rewrite !andb_true_r.
    destruct (activeTab (listState (page m)) !! fileId) as [v|] eqn:Ha.
    + rewrite (readKey_own _ _ _ Ha).
      destruct (inv_activeTab m Hinv _ _ Ha) as [[->| ->] _].
      * rewrite Hid. reflexivity.
      * rewrite (ord_guitarTab m Hord fileId file Ha Hf Hid). reflexivity.
    + assert (fileId ∉ objectPrototypeKeys) as Hplain.
      { destruct (inv_flagged m Hinv file fileId Hf Hid (or_introl Hmidi)) as [v Hv].
        rewrite list_elem_of_In. by apply (inv_processing m Hinv fileId v). }
      unfold readKey. rewrite Ha, (bool_decide_eq_false_2 _ Hplain). reflexivity.
  - destruct (truthy (get file "tabGenerated")) eqn:Htab; [|done].
    apply (ord_flags m Hord file Hf) in Htab. congruence.
Qed.

Lemma one_preview_example :
  run sampleWorkflow initial = Some sampleFinal /\
  NoDup (ids sampleFinal) /\
  In sampleFile (files sampleFinal) /\
  get sampleFile "id" = VPrim (PString (js "f1")) /\
  previews (listState (page sampleFinal)) (js "f1") sampleFile = [TabPreviewOf (VTab sampleTab)].
Proof.
  split; [vm_compute; reflexivity|]. split; [apply NoDup_singleton|].
  split; [left; reflexivity|]. split; [reflexivity|].
  rewrite (one_preview sampleWorkflow sampleFinal
             ltac:(vm_compute; reflexivity) ltac:(apply NoDup_singleton) sampleFile (js "f1")
             ltac:(left; reflexivity) ltac:(reflexivity)).
  reflexivity.
Defined.

(** X16. When the tablature request of a file is answered with status
    'tab_generated', the file at that place takes the reply's [tab_data]
    and keeps everything else but its [tabGenerated] flag; the 'Guitar Tab'
    tab of the file can then be selected, and the preview block then shows
    the tablature of exactly that [tab_data] and nothing else. *)
Theorem tab_reply_shown (m : Machine) (k i : nat) (fileId : jsString) (data file : Obj) :
  pending m !! k = Some (TabRequest, fileId) ->
  isLiteral (get data "status") "tab_generated" = true ->
  files m !! i = Some file ->
  get file "id" = VPrim (PString fileId) ->
  exists m1 m2 file',
    step (Settles k (Reply (DataObject data))) m = Some m1 /\
    files m1 !! i = Some file' /\
    get file' "tabData" = get data "tab_data" /\
    (forall p : string, p <> "tabGenerated"%string -> p <> "tabData"%string ->
                        get file' p = get file p) /\
    step (SelectGuitarTab i) m1 = Some m2 /\
    files m2 !! i = Some file' /\
    previews (listState (page m2)) fileId file' = [TabPreviewOf (get data "tab_data")].
Proof.
  intros Hk Hstatus Hi Hid.
  set (updates := <["tabGenerated" := VPrim (PBool true)]>
                  (<["tabData" := get data "tab_data"]> (∅ : Obj))).
  assert (step (Settles k (Reply (DataObject data))) m
          = Some {| page := {| appState := App.updateFileStatus (PString fileId) updates
                                             (appState (page m));
                               listState := setProcessing fileId (VPrim PNull)
                                                          (listState (page m)) |};
                    pending := delete k (pending m) |}) as Hstep.
  { cbn [step]. rewrite Hk. unfold handleGenerateTab_end, generateTabSettled.
    rewrite Hstatus. reflexivity. }
  eexists _, _, (updates ∪ file). split; [exact Hstep|].
  assert (forall p, get (updates ∪ file) p
                    = if decide (p = "tabGenerated"%string) then VPrim (PBool true)
                      else if decide (p = "tabData"%string) then get data "tab_data"
                           else get file p) as Hget.
  { intros p. rewrite get_union. unfold updates.
    destruct (decide (p = "tabGenerated"%string)) as [->|Hp1]; [by rewrite lookup_insert_eq|].
    rewrite lookup_insert_ne by done.
    destruct (decide (p = "tabData"%string)) as [->|Hp2]; [by rewrite lookup_insert_eq|].
    by rewrite lookup_insert_ne. }
  assert (files {| page := {| appState := App.updateFileStatus (PString fileId) updates
                                            (appState (page m));
                              listState := setProcessing fileId (VPrim PNull)
                                                         (listState (page m)) |};
                   pending := delete k (pending m) |} !! i = Some (updates ∪ file)) as Hi'.
  { unfold files in *. cbn [page appState App.updateFileStatus App.processedFiles].
    rewrite lookup_map, Hi. cbn [fmap option_fmap option_map].
    by rewrite (proj2 (strictEq_true _ _) Hid). }
  split; [exact Hi'|]. split; [by rewrite Hget|]. split.
  { intros p Hp1 Hp2. rewrite Hget. by rewrite !decide_False. }
  assert (get (updates ∪ file) "id" = VPrim (PString fileId)) as Hid'.
  { by rewrite Hget. }
  split; [|split].
  - cbn [step]. rewrite Hi'. apply stringId_spec in Hid'. rewrite Hid'.
    rewrite Hget. cbn [decide]. reflexivity.
  - exact Hi'.
  - unfold previews, tabContent.
    cbn [page listState setFileActiveTab activeTab].
    rewrite (readKey_own _ fileId (lit "tab")) by apply lookup_insert_eq.
    rewrite (Hget "tabGenerated"%string), (Hget "tabData"%string). cbn.
    rewrite orb_true_r. reflexivity.
Qed.

Lemma tab_reply_shown_example :
  pending sampleWaiting !! 0%nat = Some (TabRequest, js "f1") /\
  isLiteral (get sampleTabReply "status") "tab_generated" = true /\
  files sampleWaiting !! 0%nat = Some sampleMidiFile /\
  get sampleMidiFile "id" = VPrim (PString (js "f1")) /\
  exists m1 m2 file',
    step (Settles 0 (Reply (DataObject sampleTabReply))) sampleWaiting = Some m1 /\
    files m1 !! 0%nat = Some file' /\
    get file' "tabData" = get sampleTabReply "tab_data" /\
    (forall p : string, p <> "tabGenerated"%string -> p <> "tabData"%string ->
                        get file' p = get sampleMidiFile p) /\
    step (SelectGuitarTab 0) m1 = Some m2 /\
    files m2 !! 0%nat = Some file' /\
    previews (listState (page m2)) (js "f1") file'
    = [TabPreviewOf (get sampleTabReply "tab_data")].
Proof.
  split; [reflexivity|]. split; [vm_compute; reflexivity|]. split; [reflexivity|].
  split; [vm_compute; reflexivity|].
  apply (tab_reply_shown sampleWaiting 0 0 (js "f1") sampleTabReply sampleMidiFile);
    [reflexivity|vm_compute; reflexivity|reflexivity|vm_compute; reflexivity].
Defined.

End PageMachineFacts.

(** * Properties of ProcessedFilesList.js: a request without effect *)

Section ProcessedFilesListFacts.

Import ProcessedFilesList.

Lemma finish_sameView (fileId : jsString) (mark : JsValue) (s : Settled) (pg : Page) :
  truthy (readKey (processing (listState pg)) fileId) = false ->
  update s = None ->
  sameView pg (finish fileId s
                 {| appState := appState pg;
                    listState := setProcessing fileId mark (listState pg) |}).1.
Proof.
  intros Hidle Hs. unfold finish, sameView. cbn [fst appState listState]. rewrite Hs.
  split; [done|]. intros fid file. split; [|done].
  unfold fileActions. f_equal. cbn [setProcessing processing].
  rewrite insert_insert_eq. destruct (decide (fileId = fid)) as [<-|Hne].
  - rewrite (readKey_own _ fileId (VPrim PNull)) by apply lookup_insert_eq.
    by rewrite Hidle.
  - unfold readKey. by rewrite lookup_insert_ne.
Qed.

(** X17. A request that does not succeed leaves the page as it was before
    the click.  For a file whose buttons are enabled, 'Process to MIDI'
    followed by a rejected request, or by any reply other than one of
    status 'processed', ends with the same files, and for every file the
    same buttons, enabled as before, and the same preview; likewise
    'Generate Guitar Tab' and status 'tab_generated'.  An alert is raised
    exactly when the request was rejected or the reply carried no data. *)
Theorem request_without_effect (fileId : jsString) (outcome : Outcome ResponseData)
        (pg : Page) :
  truthy (readKey (processing (listState pg)) fileId) = false ->
  ((forall data, outcome = Reply (DataObject data) ->
                 isLiteral (get data "status") "processed" = false) ->
   sameView pg (handleProcessToMidi_end fileId outcome
                  (handleProcessToMidi_begin fileId pg)).1 /\
   ((handleProcessToMidi_end fileId outcome (handleProcessToMidi_begin fileId pg)).2
    = match outcome with
      | Failure | Reply DataNullish =>
          Some "Failed to process audio to MIDI. Please try again."%string
      | Reply _ => None
      end)) /\
  ((forall data, outcome = Reply (DataObject data) ->
                 isLiteral (get data "status") "tab_generated" = false) ->
   sameView pg (handleGenerateTab_end fileId outcome
                  (handleGenerateTab_begin fileId pg)).1 /\
   ((handleGenerateTab_end fileId outcome (handleGenerateTab_begin fileId pg)).2
    = match outcome with
      | Failure | Reply DataNullish =>
          Some "Failed to generate guitar tab. Please try again."%string
      | Reply _ => None
      end)).
Proof.
  intros Hidle. split; intros Hstatus.
  - assert (update (processToMidiSettled fileId outcome) = None) as Hs.
    { destruct outcome as [[data| |]|]; try done. simpl. by rewrite (Hstatus data). }
    split; [by apply finish_sameView|].
    destruct outcome as [[data| |]|]; simpl; try done. by rewrite (Hstatus data eq_refl).
  - assert (update (generateTabSettled fileId outcome) = None) as Hs.
    { destruct outcome as [[data| |]|]; try done. simpl. by rewrite (Hstatus data). }
    split; [by apply finish_sameView|].
    destruct outcome as [[data| |]|]; simpl; try done. by rewrite (Hstatus data eq_refl).
Qed.

Lemma request_without_effect_example :
  truthy (readKey (processing (listState PageMachine.samplePage)) (js "f1")) = false /\
  sameView PageMachine.samplePage
           (handleProcessToMidi_end (js "f1") Failure
              (handleProcessToMidi_begin (js "f1") PageMachine.samplePage)).1 /\
  (handleProcessToMidi_end (js "f1") Failure
     (handleProcessToMidi_begin (js "f1") PageMachine.samplePage)).2
  = Some "Failed to process audio to MIDI. Please try again."%string.
Proof.
  split; [vm_compute; reflexivity|].
  apply (proj1 (request_without_effect (js "f1") Failure PageMachine.samplePage
                  ltac:(vm_compute; reflexivity))).
  intros data H. discriminate H.
Defined.

End ProcessedFilesListFacts.

(** * Properties of MidiPreview.js: the piano roll *)

Section MidiPreviewRollFacts.

Import MidiPreview MidiPreviewRoll.

(** X18. The piano roll gives every MIDI pitch a row of its own inside the
    roll: a note's rectangle lies within the 512 pixels of the roll exactly
    when its pitch is between 0 and 127, a higher pitch is drawn strictly
    above a lower one with a pixel between the rows, and two notes are in
    the same row only if they have the same pitch. *)
Theorem PianoRoll_rows (note1 note2 : Note) :
  (0 <= pitch note1 <= 127 <->
   0 <= rectY note1 /\ rectY note1 + rectHeight <= rollHeight) /\
  (pitch note1 < pitch note2 <-> rectY note2 + rectHeight < rectY note1) /\
  (pitch note1 = pitch note2 <-> rectY note1 = rectY note2).
Proof.
  unfold rectY, rectHeight, rollHeight, noteHeight. lia.
Qed.

End MidiPreviewRollFacts.

(** * Properties of TabPreview.js: the zoom controls *)

Section TabPreviewZoomFacts.

Import TabPreviewZoom.

Context {T : Type} `{Numbers T}.

Lemma Numbers_leb_refl (x : T) : leb x x = true.
Proof. by destruct (leb_total x x). Qed.

Lemma Numbers_half_two : leb half two = true.
Proof. eapply leb_trans; [apply half_one|apply one_two]. Qed.

Lemma click_inRange (st : State T) (c : Click) : inRange st -> inRange (click st c).
Proof.
  intros (Hlo & Hhi & Hs). destruct c; unfold click.
  - destruct (leb (zoom st) half); [done|]. unfold handleZoomOut, inRange, Math_max. simpl.
    destruct (leb (minusStep (zoom st)) half) eqn:E.
    + split; [apply Numbers_leb_refl|]. split; [apply Numbers_half_two|done].
    + split; [by destruct (leb_total half (minusStep (zoom st))); [|congruence]|].
      split; [|done]. eapply leb_trans; [apply minusStep_shrinks|done].
  - destruct (leb two (zoom st)); [done|]. unfold handleZoomIn, inRange, Math_min. simpl.
    destruct (leb (plusStep (zoom st)) two) eqn:E.
    + split; [|done]. eapply leb_trans; [exact Hlo|apply plusStep_grows].
    + split; [apply Numbers_half_two|]. split; [apply Numbers_leb_refl|done].
  - unfold handleReset, inRange. simpl. split; [apply half_one|]. split; [apply one_two|done].
Qed.

(** X19. Whatever is clicked, in any order, the zoom level stays between
    0.5 and 2 and the scroll position stays 0, in every arithmetic that
    obeys the laws of [Numbers]. *)
Theorem zoom_in_range (clicks : list Click) :
  let st := fold_left click clicks initialState in
  leb half (zoom st) = true /\ leb (zoom st) two = true /\ scroll st = 0.
Proof.
  cbv zeta. change (inRange (fold_left click clicks initialState)).
  assert (inRange initialState) as Hinit.
  { split; [apply half_one|]. split; [apply one_two|done]. }
  revert Hinit. generalize (initialState (T := T)).
  induction clicks as [|c clicks IH]; intros st Hst; simpl; [done|].
  apply IH. by apply click_inRange.
Qed.

End TabPreviewZoomFacts.

Lemma zoom_in_range_example :
  let st := fold_left TabPreviewZoom.click
                      [TabPreviewZoom.ZoomInButton; TabPreviewZoom.ZoomOutButton;
                       TabPreviewZoom.ZoomOutButton; TabPreviewZoom.ZoomOutButton;
                       TabPreviewZoom.ZoomOutButton]
                      (TabPreviewZoom.initialState (T := Q)) in
  TabPreviewZoom.leb TabPreviewZoom.half (TabPreviewZoom.zoom st) = true /\
  TabPreviewZoom.leb (TabPreviewZoom.zoom st) TabPreviewZoom.two = true /\
  TabPreviewZoom.scroll st = 0.
Proof.
  apply (zoom_in_range (T := Q)).
Defined.
